(** * extractExecutables: the shell-command executable extractor

    Shallow embedding of [src/main/utils/extractExecutables.ts] and the
    properties its specification states about it.

    A JavaScript string is a sequence of UTF-16 code units; the regular
    expressions of the source carry no [u], [i], [m] or [s] flag, so they
    work on code units.  Regular expressions are kept as syntax trees and run
    by a backtracking matcher that follows the ECMAScript matcher (priority
    of alternatives, greedy and lazy repetition, the capture group, the
    backreference and the lookahead). *)

From Stdlib Require Import String Ascii.
From Stdlib Require Import List Bool Arith NArith Lia.
Import ListNotations.

Set Warnings "-notation-for-abbreviation".

(** ** Strings *)

(** A UTF-16 code unit is a number, and a JavaScript string the list of its
    code units. *)
Notation char := N (only parsing).
Notation jsstring := (list N) (only parsing).

(** Code unit of an ASCII character, and the string of an ASCII literal. *)
Definition ch (a : ascii) : char := N_of_ascii a.

Definition js (s : string) : jsstring := List.map ch (list_ascii_of_string s).

Local Open Scope N_scope.

Definition in_range (lo hi c : char) : bool := (N.leb lo c && N.leb c hi)%bool.

Fixpoint mem_char (c : char) (l : list char) : bool :=
  match l with
  | [] => false
  | x :: t => if N.eqb x c then true else mem_char c t
  end.

Fixpoint str_eqb (a b : jsstring) : bool :=
  match a, b with
  | [], [] => true
  | x :: a', y :: b' => if N.eqb x y then str_eqb a' b' else false
  | _, _ => false
  end.

(** [Array.prototype.includes] on an array of strings. *)
Fixpoint arr_includes (l : list jsstring) (x : jsstring) : bool :=
  match l with
  | [] => false
  | y :: t => if str_eqb y x then true else arr_includes t x
  end.

(** *** Character escapes of the regular expressions *)

(** [\s]: WhiteSpace and LineTerminator code units. *)
Definition is_space (c : char) : bool :=
  (in_range 9 13 c || N.eqb c 32 || N.eqb c 160 || N.eqb c 5760
   || in_range 8192 8202 c || N.eqb c 8232 || N.eqb c 8233 || N.eqb c 8239
   || N.eqb c 8287 || N.eqb c 12288 || N.eqb c 65279)%bool.

(** [\d] *)
Definition is_digit (c : char) : bool := in_range 48 57 c.

(** [[A-Z]] and [[a-z]] *)
Definition is_upper (c : char) : bool := in_range 65 90 c.
Definition is_lower (c : char) : bool := in_range 97 122 c.

(** [\w] *)
Definition is_word (c : char) : bool :=
  (is_lower c || is_upper c || is_digit c || N.eqb c 95)%bool.

(** [[a-zA-Z0-9_-]] *)
Definition is_name (c : char) : bool :=
  (is_lower c || is_upper c || is_digit c || N.eqb c 95 || N.eqb c 45)%bool.

(** [.] without the [s] flag: anything but a line terminator. *)
Definition is_dot (c : char) : bool :=
  negb (N.eqb c 10 || N.eqb c 13 || N.eqb c 8232 || N.eqb c 8233)%bool.

Local Close Scope N_scope.

(** ** Regular expressions *)

(** The syntax the expressions of the source need: the empty pattern, a
    literal code unit, a character class or escape, [r1r2], [r1|r2], [r*]
    and [r*?], the one capture group [(r)], its backreference [\1], the
    lookahead [(?=r)], [^] and [$]. *)
Inductive regex : Type :=
| Empty
| Lit (x : char)
| Cls (p : char -> bool)
| Seq (r1 r2 : regex)
| Alt (r1 r2 : regex)
| Star (greedy : bool) (r : regex)
| Group (r : regex)
| Backref
| Ahead (r : regex)
| Bol
| Eol.

(** [r+] and [r?] (both greedy). *)
Definition Plus (r : regex) : regex := Seq r (Star true r).
Definition Opt (r : regex) : regex := Alt r Empty.

Fixpoint has_group (r : regex) : bool :=
  match r with
  | Seq r1 r2 | Alt r1 r2 => (has_group r1 || has_group r2)%bool
  | Star _ r1 | Ahead r1 => has_group r1
  | Group _ => true
  | _ => false
  end.

(** The state of a match: the input still to be read and the value of
    capture group 1. *)
Definition capture : Type := option jsstring.
Definition mstate : Type := (list char * capture)%type.
Definition cont : Type := list char -> capture -> option mstate.

Definition ret : cont := fun s c => Some (s, c).

Fixpoint is_prefix (w s : list char) : bool :=
  match w, s with
  | [], _ => true
  | x :: w', y :: s' => if N.eqb x y then is_prefix w' s' else false
  | _ :: _, [] => false
  end.

(** The repetition [r*] (greedy) or [r*?] (lazy) of an iteration matcher
    [mi], as RepeatMatcher: an iteration that reads nothing is refused, so
    every iteration shortens the input and [length s] iterations are all
    there can be; the capture of a group inside the repetition is cleared
    before each iteration. *)
Fixpoint star_loop (mi : list char -> capture -> cont -> option mstate)
  (reset greedy : bool) (k : cont) (fuel : nat) (s : list char) (c : capture)
  {struct fuel} : option mstate :=
  match fuel with
  | O => k s c
  | S fuel' =>
      let c0 := if reset then None else c in
      let d : cont := fun s' c' =>
        if length s' <? length s
        then star_loop mi reset greedy k fuel' s' c' else None in
      if greedy then
        match mi s c0 d with
        | Some res => Some res
        | None => k s c
        end
      else
        match k s c with
        | Some res => Some res
        | None => mi s c0 d
        end
  end.

(** [m n0 r s c k]: match [r] at the suffix [s] of an input of length [n0],
    with capture [c], then continue with [k]; [None] is failure.  An
    alternative tries its left side first and a repetition its longest
    (greedy) or shortest (lazy) run first; the continuation failing sends the
    matcher back to the next choice.  A backreference to a group that has
    captured nothing reads nothing; a lookahead keeps the captures of its
    first match and is not entered again. *)
Fixpoint m (n0 : nat) (r : regex) (s : list char) (c : capture) (k : cont)
  {struct r} : option mstate :=
  match r with
  | Empty => k s c
  | Lit x =>
      match s with
      | y :: t => if N.eqb x y then k t c else None
      | [] => None
      end
  | Cls p =>
      match s with
      | y :: t => if p y then k t c else None
      | [] => None
      end
  | Seq r1 r2 => m n0 r1 s c (fun s' c' => m n0 r2 s' c' k)
  | Alt r1 r2 =>
      match m n0 r1 s c k with
      | Some res => Some res
      | None => m n0 r2 s c k
      end
  | Star greedy r1 =>
      star_loop (m n0 r1) (has_group r1) greedy k (length s) s c
  | Group r1 =>
      m n0 r1 s c (fun s' _ => k s' (Some (firstn (length s - length s') s)))
  | Backref =>
      match c with
      | None => k s c
      | Some w => if is_prefix w s then k (skipn (length w) s) c else None
      end
  | Ahead r1 =>
      match m n0 r1 s c ret with
      | Some (_, c') => k s c'
      | None => None
      end
  | Bol => if length s =? n0 then k s c else None
  | Eol =>
      match s with
      | [] => k s c
      | _ :: _ => None
      end
  end.

(** One attempt at the position where [s] starts: the input left after the
    match. *)
Definition match_at (n0 : nat) (r : regex) (s : list char) : option (list char) :=
  match m n0 r s None ret with
  | Some (s', _) => Some s'
  | None => None
  end.

(** ** String methods *)

(** [RegExp.prototype.exec] without [g] or [y]: the first position, from the
    left, where the expression matches. *)
Fixpoint search (n0 : nat) (r : regex) (s : list char) : bool :=
  match match_at n0 r s with
  | Some _ => true
  | None =>
      match s with
      | [] => false
      | _ :: t => search n0 r t
      end
  end.

(** [r.test(s)] *)
Definition test (r : regex) (s : jsstring) : bool := search (length s) r s.

(** [s.replace(r, repl)] for [r] without the [g] flag and [repl] without
    [$]: the first match is replaced. *)
Fixpoint replace_from (n0 : nat) (r : regex) (repl : jsstring) (s : list char)
  : jsstring :=
  match match_at n0 r s with
  | Some s' => repl ++ s'
  | None =>
      match s with
      | [] => []
      | x :: t => x :: replace_from n0 r repl t
      end
  end.

Definition replace (r : regex) (repl : jsstring) (s : jsstring) : jsstring :=
  replace_from (length s) r repl s.

(** [s.replace(r, repl)] for [r] with the [g] flag: matches are looked for
    from left to right, each search starting where the previous match ended
    (one further after an empty match).  [skip] counts the code units of the
    current match that are still to be passed over. *)
Fixpoint replace_loop (n0 : nat) (r : regex) (repl : jsstring) (skip : nat)
  (s : list char) {struct s} : jsstring :=
  match skip with
  | S skip' =>
      match s with
      | [] => []
      | _ :: t => replace_loop n0 r repl skip' t
      end
  | O =>
      match match_at n0 r s with
      | Some s' =>
          repl ++
          match length s - length s' with
          | O =>
              match s with
              | [] => []
              | x :: t => x :: replace_loop n0 r repl 0 t
              end
          | S n =>
              match s with
              | [] => []
              | _ :: t => replace_loop n0 r repl n t
              end
          end
      | None =>
          match s with
          | [] => []
          | x :: t => x :: replace_loop n0 r repl 0 t
          end
      end
  end.

Definition replace_all (r : regex) (repl : jsstring) (s : jsstring) : jsstring :=
  replace_loop (length s) r repl 0 s.

(** [s.split(r)]: [cur] holds, reversed, the code units read since the end
    of the last separator; a separator is looked for at every position but
    the end of the input, and an empty match right after the previous
    separator is passed over. *)
Fixpoint split_loop (n0 : nat) (r : regex) (cur : list char) (skip : nat)
  (s : list char) {struct s} : list jsstring :=
  match s with
  | [] => [rev cur]
  | x :: t =>
      match skip with
      | S skip' => split_loop n0 r cur skip' t
      | O =>
          match match_at n0 r s with
          | Some s' =>
              match length s - length s' with
              | O =>
                  match cur with
                  | [] => split_loop n0 r [x] 0 t
                  | _ :: _ => rev cur :: split_loop n0 r [x] 0 t
                  end
              | S n => rev cur :: split_loop n0 r [] n t
              end
          | None => split_loop n0 r (x :: cur) 0 t
          end
      end
  end.

Definition split (r : regex) (s : jsstring) : list jsstring :=
  match s with
  | [] => match match_at 0 r [] with Some _ => [] | None => [[]] end
  | _ :: _ => split_loop (length s) r [] 0 s
  end.

Fixpoint drop_while (p : char -> bool) (s : list char) : list char :=
  match s with
  | [] => []
  | x :: t => if p x then drop_while p t else s
  end.

(** [s.trim()]: the white space and line terminators of both ends go. *)
Definition trim (s : jsstring) : jsstring :=
  rev (drop_while is_space (rev (drop_while is_space s))).

(** [s.includes(c)] and [s.startsWith(c)] for a one-character [c]. *)
Definition includes (c : char) (s : jsstring) : bool := mem_char c s.

Definition startsWith (c : char) (s : jsstring) : bool :=
  match s with
  | [] => false
  | x :: _ => N.eqb x c
  end.

(** ** The program *)

Definition SUBCOMMAND_EXECUTABLES : list jsstring :=
  [js "git"; js "npm"; js "yarn"; js "pnpm"; js "docker"; js "kubectl"].

Definition SHELL_BUILTINS_TO_SKIP : list jsstring := [js "true"; js "false"].

Definition SHELL_KEYWORDS_TO_SKIP : list jsstring :=
  [js "for"; js "in"; js "do"; js "done"; js "while"; js "until"; js "if";
   js "then"; js "else"; js "elif"; js "fi"; js "case"; js "esac"; js "select"].

Definition prefixes : list jsstring :=
  [js "sudo"; js "env"; js "nohup"; js "nice"; js "time"; js "command"].

Definition dquote : char := 34%N.
Definition squote : char := ch "'".
Definition bquote : char := ch "`".

Definition is_quote12 (c : char) : bool := (N.eqb c squote || N.eqb c dquote)%bool.
Definition any_char (c : char) : bool := true.
Definition is_punct (c : char) : bool :=
  mem_char c (js "<>|&;()").
Definition is_separator (c : char) : bool := mem_char c [ch ";"; ch "&"; ch "|"; 10%N].

(** In the comments below [\x22] stands for the double quote of the source.

    [<<\s*['\x22]?] followed by [r]: the opening of a heredoc. *)
Definition heredoc_open (r : regex) : regex :=
  Seq (Lit (ch "<")) (Seq (Lit (ch "<")) (Seq (Star true (Cls is_space))
    (Seq (Opt (Cls is_quote12)) r))).

(** [/<<\s*['\x22]?(\w+)['\x22]?[\s\S]*?\n\1\s*(?=\n|$)/g] *)
Definition re_heredoc : regex :=
  heredoc_open
    (Seq (Group (Plus (Cls is_word)))
    (Seq (Opt (Cls is_quote12))
    (Seq (Star false (Cls any_char))
    (Seq (Lit 10%N)
    (Seq Backref
    (Seq (Star true (Cls is_space))
         (Ahead (Alt (Lit 10%N) Eol)))))))).

(** [/<<\s*['\x22]?\w+['\x22]?[\s\S]*$/g] *)
Definition re_heredoc_open_ended : regex :=
  heredoc_open
    (Seq (Plus (Cls is_word))
    (Seq (Opt (Cls is_quote12))
    (Seq (Star true (Cls any_char)) Eol))).

(** [/\x22[^\x22]*\x22/g], [/'[^']*'/g] and [/`[^`]*`/g], by the quote [q] *)
Definition re_quoted (q : char) : regex :=
  Seq (Lit q) (Seq (Star true (Cls (fun c => negb (N.eqb c q)))) (Lit q)).

(** [/\d*>&?\d+/g] *)
Definition re_fd_dup : regex :=
  Seq (Star true (Cls is_digit)) (Seq (Lit (ch ">"))
    (Seq (Opt (Lit (ch "&"))) (Plus (Cls is_digit)))).

(** [/\d+>>\S+/g] *)
Definition re_fd_append : regex :=
  Seq (Plus (Cls is_digit)) (Seq (Lit (ch ">")) (Seq (Lit (ch ">"))
    (Plus (Cls (fun c => negb (is_space c)))))).

(** [/\d+>\S+/g] *)
Definition re_fd_write : regex :=
  Seq (Plus (Cls is_digit)) (Seq (Lit (ch ">"))
    (Plus (Cls (fun c => negb (is_space c))))).

(** [/[;&|\n]+/] *)
Definition re_separators : regex := Plus (Cls is_separator).

(** [/^[A-Z]+$/] *)
Definition re_marker_line : regex := Seq Bol (Seq (Plus (Cls is_upper)) Eol).

(** [/\s+/] *)
Definition re_spaces : regex := Plus (Cls is_space).

(** [/^[<>|&;()]+$/] *)
Definition re_punct : regex := Seq Bol (Seq (Plus (Cls is_punct)) Eol).

(** [/^.*\//] *)
Definition re_path : regex := Seq Bol (Seq (Star true (Cls is_dot)) (Lit (ch "/"))).

(** [/^[a-zA-Z0-9_-]+$/] *)
Definition re_name : regex := Seq Bol (Seq (Plus (Cls is_name)) Eol).

(** What a run of the function ends in: a value, a TypeError raised by a
    method call on [undefined], or a loop that was cut short. *)
Inductive outcome (A : Type) : Type :=
| Ret (a : A)
| Throw
| NoFuel.

Arguments Ret {A} a.
Arguments Throw {A}.
Arguments NoFuel {A}.

Definition bind {A B : Type} (x : outcome A) (f : A -> outcome B) : outcome B :=
  match x with
  | Ret a => f a
  | Throw => Throw
  | NoFuel => NoFuel
  end.

(** Truthiness of a [string | null]. *)
Definition truthy (x : option jsstring) : bool :=
  match x with
  | Some (_ :: _) => true
  | _ => false
  end.

(** The heredoc stripping of lines 21-24. *)
Definition strip_heredocs (command : jsstring) : jsstring :=
  let cleaned := replace_all re_heredoc [] command in
  replace_all re_heredoc_open_ended [] cleaned.

(** The string-literal removal of lines 27-30. *)
Definition strip_literals (cleaned : jsstring) : jsstring :=
  replace_all (re_quoted bquote) [bquote; bquote]
    (replace_all (re_quoted squote) [squote; squote]
       (replace_all (re_quoted dquote) [dquote; dquote] cleaned)).

(** The redirection removal of lines 33-35. *)
Definition strip_redirections (cleaned : jsstring) : jsstring :=
  replace_all re_fd_write []
    (replace_all re_fd_append []
       (replace_all re_fd_dup [] cleaned)).

(** [cleaned] as it is when the segments are split, line 38. *)
Definition clean (command : jsstring) : jsstring :=
  strip_redirections (strip_literals (strip_heredocs command)).

(** The checks of lines 57-70, each of which ends in [continue]: the parts
    the scan passes over. *)
Definition skipped (part : jsstring) : bool :=
  ((includes (ch "=") part && negb (startsWith (ch "-") part))
   || startsWith (ch "-") part
   || arr_includes prefixes part
   || arr_includes SHELL_BUILTINS_TO_SKIP part
   || arr_includes SHELL_KEYWORDS_TO_SKIP part
   || (match part with [] => true | _ :: _ => false end || test re_punct part)
   || (startsWith (ch ">") part || startsWith (ch "<") part))%bool.

(** The inner loop of lines 81-90, [for (let j = ...; j < parts.length; j++)]. *)
Fixpoint subcommand_loop (parts : list jsstring) (j : nat) (fuel : nat)
  : outcome (option jsstring) :=
  match fuel with
  | O => NoFuel
  | S fuel' =>
      if j <? length parts then
        match nth_error parts j with
        | None => Throw
        | Some nextPart =>
            if startsWith (ch "-") nextPart then
              subcommand_loop parts (S j) fuel'
            else if includes (ch "=") nextPart then
              subcommand_loop parts (S j) fuel'
            else if test re_name nextPart then Ret (Some nextPart)
            else Ret None
        end
      else Ret None
  end.

(** The loop of lines 54-94, [for (let i = 0; i < parts.length; i++)], with
    the two variables it assigns. *)
Fixpoint parts_loop (parts : list jsstring) (i : nat)
  (foundExec subcommand : option jsstring) (fuel : nat)
  : outcome (option jsstring * option jsstring) :=
  match fuel with
  | O => NoFuel
  | S fuel' =>
      if i <? length parts then
        match nth_error parts i with
        | None => Throw
        | Some part =>
            if skipped part then
              parts_loop parts (S i) foundExec subcommand fuel'
            else
              let exec := replace re_path [] part in
              if (truthy (Some exec) && test re_name exec)%bool then
                if negb (truthy foundExec) then
                  if arr_includes SUBCOMMAND_EXECUTABLES exec then
                    bind (subcommand_loop parts (i + 1) (S (length parts)))
                      (fun sub =>
                         Ret (Some exec,
                              match sub with Some _ => sub | None => subcommand end))
                  else Ret (Some exec, subcommand)
                else Ret (foundExec, subcommand)
              else parts_loop parts (S i) foundExec subcommand fuel'
        end
      else Ret (foundExec, subcommand)
  end.

(** Line 98, [subcommand ? `${foundExec} ${subcommand}` : foundExec]. *)
Definition exec_id (foundExec : jsstring) (subcommand : option jsstring) : jsstring :=
  if truthy subcommand then
    match subcommand with
    | Some sub => foundExec ++ ch " " :: sub
    | None => foundExec
    end
  else foundExec.

(** The body of the loop over the segments, lines 41-103: the list of
    executables after the segment. *)
Definition scan_segment (executables : list jsstring) (segment : jsstring)
  : outcome (list jsstring) :=
  let trimmed := trim segment in
  match trimmed with
  | [] => Ret executables
  | _ :: _ =>
      if test re_marker_line trimmed then Ret executables
      else
        let parts := split re_spaces trimmed in
        bind (parts_loop parts 0 None None (S (length parts)))
          (fun '(foundExec, subcommand) =>
             if truthy foundExec then
               match foundExec with
               | Some e =>
                   let execId := exec_id e subcommand in
                   if negb (arr_includes executables execId)
                   then Ret (executables ++ [execId])
                   else Ret executables
               | None => Ret executables
               end
             else Ret executables)
  end.

(** [for (const segment of segments)] *)
Fixpoint scan_segments (segments : list jsstring) (executables : list jsstring)
  : outcome (list jsstring) :=
  match segments with
  | [] => Ret executables
  | segment :: rest =>
      bind (scan_segment executables segment) (scan_segments rest)
  end.

(** [cleaned.split(/[;&|\n]+/)] *)
Definition segments_of (command : jsstring) : list jsstring :=
  split re_separators (clean command).

Definition extractExecutables (command : jsstring) : outcome (list jsstring) :=
  scan_segments (segments_of command) [].

(** ** Reference definitions

    The definitions below are what the theorems compare the program with. *)

(** The declarative reading of the matcher: [matches n0 r s s'] when [r] can
    read the input from [s] up to its suffix [s'].  The backreference is read
    loosely (any string), for no capture is tracked here. *)
Inductive matches (n0 : nat) : regex -> list char -> list char -> Prop :=
| M_Empty s : matches n0 Empty s s
| M_Lit x t : matches n0 (Lit x) (x :: t) t
| M_Cls (p : char -> bool) x t : p x = true -> matches n0 (Cls p) (x :: t) t
| M_Seq r1 r2 s s1 s2 :
    matches n0 r1 s s1 -> matches n0 r2 s1 s2 -> matches n0 (Seq r1 r2) s s2
| M_AltL r1 r2 s s' : matches n0 r1 s s' -> matches n0 (Alt r1 r2) s s'
| M_AltR r1 r2 s s' : matches n0 r2 s s' -> matches n0 (Alt r1 r2) s s'
| M_Star0 g r s : matches n0 (Star g r) s s
| M_StarS g r s s1 s2 :
    matches n0 r s s1 -> length s1 < length s ->
    matches n0 (Star g r) s1 s2 -> matches n0 (Star g r) s s2
| M_Group r s s' : matches n0 r s s' -> matches n0 (Group r) s s'
| M_Backref w s : matches n0 Backref (w ++ s) s
| M_Ahead r s s' : matches n0 r s s' -> matches n0 (Ahead r) s s
| M_Bol s : length s = n0 -> matches n0 Bol s s
| M_Eol : matches n0 Eol [] [].

(** Expressions without a backreference: for them the declarative reading is
    exact. *)
Fixpoint no_backref (r : regex) : bool :=
  match r with
  | Seq r1 r2 | Alt r1 r2 => (no_backref r1 && no_backref r2)%bool
  | Star _ r1 | Group r1 | Ahead r1 => no_backref r1
  | Backref => false
  | _ => true
  end.

(** Expressions without [^]: their matches do not depend on the position. *)
Fixpoint no_bol (r : regex) : bool :=
  match r with
  | Seq r1 r2 | Alt r1 r2 => (no_bol r1 && no_bol r2)%bool
  | Star _ r1 | Group r1 | Ahead r1 => no_bol r1
  | Bol => false
  | _ => true
  end.

(** [needs x r]: every match of [r] reads the code unit [x]. *)
Fixpoint needs (x : char) (r : regex) : bool :=
  match r with
  | Lit y => N.eqb y x
  | Seq r1 r2 => (needs x r1 || needs x r2)%bool
  | Alt r1 r2 => (needs x r1 && needs x r2)%bool
  | Group r1 => needs x r1
  | _ => false
  end.

(** Expressions whose matches depend on the code units they read only:
    no [^], [$], lookahead or backreference. *)
Fixpoint local (r : regex) : bool :=
  match r with
  | Seq r1 r2 | Alt r1 r2 => (local r1 && local r2)%bool
  | Star _ r1 | Group r1 => local r1
  | Backref | Ahead _ | Bol | Eol => false
  | _ => true
  end.

Definition ok (o : option mstate) : bool :=
  match o with
  | Some _ => true
  | None => false
  end.

(** A list of strings without the later occurrences of its elements. *)
Fixpoint dedup (l : list jsstring) : list jsstring :=
  match l with
  | [] => []
  | x :: t => x :: filter (fun y => negb (str_eqb x y)) (dedup t)
  end.

(** [executables.includes(execId)] then [push], over a list of identities. *)
Definition push (executables : list jsstring) (execId : jsstring) : list jsstring :=
  if negb (arr_includes executables execId)
  then executables ++ [execId] else executables.

Fixpoint filter_map {A B : Type} (f : A -> option B) (l : list A) : list B :=
  match l with
  | [] => []
  | x :: t =>
      match f x with
      | Some y => y :: filter_map f t
      | None => filter_map f t
      end
  end.

(** [part.replace(/^.*\//, '')] and the test of line 75. *)
Definition basename (part : jsstring) : jsstring := replace re_path [] part.

Definition name_ok (exec : jsstring) : bool :=
  (truthy (Some exec) && test re_name exec)%bool.

(** The subcommand among the parts after the executable: the first part
    that neither starts with [-] nor holds [=], when it is a name. *)
Definition subcommand_of (rest : list jsstring) : option jsstring :=
  match find (fun t => negb (startsWith (ch "-") t || includes (ch "=") t)) rest with
  | Some t => if test re_name t then Some t else None
  | None => None
  end.

(** The executable and the subcommand found in the parts of a segment. *)
Fixpoint parts_found (parts : list jsstring) : option jsstring * option jsstring :=
  match parts with
  | [] => (None, None)
  | part :: rest =>
      if skipped part then parts_found rest
      else if name_ok (basename part) then
        (Some (basename part),
         if arr_includes SUBCOMMAND_EXECUTABLES (basename part)
         then subcommand_of rest else None)
      else parts_found rest
  end.

(** The identity a segment contributes, if any. *)
Definition segment_identity (segment : jsstring) : option jsstring :=
  match trim segment with
  | [] => None
  | _ :: _ =>
      if test re_marker_line (trim segment) then None
      else
        match parts_found (split re_spaces (trim segment)) with
        | (Some e, sub) => Some (exec_id e sub)
        | (None, _) => None
        end
  end.

(** The identities of the segments of a command, in the order of the
    segments, repetitions included. *)
Definition segment_ids (command : jsstring) : list jsstring :=
  filter_map segment_identity (segments_of command).

(** [/^[A-Za-z0-9_-]+( [A-Za-z0-9_-]+)?$/], the form of an identity. *)
Definition re_identity : regex :=
  Seq Bol (Seq (Plus (Cls is_name))
    (Seq (Opt (Group (Seq (Lit (ch " ")) (Plus (Cls is_name))))) Eol)).

(** One pass of the string-literal removal, read from left to right:
    [inside] tells whether an opening quote [q] with a closing one is behind. *)
Fixpoint neutralized (q : char) (inside : bool) (s : list char) : list char :=
  match s with
  | [] => []
  | x :: t =>
      if N.eqb x q then
        if inside then q :: neutralized q false t
        else if mem_char q t then q :: neutralized q true t
        else x :: t
      else if inside then neutralized q true t
      else x :: neutralized q false t
  end.

(** [<<\s*['\x22]?\w+], the start of a heredoc as both heredoc expressions
    have it. *)
Definition re_heredoc_start : regex := heredoc_open (Plus (Cls is_word)).

Definition starts_heredoc (s : list char) : bool :=
  match match_at (length s) re_heredoc_start s with
  | Some _ => true
  | None => false
  end.

Definition c_lt : char := ch "<".
Definition c_gt : char := ch ">".
Definition nl : char := 10%N.

(** What may stand between [<<] and the marker word. *)
Definition gap_char (c : char) : bool := (is_space c || is_quote12 c)%bool.


(** The quote characters, in the order of the passes that remove the
    string literals, and those up to the pass of [q]. *)
Definition quotes : list char := [dquote; squote; bquote].

Definition quotes_upto (q : char) : list char :=
  if N.eqb q dquote then [dquote]
  else if N.eqb q squote then [dquote; squote]
  else [dquote; squote; bquote].

(** Whether a quote [q] is open at the end of [s], when [b] tells whether
    one is open at its start; [s] is balanced for [q] when none is. *)
Fixpoint open_after (q : char) (b : bool) (s : list char) : bool :=
  match s with
  | [] => b
  | x :: t => open_after q (if N.eqb x q then negb b else b) t
  end.

Definition balanced (q : char) (s : list char) : bool := negb (open_after q false s).

(** [s] is balanced for the pass of [q] and for the passes before it, each
    pass seeing what the passes before it leave. *)
Definition balanced_upto (q : char) (s : list char) : bool :=
  if N.eqb q dquote then balanced dquote s
  else if N.eqb q squote then
    (balanced dquote s && balanced squote (neutralized dquote false s))%bool
  else
    (balanced dquote s && balanced squote (neutralized dquote false s)
     && balanced bquote
          (neutralized squote false (neutralized dquote false s)))%bool.

(** Whether [<<] occurs in [s]. *)
Fixpoint has_ltlt (s : list char) : bool :=
  match s with
  | [] => false
  | x :: t =>
      match t with
      | [] => false
      | y :: _ => ((N.eqb x c_lt && N.eqb y c_lt) || has_ltlt t)%bool
      end
  end.

Definition free_of (l : list char) (s : list char) : bool :=
  forallb (fun c => negb (mem_char c s)) l.

(** Strings the three removals leave as they are: no [<], no [>], no quote. *)
Definition plain (s : list char) : bool := free_of (c_lt :: c_gt :: quotes) s.

(** The maximal runs of code units that are no separators. *)
Fixpoint runs (cur : list char) (s : list char) : list jsstring :=
  match s with
  | [] => match cur with [] => [] | _ :: _ => [rev cur] end
  | x :: t =>
      if is_separator x then
        match cur with
        | [] => runs [] t
        | _ :: _ => rev cur :: runs [] t
        end
      else runs (x :: cur) t
  end.

(** ** Reference definitions of the further properties *)

(** [no_read x r]: on an input that starts with [x], [r] reads nothing;
    [no_match x r]: on such an input [r] has no match. *)
Fixpoint no_read (x : char) (r : regex) : bool :=
  match r with
  | Empty | Bol | Eol | Ahead _ => true
  | Lit y => negb (N.eqb y x)
  | Cls p => negb (p x)
  | Seq r1 r2 | Alt r1 r2 => (no_read x r1 && no_read x r2)%bool
  | Star _ r1 | Group r1 => no_read x r1
  | Backref => false
  end.

Fixpoint no_match (x : char) (r : regex) : bool :=
  match r with
  | Lit y => negb (N.eqb y x)
  | Cls p => negb (p x)
  | Seq r1 r2 => (no_match x r1 || (no_read x r1 && no_match x r2))%bool
  | Alt r1 r2 => (no_match x r1 && no_match x r2)%bool
  | Group r1 | Ahead r1 => no_match x r1
  | Eol => true
  | Empty | Bol | Star _ _ | Backref => false
  end.

(** Strings that do not end in a digit. *)
Definition no_digit_end (s : list char) : bool :=
  match rev s with
  | [] => true
  | x :: _ => negb (is_digit x)
  end.

(** The words of a segment: its maximal runs of code units that are no white
    space. *)
Fixpoint fields (cur : list char) (s : list char) : list jsstring :=
  match s with
  | [] => match cur with [] => [] | _ :: _ => [rev cur] end
  | x :: t =>
      if is_space x then
        match cur with
        | [] => fields [] t
        | _ :: _ => rev cur :: fields [] t
        end
      else fields (x :: cur) t
  end.

(** The identity a command of one segment has by its words. *)
Definition words_identity (words : list jsstring) : list jsstring :=
  match parts_found words with
  | (Some e, sub) => [exec_id e sub]
  | (None, _) => []
  end.

(** [s] is empty or starts with a code unit of [p]. *)
Definition stops_at (p : char -> bool) (s : list char) : bool :=
  match s with
  | [] => true
  | x :: _ => p x
  end.

(** The code units that no removal reads first: no [<], no [>], no quote,
    no digit. *)
Definition quiet_char (x : char) : bool := (plain [x] && negb (is_digit x))%bool.

(** No line of [body] after the first starts with the word [w]. *)
Fixpoint no_marker_line (w body : list char) : bool :=
  match body with
  | [] => true
  | x :: t => (negb (N.eqb x nl && is_prefix w t) && no_marker_line w t)%bool
  end.

(** [rest] is empty, or a line feed and a line that starts with no white
    space. *)
Definition next_line (rest : list char) : bool :=
  match rest with
  | [] => true
  | a :: [] => false
  | a :: x :: _ => (N.eqb a nl && negb (is_space x))%bool
  end.

(** ** Inputs of the examples *)

(** [for f in *.txt; do cat \x22$f\x22; done] *)
Definition cmd_for_loop : jsstring :=
  js "for f in *.txt; do cat " ++ dquote :: js "$f" ++ dquote :: js "; done".

(** [cat <<'EOF'\nsome text with rm -rf /\nEOF\necho done] *)
Definition cmd_heredoc : jsstring :=
  js "cat <<'EOF'" ++ nl :: js "some text with rm -rf /" ++ nl :: js "EOF"
    ++ nl :: js "echo done".

(** [git commit -m 'fix: handles <<EOF markers'] *)
Definition cmd_commit : jsstring := js "git commit -m 'fix: handles <<EOF markers'".

(** [echo \x22unclosed; rm x] *)
Definition cmd_unclosed : jsstring := js "echo " ++ dquote :: js "unclosed; rm x".


(** * Properties *)

(** ** The matcher *)

Section Matcher.

Variable n0 : nat.

Lemma star_loop_S mi reset g k fuel s c :
  star_loop mi reset g k (S fuel) s c =
  let d : cont := fun s' c' =>
    if length s' <? length s then star_loop mi reset g k fuel s' c' else None in
  if g then
    match mi s (if reset then None else c) d with
    | Some res => Some res
    | None => k s c
    end
  else
    match k s c with
    | Some res => Some res
    | None => mi s (if reset then None else c) d
    end.
Proof. reflexivity. Qed.

Lemma star_loop_ext mi reset g :
  (forall s c k1 k2, (forall s' c', k1 s' c' = k2 s' c') -> mi s c k1 = mi s c k2) ->
  forall k1 k2, (forall s' c', k1 s' c' = k2 s' c') ->
  forall fuel s c,
    star_loop mi reset g k1 fuel s c = star_loop mi reset g k2 fuel s c.
Proof.
  intros Hmi k1 k2 Hk fuel.
  induction fuel as [|fuel IH]; intros s c.
  - apply Hk.
  - rewrite !star_loop_S. cbv zeta. rewrite (Hk s c).
    assert (E : mi s (if reset then None else c)
                  (fun s' c' => if length s' <? length s
                                then star_loop mi reset g k1 fuel s' c' else None)
              = mi s (if reset then None else c)
                  (fun s' c' => if length s' <? length s
                                then star_loop mi reset g k2 fuel s' c' else None)).
    { apply Hmi. intros s' c'. destruct (length s' <? length s); auto. }
    rewrite E. reflexivity.
Qed.

Lemma m_ext r :
  forall s c k1 k2, (forall s' c', k1 s' c' = k2 s' c') ->
    m n0 r s c k1 = m n0 r s c k2.
Proof.
  induction r; intros s c k1 k2 Hk; simpl.
  - apply Hk.
  - destruct s as [|y t]; [reflexivity|]. destruct (N.eqb x y); auto.
  - destruct s as [|y t]; [reflexivity|]. destruct (p y); auto.
  - apply IHr1. intros s' c'. apply IHr2. assumption.
  - rewrite (IHr1 s c k1 k2 Hk), (IHr2 s c k1 k2 Hk). reflexivity.
  - apply star_loop_ext; assumption.
  - apply IHr. intros s' c'. apply Hk.
  - destruct c as [w|]; [|apply Hk]. destruct (is_prefix w s); auto.
  - destruct (m n0 r s c ret) as [[? c']|]; auto.
  - destruct (length s =? n0); auto.
  - destruct s; auto.
Qed.

(** Soundness: a result of the matcher comes from the continuation, called
    where a declarative match ends. *)
Lemma star_loop_sound r reset g k :
  (forall s c k res, m n0 r s c k = Some res ->
     exists s' c', matches n0 r s s' /\ k s' c' = Some res) ->
  forall fuel s c res,
    star_loop (m n0 r) reset g k fuel s c = Some res ->
    exists s' c', matches n0 (Star g r) s s' /\ k s' c' = Some res.
Proof.
  intros Hr fuel.
  induction fuel as [|fuel IH]; intros s c res H.
  - exists s, c. split; [constructor | assumption].
  - rewrite star_loop_S in H. cbv zeta in H.
    assert (Hiter : forall c0,
      m n0 r s c0 (fun s' c' => if length s' <? length s
                      then star_loop (m n0 r) reset g k fuel s' c' else None)
        = Some res ->
      exists s' c', matches n0 (Star g r) s s' /\ k s' c' = Some res).
    { intros c0 Hm. apply Hr in Hm. destruct Hm as (s1 & c1 & Hm1 & Hd).
      destruct (length s1 <? length s) eqn:Hlt; [|discriminate].
      apply Nat.ltb_lt in Hlt. apply IH in Hd.
      destruct Hd as (s2 & c2 & Hm2 & Hk).
      exists s2, c2. split; [|assumption].
      eapply M_StarS; eassumption. }
    destruct g.
    + destruct (m n0 r s (if reset then None else c) _) eqn:Hm.
      * inversion H; subst. eapply Hiter; eassumption.
      * exists s, c. split; [constructor | assumption].
    + destruct (k s c) eqn:Hk.
      * inversion H; subst. exists s, c. split; [constructor | assumption].
      * eapply Hiter; eassumption.
Qed.

Lemma m_sound r :
  forall s c k res, m n0 r s c k = Some res ->
    exists s' c', matches n0 r s s' /\ k s' c' = Some res.
Proof.
  induction r; intros s c k res H; simpl in H.
  - exists s, c. split; [constructor | assumption].
  - destruct s as [|y t]; [discriminate|].
    destruct (N.eqb x y) eqn:E; [|discriminate].
    apply N.eqb_eq in E. subst y. exists t, c. split; [constructor | assumption].
  - destruct s as [|y t]; [discriminate|].
    destruct (p y) eqn:E; [|discriminate].
    exists t, c. split; [constructor; assumption | assumption].
  - apply IHr1 in H. destruct H as (s1 & c1 & H1 & H).
    apply IHr2 in H. destruct H as (s2 & c2 & H2 & H).
    exists s2, c2. split; [econstructor; eassumption | assumption].
  - destruct (m n0 r1 s c k) eqn:E1.
    + inversion H; subst. apply IHr1 in E1. destruct E1 as (s' & c' & ? & ?).
      exists s', c'. split; [apply M_AltL; assumption | assumption].
    + apply IHr2 in H. destruct H as (s' & c' & ? & ?).
      exists s', c'. split; [apply M_AltR; assumption | assumption].
  - eapply star_loop_sound; eassumption.
  - apply IHr in H. destruct H as (s' & c' & ? & ?).
    exists s'. eexists. split; [constructor; eassumption | eassumption].
  - destruct c as [w|].
    + destruct (is_prefix w s) eqn:E; [|discriminate].
      exists (skipn (length w) s), (Some w). split; [|assumption].
      rewrite <- (firstn_skipn (length w) s) at 1. constructor.
    + exists s, None. split; [|assumption]. apply (M_Backref n0 [] s).
  - destruct (m n0 r s c ret) as [[s1 c1]|] eqn:E; [|discriminate].
    apply IHr in E. destruct E as (s' & c' & ? & ?).
    exists s, c1. split; [econstructor; eassumption | assumption].
  - destruct (length s =? n0) eqn:E; [|discriminate].
    apply Nat.eqb_eq in E. exists s, c. split; [constructor; assumption | assumption].
  - destruct s; [|discriminate]. exists [], c. split; [constructor | assumption].
Qed.

Lemma m_fail r s c : m n0 r s c (fun _ _ => None) = None.
Proof.
  destruct (m n0 r s c (fun _ _ => None)) eqn:E; [|reflexivity].
  apply m_sound in E. destruct E as (? & ? & ? & ?). discriminate.
Qed.


(** The fuel of a repetition is never short: any two fuels from [length s]
    on give the same result. *)
Lemma star_loop_empty r reset g k fuel c :
  star_loop (m n0 r) reset g k fuel [] c = k [] c.
Proof.
  destruct fuel as [|fuel]; [reflexivity|]. rewrite star_loop_S. cbv zeta.
  rewrite (m_ext r [] _ _ (fun _ _ => None)) by reflexivity.
  rewrite m_fail. destruct g; [reflexivity|]. destruct (k [] c); reflexivity.
Qed.

Lemma star_loop_fuel r reset g k :
  forall fuel1 fuel2 s c, length s <= fuel1 -> length s <= fuel2 ->
    star_loop (m n0 r) reset g k fuel1 s c
    = star_loop (m n0 r) reset g k fuel2 s c.
Proof.
  induction fuel1 as [|fuel1 IH]; intros fuel2 s c H1 H2.
  - destruct s; [|simpl in H1; lia]. rewrite !star_loop_empty. reflexivity.
  - destruct fuel2 as [|fuel2].
    + destruct s; [|simpl in H2; lia]. rewrite !star_loop_empty. reflexivity.
    + rewrite !star_loop_S. cbv zeta.
      assert (E : forall c0,
        m n0 r s c0 (fun s' c' => if length s' <? length s
                   then star_loop (m n0 r) reset g k fuel1 s' c' else None)
        = m n0 r s c0 (fun s' c' => if length s' <? length s
                   then star_loop (m n0 r) reset g k fuel2 s' c' else None)).
      { intros c0. apply m_ext. intros s' c'.
        destruct (length s' <? length s) eqn:Hlt; [|reflexivity].
        apply Nat.ltb_lt in Hlt. apply IH; lia. }
      rewrite E. reflexivity.
Qed.

(** The equation of RepeatMatcher. *)
Lemma m_star g r s c k :
  m n0 (Star g r) s c k =
  let c0 := if has_group r then None else c in
  let d : cont := fun s' c' =>
    if length s' <? length s then m n0 (Star g r) s' c' k else None in
  if g then
    match m n0 r s c0 d with
    | Some res => Some res
    | None => k s c
    end
  else
    match k s c with
    | Some res => Some res
    | None => m n0 r s c0 d
    end.
Proof.
  cbv zeta. cbn [m].
  rewrite (star_loop_fuel r (has_group r) g k (length s) (S (length s)) s c)
    by lia.
  rewrite star_loop_S. cbv zeta.
  assert (E : forall c0,
    m n0 r s c0 (fun s' c' => if length s' <? length s
       then star_loop (m n0 r) (has_group r) g k (length s) s' c' else None)
    = m n0 r s c0 (fun s' c' => if length s' <? length s
       then star_loop (m n0 r) (has_group r) g k (length s') s' c' else None)).
  { intros c0. apply m_ext. intros s' c'.
    destruct (length s' <? length s) eqn:Hlt; [|reflexivity].
    apply Nat.ltb_lt in Hlt. apply star_loop_fuel; lia. }
  rewrite E. reflexivity.
Qed.

(** Completeness: where a declarative match ends at a point from which the
    continuation succeeds whatever the capture, the matcher succeeds. *)
Lemma m_complete r s s' :
  matches n0 r s s' -> no_backref r = true ->
  forall c k, (forall c', ok (k s' c') = true) -> ok (m n0 r s c k) = true.
Proof.
  induction 1; intros Hnb c k Hk.
  - apply Hk.
  - simpl. rewrite N.eqb_refl. apply Hk.
  - simpl. rewrite H. apply Hk.
  - simpl in Hnb. apply andb_prop in Hnb. destruct Hnb as [Hb1 Hb2].
    simpl. apply IHmatches1; [assumption|]. intros c'.
    apply IHmatches2; assumption.
  - simpl in Hnb. apply andb_prop in Hnb. destruct Hnb as [Hb1 Hb2].
    simpl. pose proof (IHmatches Hb1 c k Hk) as E.
    destruct (m n0 r1 s c k); [reflexivity | discriminate].
  - simpl in Hnb. apply andb_prop in Hnb. destruct Hnb as [Hb1 Hb2].
    simpl. destruct (m n0 r1 s c k); [reflexivity|]. apply IHmatches; assumption.
  - rewrite m_star. cbv zeta. pose proof (Hk c) as E.
    destruct g.
    + destruct (m n0 r s _ _); [reflexivity | assumption].
    + destruct (k s c); [reflexivity | discriminate].
  - rewrite m_star. cbv zeta.
    assert (E : forall c0, ok (m n0 r s c0 (fun s' c' =>
       if length s' <? length s then m n0 (Star g r) s' c' k else None)) = true).
    { intros c0. apply IHmatches1; [assumption|]. intros c'.
      apply Nat.ltb_lt in H0. rewrite H0. apply IHmatches2; assumption. }
    destruct g.
    + specialize (E (if has_group r then None else c)).
      destruct (m n0 r s _ _); [reflexivity | discriminate].
    + destruct (k s c); [reflexivity | apply E].
  - simpl. apply IHmatches; [assumption|]. intros c'. apply Hk.
  - discriminate.
  - simpl. simpl in Hnb. pose proof (IHmatches Hnb c ret (fun _ => eq_refl)) as E.
    destruct (m n0 r s c ret) as [[? c1]|]; [apply Hk | discriminate].
  - simpl. apply Nat.eqb_eq in H. rewrite H. apply Hk.
  - apply Hk.
Qed.

(** A match ends at a suffix of where it starts. *)
Lemma matches_suffix r s s' :
  matches n0 r s s' -> exists w, s = w ++ s'.
Proof.
  induction 1.
  - exists []; reflexivity.
  - exists [x]; reflexivity.
  - exists [x]; reflexivity.
  - destruct IHmatches1 as [w1 E1]. destruct IHmatches2 as [w2 E2].
    exists (w1 ++ w2). rewrite <- app_assoc. congruence.
  - assumption.
  - assumption.
  - exists []; reflexivity.
  - destruct IHmatches1 as [w1 E1]. destruct IHmatches2 as [w2 E2].
    exists (w1 ++ w2). rewrite <- app_assoc. congruence.
  - assumption.
  - exists w; reflexivity.
  - exists []; reflexivity.
  - exists []; reflexivity.
  - exists []; reflexivity.
Qed.

(** A match of an expression that needs [x] reads [x]. *)
Lemma matches_needs x r s s' :
  matches n0 r s s' -> needs x r = true ->
  exists u v, s = u ++ x :: v.
Proof.
  induction 1; intros Hn; simpl in Hn; try discriminate.
  - apply N.eqb_eq in Hn. subst x0. exists [], t. reflexivity.
  - apply orb_prop in Hn. destruct Hn as [Hn|Hn].
    + auto.
    + destruct (IHmatches2 Hn) as (u & v & E).
      apply matches_suffix in H. destruct H as [w Hw].
      exists (w ++ u), v. rewrite <- app_assoc. congruence.
  - apply andb_prop in Hn. destruct Hn. auto.
  - apply andb_prop in Hn. destruct Hn. auto.
  - auto.
Qed.

End Matcher.

(** Without [^] the length of the whole input plays no part. *)
Lemma m_no_bol r : no_bol r = true ->
  forall n1 n2 s c k, m n1 r s c k = m n2 r s c k.
Proof.
  induction r; intros Hb n1 n2 s c k; simpl in Hb; try reflexivity.
  - apply andb_prop in Hb. destruct Hb as [Hb1 Hb2]. simpl.
    rewrite (IHr1 Hb1 n1 n2). apply m_ext. intros s' c'. apply IHr2. assumption.
  - apply andb_prop in Hb. destruct Hb as [Hb1 Hb2]. simpl.
    rewrite (IHr1 Hb1 n1 n2), (IHr2 Hb2 n1 n2). reflexivity.
  - simpl. generalize (length s). intros fuel. revert s c.
    induction fuel as [|fuel IH]; intros s c; [reflexivity|].
    rewrite !star_loop_S. cbv zeta. rewrite (IHr Hb n1 n2).
    assert (E : forall c0, m n2 r s c0 (fun s' c' => if length s' <? length s
                 then star_loop (m n1 r) (has_group r) greedy k fuel s' c' else None)
              = m n2 r s c0 (fun s' c' => if length s' <? length s
                 then star_loop (m n2 r) (has_group r) greedy k fuel s' c' else None)).
    { intros c0. apply m_ext. intros s' c'. rewrite IH. reflexivity. }
    rewrite E. reflexivity.
  - simpl. apply IHr. assumption.
  - simpl. rewrite (IHr Hb n1 n2). reflexivity.
  - discriminate.
Qed.

(** ** Strings and lists of strings *)

Lemma str_eqb_eq a b : str_eqb a b = true <-> a = b.
Proof.
  revert b. induction a as [|x a IH]; intros [|y b]; simpl; split; intros H;
    try reflexivity; try discriminate.
  - destruct (N.eqb x y) eqn:E; [|discriminate].
    apply N.eqb_eq in E. apply IH in H. congruence.
  - inversion H; subst. rewrite N.eqb_refl. apply IH. reflexivity.
Qed.

Lemma str_eqb_refl a : str_eqb a a = true.
Proof. apply str_eqb_eq. reflexivity. Qed.

Lemma arr_includes_In l x : arr_includes l x = true <-> In x l.
Proof.
  induction l as [|y t IH]; simpl.
  - split; [discriminate | contradiction].
  - destruct (str_eqb y x) eqn:E.
    + apply str_eqb_eq in E. split; auto.
    + rewrite IH. split; [auto | intros [H|H]; [|assumption]].
      subst. rewrite str_eqb_refl in E. discriminate.
Qed.

Lemma arr_includes_app l1 l2 x :
  arr_includes (l1 ++ l2) x = (arr_includes l1 x || arr_includes l2 x)%bool.
Proof.
  induction l1 as [|y t IH]; simpl; [reflexivity|].
  destruct (str_eqb y x); [reflexivity | assumption].
Qed.

Lemma mem_char_app x l1 l2 :
  mem_char x (l1 ++ l2) = (mem_char x l1 || mem_char x l2)%bool.
Proof.
  induction l1 as [|y t IH]; simpl; [reflexivity|].
  destruct (N.eqb y x); [reflexivity | assumption].
Qed.

(** *** Deduplication *)

Lemma filter_filter_comm {A} (P Q : A -> bool) l :
  filter P (filter Q l) = filter Q (filter P l).
Proof.
  induction l as [|x t IH]; simpl; [reflexivity|].
  destruct (P x) eqn:EP, (Q x) eqn:EQ; simpl; rewrite ?EP, ?EQ; congruence.
Qed.

Lemma filter_absorb {A} (P Q : A -> bool) l :
  (forall y, P y = true -> Q y = true) -> filter P (filter Q l) = filter P l.
Proof.
  intros H. induction l as [|x t IH]; simpl; [reflexivity|].
  destruct (Q x) eqn:EQ; simpl.
  - rewrite IH. reflexivity.
  - destruct (P x) eqn:EP; [|assumption].
    apply H in EP. congruence.
Qed.

Lemma dedup_filter P l : dedup (filter P l) = filter P (dedup l).
Proof.
  induction l as [|x t IH]; simpl; [reflexivity|].
  destruct (P x) eqn:EP; simpl.
  - rewrite IH. f_equal. apply filter_filter_comm.
  - rewrite IH. symmetry. apply filter_absorb.
    intros y Hy. destruct (str_eqb x y) eqn:E; [|reflexivity].
    apply str_eqb_eq in E. congruence.
Qed.

Lemma dedup_In x l : In x (dedup l) <-> In x l.
Proof.
  induction l as [|y t IH]; simpl; [tauto|].
  rewrite filter_In, IH. destruct (str_eqb y x) eqn:E.
  - apply str_eqb_eq in E. subst. simpl. split; auto.
  - simpl. split; [intros [?|[? _]]; auto|].
    intros [?|?]; [auto | right; auto].
Qed.

Lemma dedup_NoDup l : NoDup (dedup l).
Proof.
  induction l as [|x t IH]; simpl; constructor.
  - rewrite filter_In. intros [_ H]. rewrite str_eqb_refl in H. discriminate.
  - apply NoDup_filter. assumption.
Qed.

Lemma dedup_idem l : dedup (dedup l) = dedup l.
Proof.
  induction l as [|x t IH]; simpl; [reflexivity|].
  rewrite dedup_filter, IH. f_equal. apply filter_absorb. auto.
Qed.

Lemma filter_not_in_snoc acc x t :
  filter (fun y => negb (arr_includes (acc ++ [x]) y)) t
  = filter (fun y => negb (str_eqb x y))
      (filter (fun y => negb (arr_includes acc y)) t).
Proof.
  induction t as [|y l IHl]; [reflexivity|].
  simpl. rewrite arr_includes_app. simpl.
  destruct (arr_includes acc y); simpl; [assumption|].
  destruct (str_eqb x y); simpl; [assumption | f_equal; assumption].
Qed.

Lemma fold_push l : forall acc,
  fold_left push l acc
  = acc ++ dedup (filter (fun y => negb (arr_includes acc y)) l).
Proof.
  induction l as [|x t IH]; intros acc; simpl.
  - rewrite app_nil_r. reflexivity.
  - unfold push at 2. destruct (arr_includes acc x) eqn:E; simpl.
    + apply IH.
    + rewrite IH, <- app_assoc. simpl. do 2 f_equal.
      rewrite <- dedup_filter. f_equal. apply filter_not_in_snoc.
Qed.

Lemma fold_push_nil l : fold_left push l [] = dedup l.
Proof.
  rewrite fold_push. simpl. f_equal.
  induction l as [|x t IH]; simpl; congruence.
Qed.

Lemma arr_includes_dedup l y : arr_includes (dedup l) y = arr_includes l y.
Proof.
  destruct (arr_includes l y) eqn:E.
  - apply arr_includes_In. apply dedup_In. apply arr_includes_In. assumption.
  - destruct (arr_includes (dedup l) y) eqn:E'; [|reflexivity].
    apply (proj1 (arr_includes_In _ _)) in E'. apply (proj1 (dedup_In _ _)) in E'.
    apply (proj2 (arr_includes_In _ _)) in E'. congruence.
Qed.

Lemma dedup_app l1 l2 :
  dedup (l1 ++ l2)
  = dedup l1 ++ filter (fun y => negb (arr_includes l1 y)) (dedup l2).
Proof.
  rewrite <- (fold_push_nil (l1 ++ l2)), fold_left_app, fold_push_nil, fold_push.
  f_equal. rewrite dedup_filter. apply filter_ext. intros y. f_equal.
  apply arr_includes_dedup.
Qed.

Lemma dedup_app_dedup l1 l2 : dedup (dedup l1 ++ dedup l2) = dedup (l1 ++ l2).
Proof.
  rewrite !dedup_app, !dedup_idem. f_equal. apply filter_ext. intros y. f_equal.
  apply arr_includes_dedup.
Qed.

(** ** The loops over the parts of a segment *)

Lemma nth_error_skipn {A} (l : list A) : forall i x,
  nth_error l i = Some x -> skipn i l = x :: skipn (S i) l.
Proof.
  induction l as [|y t IH]; intros [|i] x H; simpl in *; try discriminate.
  - congruence.
  - apply IH. assumption.
Qed.

Lemma nth_error_in_range {A} (l : list A) i :
  i < length l -> exists x, nth_error l i = Some x.
Proof.
  intros H. destruct (nth_error l i) eqn:E; [eauto|].
  apply nth_error_None in E. lia.
Qed.

Lemma subcommand_of_cons p rest :
  subcommand_of (p :: rest) =
  if startsWith (ch "-") p then subcommand_of rest
  else if includes (ch "=") p then subcommand_of rest
  else if test re_name p then Some p else None.
Proof.
  unfold subcommand_of. cbn [find].
  destruct (startsWith (ch "-") p); [reflexivity|].
  destruct (includes (ch "=") p); reflexivity.
Qed.

Lemma subcommand_loop_S parts j fuel :
  subcommand_loop parts j (S fuel) =
  if j <? length parts then
    match nth_error parts j with
    | None => Throw
    | Some nextPart =>
        if startsWith (ch "-") nextPart then subcommand_loop parts (S j) fuel
        else if includes (ch "=") nextPart then subcommand_loop parts (S j) fuel
        else if test re_name nextPart then Ret (Some nextPart)
        else Ret None
    end
  else Ret None.
Proof. reflexivity. Qed.

(** The loop over [j] never reads outside [parts], ends within its fuel, and
    finds the subcommand of the parts from [j] on. *)
Lemma subcommand_loop_spec parts : forall fuel j,
  length parts - j < fuel ->
  subcommand_loop parts j fuel = Ret (subcommand_of (skipn j parts)).
Proof.
  induction fuel as [|fuel IH]; intros j Hf; [lia|].
  rewrite subcommand_loop_S. destruct (j <? length parts) eqn:Hj.
  - apply Nat.ltb_lt in Hj.
    destruct (nth_error_in_range parts j Hj) as [nextPart E]. rewrite E.
    rewrite (nth_error_skipn _ _ _ E), subcommand_of_cons.
    rewrite !IH by lia.
    destruct (startsWith (ch "-") nextPart); [reflexivity|].
    destruct (includes (ch "=") nextPart); [reflexivity|].
    destruct (test re_name nextPart); reflexivity.
  - apply Nat.ltb_ge in Hj. rewrite skipn_all2 by assumption. reflexivity.
Qed.

Lemma parts_loop_S parts i foundExec subcommand fuel :
  parts_loop parts i foundExec subcommand (S fuel) =
  if i <? length parts then
    match nth_error parts i with
    | None => Throw
    | Some part =>
        if skipped part then parts_loop parts (S i) foundExec subcommand fuel
        else
          let exec := replace re_path [] part in
          if (truthy (Some exec) && test re_name exec)%bool then
            if negb (truthy foundExec) then
              if arr_includes SUBCOMMAND_EXECUTABLES exec then
                bind (subcommand_loop parts (i + 1) (S (length parts)))
                  (fun sub =>
                     Ret (Some exec,
                          match sub with Some _ => sub | None => subcommand end))
              else Ret (Some exec, subcommand)
            else Ret (foundExec, subcommand)
          else parts_loop parts (S i) foundExec subcommand fuel
    end
  else Ret (foundExec, subcommand).
Proof. reflexivity. Qed.

Lemma parts_found_cons part rest :
  parts_found (part :: rest) =
  if skipped part then parts_found rest
  else if name_ok (basename part) then
    (Some (basename part),
     if arr_includes SUBCOMMAND_EXECUTABLES (basename part)
     then subcommand_of rest else None)
  else parts_found rest.
Proof. reflexivity. Qed.

(** The loop over [i], from its initial state, never reads outside [parts],
    ends within its fuel, and finds what [parts_found] describes. *)
Lemma parts_loop_spec parts : forall fuel i,
  length parts - i < fuel ->
  parts_loop parts i None None fuel = Ret (parts_found (skipn i parts)).
Proof.
  induction fuel as [|fuel IH]; intros i Hf; [lia|].
  rewrite parts_loop_S. destruct (i <? length parts) eqn:Hi.
  - apply Nat.ltb_lt in Hi.
    destruct (nth_error_in_range parts i Hi) as [part E]. rewrite E.
    rewrite (nth_error_skipn _ _ _ E), parts_found_cons.
    rewrite !IH by lia. cbv zeta.
    destruct (skipped part); [reflexivity|].
    unfold name_ok, basename.
    destruct (truthy (Some (replace re_path [] part))
              && test re_name (replace re_path [] part))%bool; [|reflexivity].
    cbn [truthy negb].
    destruct (arr_includes SUBCOMMAND_EXECUTABLES (replace re_path [] part));
      [|reflexivity].
    rewrite subcommand_loop_spec by lia. cbn [bind].
    replace (i + 1) with (S i) by lia.
    destruct (subcommand_of (skipn (S i) parts)); reflexivity.
  - apply Nat.ltb_ge in Hi. rewrite skipn_all2 by assumption. reflexivity.
Qed.

Lemma parts_found_name parts e sub :
  parts_found parts = (Some e, sub) -> name_ok e = true.
Proof.
  induction parts as [|part rest IH]; [discriminate|].
  rewrite parts_found_cons.
  destruct (skipped part); [assumption|].
  destruct (name_ok (basename part)) eqn:E; [|assumption].
  intros H. injection H as E1 _. rewrite <- E1. assumption.
Qed.

(** The body of the loop over the segments pushes the identity of the
    segment, when there is one and it is new. *)
Lemma scan_segment_spec executables segment :
  scan_segment executables segment
  = Ret (match segment_identity segment with
         | Some execId => push executables execId
         | None => executables
         end).
Proof.
  unfold scan_segment, segment_identity.
  destruct (trim segment) as [|x t] eqn:Et; [reflexivity|].
  destruct (test re_marker_line (x :: t)); [reflexivity|].
  rewrite parts_loop_spec by lia. cbn [skipn bind].
  destruct (parts_found (split re_spaces (x :: t))) as [[e|] sub] eqn:Ep.
  - apply parts_found_name in Ep. unfold name_ok in Ep.
    apply andb_prop in Ep. destruct Ep as [Ht _]. rewrite Ht.
    unfold push. destruct (negb (arr_includes executables (exec_id e sub)));
      reflexivity.
  - reflexivity.
Qed.

Lemma scan_segments_spec segments : forall executables,
  scan_segments segments executables
  = Ret (fold_left push (filter_map segment_identity segments) executables).
Proof.
  induction segments as [|segment rest IH]; intros executables; [reflexivity|].
  simpl. rewrite scan_segment_spec. cbn [bind]. rewrite IH.
  destruct (segment_identity segment); reflexivity.
Qed.

(** The function returns the identities of the segments, without the later
    occurrences. *)
Lemma extractExecutables_spec command :
  extractExecutables command = Ret (dedup (segment_ids command)).
Proof.
  unfold extractExecutables, segment_ids.
  rewrite scan_segments_spec, fold_push_nil. reflexivity.
Qed.

(** ** Matching at a position, testing *)

Lemma match_at_sound n0 r s s' :
  match_at n0 r s = Some s' -> matches n0 r s s'.
Proof.
  unfold match_at. destruct (m n0 r s None ret) as [[s1 c1]|] eqn:E; [|discriminate].
  intros H. inversion H; subst. apply m_sound in E.
  destruct E as (s2 & c2 & Hm & Hr). inversion Hr; subst. assumption.
Qed.

Lemma match_at_complete n0 r s s' :
  matches n0 r s s' -> no_backref r = true ->
  exists s'', match_at n0 r s = Some s''.
Proof.
  intros Hm Hb. unfold match_at.
  pose proof (m_complete n0 r s s' Hm Hb None ret (fun _ => eq_refl)) as E.
  destruct (m n0 r s None ret) as [[s1 c1]|]; [eauto | discriminate].
Qed.

Lemma match_at_none n0 r s :
  no_backref r = true -> (forall s', ~ matches n0 r s s') ->
  match_at n0 r s = None.
Proof.
  intros Hb H. destruct (match_at n0 r s) as [s'|] eqn:E; [|reflexivity].
  apply match_at_sound in E. exfalso. eapply H; eassumption.
Qed.

Lemma match_at_needs n0 x r s :
  needs x r = true -> mem_char x s = false -> match_at n0 r s = None.
Proof.
  intros Hn Hx. destruct (match_at n0 r s) as [s'|] eqn:E; [|reflexivity].
  apply match_at_sound in E.
  destruct (matches_needs n0 x r s s' E Hn) as (u & v & Huv). subst s.
  rewrite mem_char_app in Hx. simpl in Hx. rewrite N.eqb_refl in Hx.
  rewrite orb_true_r in Hx. discriminate.
Qed.

Lemma match_at_no_bol r n1 n2 s :
  no_bol r = true -> match_at n1 r s = match_at n2 r s.
Proof. intros H. unfold match_at. rewrite (m_no_bol r H n1 n2). reflexivity. Qed.

Lemma search_intro n0 r s s' : match_at n0 r s = Some s' -> search n0 r s = true.
Proof. intros H. destruct s; simpl; rewrite H; reflexivity. Qed.

Lemma search_elim n0 r s :
  search n0 r s = true -> exists u v s', s = u ++ v /\ matches n0 r v s'.
Proof.
  induction s as [|x t IH]; simpl.
  - destruct (match_at n0 r []) as [s'|] eqn:E; [|discriminate].
    intros _. exists [], [], s'. split; [reflexivity|]. apply match_at_sound. assumption.
  - destruct (match_at n0 r (x :: t)) as [s'|] eqn:E.
    + intros _. exists [], (x :: t), s'. split; [reflexivity|].
      apply match_at_sound. assumption.
    + intros H. destruct (IH H) as (u & v & s' & Huv & Hm).
      exists (x :: u), v, s'. split; [simpl; congruence | assumption].
Qed.

(** Inversion of the declarative reading, by the shape of the expression. *)
Lemma inv_empty n0 s s' : matches n0 Empty s s' -> s' = s.
Proof. intros H. inversion H; reflexivity. Qed.

Lemma inv_lit n0 x s s' : matches n0 (Lit x) s s' -> s = x :: s'.
Proof. intros H. inversion H; reflexivity. Qed.

Lemma inv_cls n0 p s s' :
  matches n0 (Cls p) s s' -> exists x, s = x :: s' /\ p x = true.
Proof. intros H. inversion H; subst. eauto. Qed.

Lemma inv_seq n0 r1 r2 s s' :
  matches n0 (Seq r1 r2) s s' ->
  exists s1, matches n0 r1 s s1 /\ matches n0 r2 s1 s'.
Proof. intros H. inversion H; subst. eauto. Qed.

Lemma inv_alt n0 r1 r2 s s' :
  matches n0 (Alt r1 r2) s s' -> matches n0 r1 s s' \/ matches n0 r2 s s'.
Proof. intros H. inversion H; subst; auto. Qed.

Lemma inv_group n0 r s s' : matches n0 (Group r) s s' -> matches n0 r s s'.
Proof. intros H. inversion H; subst; auto. Qed.

Lemma inv_bol n0 s s' : matches n0 Bol s s' -> s' = s /\ length s = n0.
Proof. intros H. inversion H; subst; auto. Qed.

Lemma inv_eol n0 s s' : matches n0 Eol s s' -> s = [] /\ s' = [].
Proof. intros H. inversion H; subst; auto. Qed.

(** An expression that starts with [^] is tested at the start only. *)
Lemma test_bol r s :
  test (Seq Bol r) s = true -> exists s', matches (length s) r s s'.
Proof.
  unfold test. intros H. apply search_elim in H.
  destruct H as (u & v & s' & Huv & Hm).
  apply inv_seq in Hm. destruct Hm as (s1 & H1 & H2).
  apply inv_bol in H1. destruct H1 as [-> Hlen]. subst s.
  rewrite length_app in Hlen. destruct u; [|simpl in Hlen; lia].
  exists s'. assumption.
Qed.

Lemma test_bol_intro r s s' :
  matches (length s) r s s' -> no_backref r = true -> test (Seq Bol r) s = true.
Proof.
  intros Hm Hb. unfold test.
  assert (Hm' : matches (length s) (Seq Bol r) s s').
  { econstructor; [constructor; reflexivity | assumption]. }
  destruct (match_at_complete _ _ _ _ Hm' Hb) as [s'' E].
  eapply search_intro. eassumption.
Qed.

(** Repetitions of a character class. *)
Lemma matches_star_cls n0 g p s s' :
  matches n0 (Star g (Cls p)) s s' ->
  exists w, s = w ++ s' /\ forallb p w = true.
Proof.
  intros H. remember (Star g (Cls p)) as r eqn:Er.
  induction H; inversion Er; subst.
  - exists []. split; reflexivity.
  - apply inv_cls in H. destruct H as (x & -> & Hx).
    destruct (IHmatches2 eq_refl) as (w & Hw & Hp).
    exists (x :: w). split; [simpl; congruence|]. simpl. rewrite Hx. assumption.
Qed.

Lemma matches_star_cls_intro n0 g p w s' :
  forallb p w = true -> matches n0 (Star g (Cls p)) (w ++ s') s'.
Proof.
  induction w as [|x w IH]; simpl; intros H.
  - constructor.
  - apply andb_prop in H. destruct H as [Hx Hw].
    eapply M_StarS; [constructor; eassumption | simpl; lia | auto].
Qed.

Lemma matches_plus_cls n0 p s s' :
  matches n0 (Plus (Cls p)) s s' ->
  exists w, s = w ++ s' /\ forallb p w = true /\ w <> [].
Proof.
  intros H. apply inv_seq in H. destruct H as (s1 & H1 & H2).
  apply inv_cls in H1. destruct H1 as (x & -> & Hx).
  apply matches_star_cls in H2. destruct H2 as (w & Hw & Hp).
  exists (x :: w). split; [simpl; congruence|]. split; [|discriminate].
  simpl. rewrite Hx. assumption.
Qed.

Lemma matches_plus_cls_intro n0 p w s' :
  forallb p w = true -> w <> [] -> matches n0 (Plus (Cls p)) (w ++ s') s'.
Proof.
  destruct w as [|x w]; [congruence|]. simpl. intros H _.
  apply andb_prop in H. destruct H as [Hx Hw].
  econstructor; [constructor; eassumption|].
  apply matches_star_cls_intro. assumption.
Qed.

Lemma matches_plus_cls_all n0 p w :
  forallb p w = true -> w <> [] -> matches n0 (Plus (Cls p)) w [].
Proof.
  intros Hp Hne. pose proof (matches_plus_cls_intro n0 p w [] Hp Hne) as H.
  rewrite app_nil_r in H. assumption.
Qed.

(** [/^[a-zA-Z0-9_-]+$/] holds of the non-empty strings of name characters. *)
Lemma test_re_name s :
  test re_name s = true <-> s <> [] /\ forallb is_name s = true.
Proof.
  split.
  - intros H. apply test_bol in H. destruct H as [s' H].
    apply inv_seq in H. destruct H as (s1 & H1 & H2).
    apply inv_eol in H2. destruct H2 as [-> ->].
    apply matches_plus_cls in H1. destruct H1 as (w & Hw & Hp & Hne).
    rewrite app_nil_r in Hw. subst w. split; assumption.
  - intros [Hne Hp]. apply test_bol_intro with (s' := []); [|reflexivity].
    econstructor; [|constructor].
    apply matches_plus_cls_all; assumption.
Qed.

Lemma name_ok_iff s : name_ok s = true <-> s <> [] /\ forallb is_name s = true.
Proof.
  unfold name_ok. rewrite andb_true_iff, test_re_name.
  destruct s; simpl; intuition congruence.
Qed.

(** An identity has the form [/^[A-Za-z0-9_-]+( [A-Za-z0-9_-]+)?$/]. *)
Lemma exec_id_form e sub :
  name_ok e = true ->
  (forall t, sub = Some t -> test re_name t = true) ->
  test re_identity (exec_id e sub) = true.
Proof.
  intros He Hsub. apply name_ok_iff in He. destruct He as [Hne Hp].
  unfold exec_id. destruct sub as [t|].
  - pose proof (Hsub t eq_refl) as Ht. apply test_re_name in Ht.
    destruct Ht as [Htne Htp].
    destruct t as [|y t]; [congruence|]. cbn [truthy].
    apply test_bol_intro with (s' := []); [|reflexivity].
    econstructor; [apply matches_plus_cls_intro; assumption|].
    econstructor; [|constructor].
    apply M_AltL. apply M_Group. eapply M_Seq; [apply M_Lit|].
    apply matches_plus_cls_all; [assumption | discriminate].
  - cbn [truthy].
    apply test_bol_intro with (s' := []); [|reflexivity].
    econstructor; [apply matches_plus_cls_all; assumption|].
    econstructor; [apply M_AltR; constructor | constructor].
Qed.

Lemma subcommand_of_name rest t :
  subcommand_of rest = Some t -> test re_name t = true.
Proof.
  unfold subcommand_of. destruct (find _ rest) as [u|]; [|discriminate].
  destruct (test re_name u) eqn:E; [|discriminate].
  intros H. inversion H; subst. assumption.
Qed.

Lemma parts_found_sub parts e sub t :
  parts_found parts = (e, sub) -> sub = Some t -> test re_name t = true.
Proof.
  induction parts as [|part rest IH];
    [intros H H'; inversion H; subst; discriminate|].
  rewrite parts_found_cons.
  destruct (skipped part); [assumption|].
  destruct (name_ok (basename part)); [|assumption].
  generalize (arr_includes SUBCOMMAND_EXECUTABLES (basename part)).
  intros b H Hs. injection H as _ E. rewrite Hs in E. clear IH.
  destruct b; [|discriminate].
  eapply subcommand_of_name. eassumption.
Qed.

Lemma segment_identity_form segment execId :
  segment_identity segment = Some execId -> test re_identity execId = true.
Proof.
  unfold segment_identity. destruct (trim segment) as [|x t]; [discriminate|].
  destruct (test re_marker_line (x :: t)); [discriminate|].
  destruct (parts_found (split re_spaces (x :: t))) as [[e|] sub] eqn:Ep;
    [|discriminate].
  intros H. inversion H; subst. apply exec_id_form.
  - eapply parts_found_name. eassumption.
  - intros u Hu. eapply parts_found_sub; eassumption.
Qed.

Lemma filter_map_In {A B} (f : A -> option B) l y :
  In y (filter_map f l) <-> exists x, In x l /\ f x = Some y.
Proof.
  induction l as [|x t IH]; simpl.
  - split; [contradiction | intros (? & [] & _)].
  - destruct (f x) as [z|] eqn:E; simpl; rewrite IH; split.
    + intros [H|(x' & Hin & Hf)]; [subst; eauto | eauto].
    + intros (x' & [H|H] & Hf); [subst; left; congruence | eauto].
    + intros (x' & Hin & Hf). eauto.
    + intros (x' & [H|H] & Hf); [subst; congruence | eauto].
Qed.

Lemma filter_map_app {A B} (f : A -> option B) l1 l2 :
  filter_map f (l1 ++ l2) = filter_map f l1 ++ filter_map f l2.
Proof.
  induction l1 as [|x t IH]; simpl; [reflexivity|].
  destruct (f x); simpl; congruence.
Qed.

(** A string on which [/^[A-Za-z0-9_-]+( [A-Za-z0-9_-]+)?$/] holds is a
    name, or two names with one space between them. *)
Lemma test_re_identity_elim s :
  test re_identity s = true ->
  exists a, a <> [] /\ forallb is_name a = true /\
    (s = a \/
     exists b, b <> [] /\ forallb is_name b = true /\ s = a ++ ch " " :: b).
Proof.
  intros H. apply test_bol in H. destruct H as [s' H].
  apply inv_seq in H. destruct H as (s1 & H1 & H2).
  apply matches_plus_cls in H1. destruct H1 as (a & Ha & Hpa & Hnea).
  apply inv_seq in H2. destruct H2 as (s2 & H2 & H3).
  apply inv_eol in H3. destruct H3 as [-> ->].
  exists a. split; [assumption|]. split; [assumption|].
  apply inv_alt in H2. destruct H2 as [H2|H2].
  - right. apply inv_group in H2.
    apply inv_seq in H2. destruct H2 as (s3 & H2 & H3).
    apply inv_lit in H2. subst s1.
    apply matches_plus_cls in H3. destruct H3 as (b & Hb & Hpb & Hneb).
    rewrite app_nil_r in Hb. subst. exists b. auto.
  - left. apply inv_empty in H2. subst. rewrite app_nil_r. reflexivity.
Qed.

(** ** Global replacement *)

Section Replace.

Variables (n0 : nat) (r : regex) (repl : jsstring).

Lemma replace_loop_0_cons x t :
  replace_loop n0 r repl 0 (x :: t) =
  match match_at n0 r (x :: t) with
  | Some s' =>
      repl ++
      match length (x :: t) - length s' with
      | O => x :: replace_loop n0 r repl 0 t
      | S n => replace_loop n0 r repl n t
      end
  | None => x :: replace_loop n0 r repl 0 t
  end.
Proof. reflexivity. Qed.

Lemma replace_loop_0_none s :
  match_at n0 r s = None ->
  replace_loop n0 r repl 0 s =
  match s with
  | [] => []
  | x :: t => x :: replace_loop n0 r repl 0 t
  end.
Proof. intros H. destruct s; simpl; rewrite H; reflexivity. Qed.

Lemma replace_loop_skip l : forall rest,
  replace_loop n0 r repl (length l) (l ++ rest) = replace_loop n0 r repl 0 rest.
Proof.
  induction l as [|x t IH]; intros rest.
  - reflexivity.
  - simpl. apply IH.
Qed.

(** A non-empty match at the start is replaced, and the search goes on
    after it. *)
Lemma replace_loop_0_some w rest :
  w <> [] -> match_at n0 r (w ++ rest) = Some rest ->
  replace_loop n0 r repl 0 (w ++ rest) = repl ++ replace_loop n0 r repl 0 rest.
Proof.
  intros Hw H. destruct w as [|x t]; [congruence|].
  rewrite <- app_comm_cons in *. rewrite replace_loop_0_cons, H.
  replace (length (x :: t ++ rest) - length rest) with (S (length t))
    by (cbn [length]; rewrite length_app; lia).
  rewrite replace_loop_skip. reflexivity.
Qed.

(** Where no match starts, the input is kept. *)
Lemma replace_loop_keep l : forall rest,
  (forall u v, l = u ++ v -> v <> [] -> match_at n0 r (v ++ rest) = None) ->
  replace_loop n0 r repl 0 (l ++ rest) = l ++ replace_loop n0 r repl 0 rest.
Proof.
  induction l as [|x t IH]; intros rest H; [reflexivity|].
  rewrite replace_loop_0_none by (apply (H [] (x :: t)); [reflexivity | discriminate]).
  simpl. f_equal. apply IH. intros u v E Hv.
  apply (H (x :: u) v); [simpl; congruence | assumption].
Qed.

Lemma replace_loop_needs x s :
  needs x r = true -> mem_char x s = false ->
  replace_loop n0 r repl 0 s = s.
Proof.
  intros Hn Hx.
  pose proof (replace_loop_keep s [] ) as K. rewrite !app_nil_r in K.
  rewrite K.
  - rewrite replace_loop_0_none; [apply app_nil_r|].
    apply match_at_needs with (x := x); [assumption | reflexivity].
  - intros u v E _. rewrite app_nil_r.
    apply match_at_needs with (x := x); [assumption|].
    subst s. rewrite mem_char_app in Hx. apply orb_false_elim in Hx. tauto.
Qed.

End Replace.

Lemma replace_all_needs x r repl s :
  needs x r = true -> mem_char x s = false -> replace_all r repl s = s.
Proof. apply replace_loop_needs. Qed.

(** Without [^], the replacement in a suffix does not depend on what is
    before. *)
Lemma replace_loop_no_bol r repl n1 n2 :
  no_bol r = true ->
  forall s skip, replace_loop n1 r repl skip s = replace_loop n2 r repl skip s.
Proof.
  intros Hb. induction s as [|x t IH]; intros skip.
  - destruct skip; simpl; [|reflexivity].
    rewrite (match_at_no_bol r n1 n2 [] Hb). reflexivity.
  - destruct skip; simpl.
    + rewrite (match_at_no_bol r n1 n2 (x :: t) Hb).
      destruct (match_at n2 r (x :: t)) as [s'|]; [|rewrite IH; reflexivity].
      destruct (length s'); [rewrite IH; reflexivity|].
      destruct (length t - n); rewrite IH; reflexivity.
    + apply IH.
Qed.

(** ** String literals *)

Lemma mem_char_split q s :
  mem_char q s = true ->
  exists body post, s = body ++ q :: post /\ mem_char q body = false.
Proof.
  induction s as [|x t IH]; simpl; [discriminate|].
  destruct (N.eqb x q) eqn:E.
  - apply N.eqb_eq in E. subst. intros _. exists [], t. split; reflexivity.
  - intros H. destruct (IH H) as (body & post & Ht & Hb).
    exists (x :: body), post. split; [simpl; congruence|]. simpl. rewrite E. assumption.
Qed.

Lemma split_at_first_unique q b1 p1 b2 p2 :
  mem_char q b1 = false -> mem_char q b2 = false ->
  b1 ++ q :: p1 = b2 ++ q :: p2 -> b1 = b2 /\ p1 = p2.
Proof.
  revert b2. induction b1 as [|x b1 IH]; intros [|y b2] H1 H2 E; simpl in *.
  - inversion E. auto.
  - inversion E; subst. rewrite N.eqb_refl in H2. discriminate.
  - inversion E; subst. rewrite N.eqb_refl in H1. discriminate.
  - inversion E; subst. destruct (N.eqb y q); [discriminate|].
    destruct (IH b2 H1 H2 H3). subst. auto.
Qed.

Lemma forallb_not_q q w :
  forallb (fun c => negb (N.eqb c q)) w = true <-> mem_char q w = false.
Proof.
  induction w as [|x w IH]; simpl; [tauto|].
  destruct (N.eqb x q); simpl; [split; discriminate | assumption].
Qed.

(** What a quoted span is. *)
Lemma matches_quoted n0 q s s' :
  matches n0 (re_quoted q) s s' <->
  exists body, s = q :: body ++ q :: s' /\ mem_char q body = false.
Proof.
  unfold re_quoted. split.
  - intros H. apply inv_seq in H. destruct H as (s1 & H1 & H2).
    apply inv_lit in H1. subst s.
    apply inv_seq in H2. destruct H2 as (s2 & H2 & H3).
    apply inv_lit in H3. subst s2.
    apply matches_star_cls in H2. destruct H2 as (w & Hw & Hp).
    exists w. split; [congruence|]. apply forallb_not_q. assumption.
  - intros (body & -> & Hb).
    econstructor; [constructor|]. econstructor; [|constructor].
    apply matches_star_cls_intro. apply forallb_not_q. assumption.
Qed.

Lemma match_at_quoted n0 q body post :
  mem_char q body = false ->
  match_at n0 (re_quoted q) (q :: body ++ q :: post) = Some post.
Proof.
  intros Hb.
  assert (Hm : matches n0 (re_quoted q) (q :: body ++ q :: post) post).
  { apply matches_quoted. exists body. auto. }
  destruct (match_at_complete n0 _ _ _ Hm eq_refl) as [s'' E].
  rewrite E. f_equal. apply match_at_sound in E.
  apply matches_quoted in E. destruct E as (b2 & E & Hb2).
  inversion E as [E'].
  destruct (split_at_first_unique q body post b2 s'' Hb Hb2 E'). congruence.
Qed.

Lemma match_at_quoted_none n0 q s :
  (forall t, s = q :: t -> mem_char q t = false) ->
  match_at n0 (re_quoted q) s = None.
Proof.
  intros H. apply match_at_none; [reflexivity|].
  intros s' Hm. apply matches_quoted in Hm. destruct Hm as (body & -> & Hb).
  specialize (H _ eq_refl). rewrite mem_char_app in H. simpl in H.
  rewrite N.eqb_refl, orb_true_r in H. discriminate.
Qed.

Lemma neutralized_inside q body post :
  mem_char q body = false ->
  neutralized q true (body ++ q :: post) = q :: neutralized q false post.
Proof.
  induction body as [|x body IH]; simpl.
  - intros _. rewrite N.eqb_refl. reflexivity.
  - destruct (N.eqb x q); [discriminate | assumption].
Qed.

(** Each pass of the string-literal removal is the left-to-right
    neutralization: the expression run with the [g] flag against the reading
    by quote state. *)
Lemma needs_quoted q : needs q (re_quoted q) = true.
Proof. simpl. rewrite N.eqb_refl. reflexivity. Qed.

Lemma replace_quoted n0 q : forall n s, length s <= n ->
  replace_loop n0 (re_quoted q) [q; q] 0 s = neutralized q false s.
Proof.
  induction n as [|n IH]; intros s Hn.
  - destruct s; [|simpl in Hn; lia].
    rewrite replace_loop_0_none; [reflexivity|].
    apply match_at_quoted_none. discriminate.
  - destruct s as [|x t].
    { rewrite replace_loop_0_none; [reflexivity|].
      apply match_at_quoted_none. discriminate. }
    simpl in Hn. cbn [neutralized].
    destruct (N.eqb x q) eqn:E.
    + apply N.eqb_eq in E. subst x.
      destruct (mem_char q t) eqn:Hq.
      * destruct (mem_char_split q t Hq) as (body & post & -> & Hb).
        pose proof (replace_loop_0_some n0 (re_quoted q) [q; q]
                      (q :: body ++ [q]) post) as K.
        replace ((q :: body ++ [q]) ++ post) with (q :: body ++ q :: post) in K
          by (simpl; rewrite <- app_assoc; reflexivity).
        rewrite K; [|discriminate | apply match_at_quoted; assumption].
        cbn [app].
        rewrite neutralized_inside by assumption.
        rewrite IH; [reflexivity|].
        rewrite length_app in Hn. simpl in Hn. lia.
      * rewrite replace_loop_0_none.
        -- f_equal. apply replace_loop_needs with (x := q);
             [apply needs_quoted | assumption].
        -- apply match_at_quoted_none. intros t' Et. congruence.
    + rewrite replace_loop_0_none.
      * f_equal. apply IH. lia.
      * apply match_at_quoted_none. intros t' Et.
        inversion Et; subst. rewrite N.eqb_refl in E. discriminate.
Qed.

Lemma replace_all_quoted q s :
  replace_all (re_quoted q) [q; q] s = neutralized q false s.
Proof. unfold replace_all. apply replace_quoted with (n := length s). lia. Qed.

(** The three passes, by their reading. *)
Lemma strip_literals_spec s :
  strip_literals s
  = neutralized bquote false
      (neutralized squote false (neutralized dquote false s)).
Proof. unfold strip_literals. rewrite !replace_all_quoted. reflexivity. Qed.

(** Properties of one pass. *)
Lemma neutralized_keep q pre rest :
  mem_char q pre = false ->
  neutralized q false (pre ++ rest) = pre ++ neutralized q false rest.
Proof.
  induction pre as [|x pre IH]; simpl; [reflexivity|].
  destruct (N.eqb x q); [discriminate|]. intros H. f_equal. auto.
Qed.

Lemma neutralized_absent q s :
  mem_char q s = false -> neutralized q false s = s.
Proof.
  intros H. rewrite <- (app_nil_r s) at 1.
  rewrite neutralized_keep by assumption. simpl. apply app_nil_r.
Qed.

Lemma neutralized_span q body post :
  mem_char q body = false ->
  neutralized q false (q :: body ++ q :: post) = q :: q :: neutralized q false post.
Proof.
  intros Hb. cbn [neutralized]. rewrite N.eqb_refl.
  rewrite mem_char_app. simpl. rewrite N.eqb_refl, orb_true_r.
  rewrite neutralized_inside by assumption. reflexivity.
Qed.

Lemma neutralized_unmatched q rest :
  mem_char q rest = false -> neutralized q false (q :: rest) = q :: rest.
Proof. intros H. cbn [neutralized]. rewrite N.eqb_refl, H. reflexivity. Qed.

(** ** Splitting *)

Lemma m_cls_cons n0 p x t c k :
  m n0 (Cls p) (x :: t) c k = if p x then k t c else None.
Proof. reflexivity. Qed.

Lemma m_seq n0 r1 r2 s c k :
  m n0 (Seq r1 r2) s c k = m n0 r1 s c (fun s' c' => m n0 r2 s' c' k).
Proof. reflexivity. Qed.

(** The greedy repetition of a class, one code unit at a time. *)
Lemma m_star_cls_cons n0 p x t c k :
  m n0 (Star true (Cls p)) (x :: t) c k =
  if p x then
    match m n0 (Star true (Cls p)) t c k with
    | Some res => Some res
    | None => k (x :: t) c
    end
  else k (x :: t) c.
Proof.
  rewrite m_star. cbv zeta. rewrite m_cls_cons. cbn [has_group].
  replace (length t <? length (x :: t)) with true
    by (symmetry; apply Nat.ltb_lt; simpl; lia).
  destruct (p x); reflexivity.
Qed.

(** Followed by nothing that can fail, it reads the longest run. *)
Lemma m_star_cls_ret n0 p c : forall s,
  m n0 (Star true (Cls p)) s c ret = Some (drop_while p s, c).
Proof.
  induction s as [|x t IH].
  - reflexivity.
  - rewrite m_star_cls_cons, IH. cbn [drop_while]. destruct (p x); reflexivity.
Qed.

Lemma match_at_plus_cls n0 p s :
  match_at n0 (Plus (Cls p)) s =
  match s with
  | [] => None
  | x :: t => if p x then Some (drop_while p t) else None
  end.
Proof.
  unfold match_at, Plus. destruct s as [|x t]; [reflexivity|].
  rewrite m_seq, m_cls_cons.
  destruct (p x); [|reflexivity].
  rewrite m_star_cls_ret. reflexivity.
Qed.

Lemma drop_while_app p l rest :
  forallb p l = true -> drop_while p (l ++ rest) = drop_while p rest.
Proof.
  induction l as [|x l IH]; simpl; [reflexivity|].
  destruct (p x); [assumption | discriminate].
Qed.

Lemma drop_while_split p s :
  exists l, s = l ++ drop_while p s /\ forallb p l = true.
Proof.
  induction s as [|x t IH]; simpl.
  - exists []. split; reflexivity.
  - destruct (p x) eqn:E.
    + destruct IH as (l & Hl & Hp). exists (x :: l).
      split; [simpl; congruence | simpl; rewrite E; assumption].
    + exists []. split; reflexivity.
Qed.

Lemma split_loop_skip n0 r l : forall rest,
  split_loop n0 r [] (length l) (l ++ rest) = split_loop n0 r [] 0 rest.
Proof.
  induction l as [|x t IH]; intros rest; [reflexivity|].
  simpl. apply IH.
Qed.

Lemma split_loop_0_cons n0 r cur x t :
  split_loop n0 r cur 0 (x :: t) =
  match match_at n0 r (x :: t) with
  | Some s' =>
      match length (x :: t) - length s' with
      | O =>
          match cur with
          | [] => split_loop n0 r [x] 0 t
          | _ :: _ => rev cur :: split_loop n0 r [x] 0 t
          end
      | S n => rev cur :: split_loop n0 r [] n t
      end
  | None => split_loop n0 r (x :: cur) 0 t
  end.
Proof. reflexivity. Qed.

Lemma runs_drop cur l rest :
  forallb is_separator l = true -> l <> [] ->
  runs cur (l ++ rest) = runs cur [] ++ runs [] rest.
Proof.
  intros Hl Hne. destruct l as [|x l]; [congruence|].
  simpl in Hl. apply andb_prop in Hl. destruct Hl as [Hx Hl].
  assert (E : runs [] (l ++ rest) = runs [] rest).
  { clear - Hl. induction l as [|y l IH]; [reflexivity|].
    simpl in Hl. apply andb_prop in Hl. destruct Hl as [Hy Hl].
    simpl. rewrite Hy. auto. }
  simpl. rewrite Hx. destruct cur; simpl; rewrite E; reflexivity.
Qed.

(** Up to empty pieces, splitting on the separators gives the runs between
    them. *)
Lemma split_loop_runs {B} (f : jsstring -> option B) n0 :
  f [] = None ->
  forall n s cur, length s <= n ->
    filter_map f (split_loop n0 re_separators cur 0 s) = filter_map f (runs cur s).
Proof.
  intros Hf. induction n as [|n IH]; intros s cur Hn.
  - destruct s; [|simpl in Hn; lia]. simpl.
    destruct cur; simpl; [rewrite Hf; reflexivity | reflexivity].
  - destruct s as [|x t].
    { simpl. destruct cur; simpl; [rewrite Hf; reflexivity | reflexivity]. }
    simpl in Hn. rewrite split_loop_0_cons.
    unfold re_separators. rewrite match_at_plus_cls.
    destruct (is_separator x) eqn:Ex.
    + destruct (drop_while_split is_separator t) as (l & Hl & Hp).
      set (rest := drop_while is_separator t) in *.
      assert (El : length (x :: t) - length rest = S (length l)).
      { rewrite Hl. cbn [length]. rewrite length_app. lia. }
      rewrite El. rewrite Hl at 1. rewrite split_loop_skip.
      replace (x :: t) with ((x :: l) ++ rest) by (simpl; congruence).
      rewrite runs_drop; [|simpl; rewrite Ex; assumption | discriminate].
      cbn [filter_map]. fold re_separators.
      rewrite (IH rest []) by (rewrite Hl, length_app in Hn; lia).
      rewrite filter_map_app.
      destruct cur as [|y cur]; simpl; [rewrite Hf; reflexivity|].
      destruct (f (rev cur ++ [y])); reflexivity.
    + fold re_separators. rewrite IH by lia. simpl. rewrite Ex. reflexivity.
Qed.

Lemma split_runs {B} (f : jsstring -> option B) s :
  f [] = None ->
  filter_map f (split re_separators s) = filter_map f (runs [] s).
Proof.
  intros Hf. destruct s as [|x t].
  - simpl. rewrite Hf. reflexivity.
  - unfold split. apply split_loop_runs with (n := length (x :: t)); auto.
Qed.

Lemma runs_join cur sep y : is_separator sep = true ->
  forall x, runs cur (x ++ sep :: y) = runs cur x ++ runs [] y.
Proof.
  intros Hs x. revert cur. induction x as [|c x IH]; intros cur.
  - simpl. rewrite Hs. destruct cur; reflexivity.
  - simpl. destruct (is_separator c).
    + destruct cur; simpl; rewrite IH; reflexivity.
    + apply IH.
Qed.

Lemma segment_identity_nil : segment_identity [] = None.
Proof. reflexivity. Qed.

(** The identities of [x;y], when both sides are clean already. *)
Lemma ids_join x y :
  filter_map segment_identity (split re_separators (x ++ ch ";" :: y))
  = filter_map segment_identity (split re_separators x)
    ++ filter_map segment_identity (split re_separators y).
Proof.
  rewrite !split_runs by apply segment_identity_nil.
  rewrite runs_join by reflexivity. apply filter_map_app.
Qed.

(** The extraction from [a;b] when the removal of heredocs, string literals
    and redirections works on the two sides apart. *)
Lemma extract_join a b :
  clean (a ++ ch ";" :: b) = clean a ++ ch ";" :: clean b ->
  extractExecutables (a ++ ch ";" :: b)
  = Ret (dedup (dedup (segment_ids a) ++ dedup (segment_ids b))).
Proof.
  intros H. rewrite extractExecutables_spec, dedup_app_dedup.
  unfold segment_ids, segments_of. rewrite H, ids_join. reflexivity.
Qed.

(** ** Heredocs *)

(** A match of a local expression is a match of the string it reads,
    whatever follows. *)
Lemma matches_local n0 r s s' :
  matches n0 r s s' -> local r = true ->
  exists w, s = w ++ s' /\ forall n1 z, matches n1 r (w ++ z) z.
Proof.
  induction 1; intros Hl; simpl in Hl; try discriminate.
  - exists []. split; [reflexivity | intros; constructor].
  - exists [x]. split; [reflexivity | intros; constructor].
  - exists [x]. split; [reflexivity | intros; constructor; assumption].
  - apply andb_prop in Hl. destruct Hl as [Hl1 Hl2].
    destruct (IHmatches1 Hl1) as (w1 & E1 & K1).
    destruct (IHmatches2 Hl2) as (w2 & E2 & K2).
    exists (w1 ++ w2). split; [rewrite <- app_assoc; congruence|].
    intros n1 z. rewrite <- app_assoc. econstructor; [apply K1 | apply K2].
  - apply andb_prop in Hl. destruct Hl as [Hl1 Hl2].
    destruct (IHmatches Hl1) as (w & E & K).
    exists w. split; [assumption | intros; apply M_AltL; apply K].
  - apply andb_prop in Hl. destruct Hl as [Hl1 Hl2].
    destruct (IHmatches Hl2) as (w & E & K).
    exists w. split; [assumption | intros; apply M_AltR; apply K].
  - exists []. split; [reflexivity | intros; constructor].
  - destruct (IHmatches1 Hl) as (w1 & E1 & K1).
    destruct (IHmatches2 Hl) as (w2 & E2 & K2).
    exists (w1 ++ w2). split; [rewrite <- app_assoc; congruence|].
    intros n1 z. rewrite <- app_assoc.
    eapply M_StarS; [apply K1 | | apply K2].
    subst s s1. rewrite !length_app in *. lia.
  - destruct (IHmatches Hl) as (w & E & K).
    exists w. split; [assumption | intros; constructor; apply K].
Qed.

Lemma gap_char_not_lt g :
  forallb gap_char g = true -> mem_char c_lt g = false.
Proof.
  induction g as [|x g IH]; simpl; [reflexivity|].
  intros H. apply andb_prop in H. destruct H as [Hx Hg].
  destruct (N.eqb x c_lt) eqn:E; [|auto].
  apply N.eqb_eq in E. subst x. discriminate.
Qed.

Lemma word_not_lt w :
  forallb is_word w = true -> mem_char c_lt w = false.
Proof.
  induction w as [|x w IH]; simpl; [reflexivity|].
  intros H. apply andb_prop in H. destruct H as [Hx Hw].
  destruct (N.eqb x c_lt) eqn:E; [|auto].
  apply N.eqb_eq in E. subst x. discriminate.
Qed.

(** What [heredoc_open r] reads before [r]. *)
Lemma matches_heredoc_open n0 r s s' :
  matches n0 (heredoc_open r) s s' ->
  exists g s4, s = c_lt :: c_lt :: g ++ s4 /\ forallb gap_char g = true /\
               matches n0 r s4 s'.
Proof.
  unfold heredoc_open. intros H.
  apply inv_seq in H. destruct H as (s1 & H1 & H).
  apply inv_lit in H1. subst s.
  apply inv_seq in H. destruct H as (s2 & H2 & H).
  apply inv_lit in H2. subst s1.
  apply inv_seq in H. destruct H as (s3 & H3 & H).
  apply matches_star_cls in H3. destruct H3 as (ws & -> & Hws).
  apply inv_seq in H. destruct H as (s4 & H4 & H).
  assert (Hgap : forallb gap_char ws = true).
  { clear - Hws. induction ws as [|x ws IH]; simpl in *; [reflexivity|].
    apply andb_prop in Hws. destruct Hws as [Hx Hws].
    unfold gap_char at 1. rewrite Hx. simpl. auto. }
  apply inv_alt in H4. destruct H4 as [H4|H4].
  - apply inv_cls in H4. destruct H4 as (qc & -> & Hq).
    exists (ws ++ [qc]), s4. split; [rewrite <- app_assoc; reflexivity|].
    split; [|assumption]. rewrite forallb_app, Hgap. simpl.
    unfold gap_char. rewrite Hq, orb_true_r. reflexivity.
  - apply inv_empty in H4. subst s4.
    exists ws, s3. auto.
Qed.


Lemma matches_heredoc_open_fst n0 r1 r2 s s' :
  matches n0 (heredoc_open (Seq r1 r2)) s s' ->
  exists s1, matches n0 (heredoc_open r1) s s1.
Proof.
  unfold heredoc_open. intros H.
  apply inv_seq in H. destruct H as (t1 & H1 & H).
  apply inv_seq in H. destruct H as (t2 & H2 & H).
  apply inv_seq in H. destruct H as (t3 & H3 & H).
  apply inv_seq in H. destruct H as (t4 & H4 & H).
  apply inv_seq in H. destruct H as (t5 & H5 & H).
  exists t5. repeat (eapply M_Seq; [eassumption|]). assumption.
Qed.

(** The string a heredoc start reads: [<<], then no [<]. *)
Lemma starts_heredoc_shape s :
  starts_heredoc s = true ->
  exists mid rest, s = c_lt :: c_lt :: mid ++ rest /\ mid <> [] /\
    mem_char c_lt mid = false /\
    forall n1 z, matches n1 re_heredoc_start (c_lt :: c_lt :: mid ++ z) z.
Proof.
  unfold starts_heredoc.
  destruct (match_at (length s) re_heredoc_start s) as [s'|] eqn:E; [|discriminate].
  intros _. apply match_at_sound in E.
  destruct (matches_local _ _ _ _ E eq_refl) as (w & Ew & K).
  apply matches_heredoc_open in E. destruct E as (g & s4 & Es & Hg & Hw).
  apply matches_plus_cls in Hw. destruct Hw as (wd & -> & Hwd & Hne).
  assert (w = c_lt :: c_lt :: g ++ wd).
  { apply (app_inv_tail s'). rewrite <- Ew, Es. simpl.
    rewrite <- !app_assoc. reflexivity. }
  subst w. exists (g ++ wd), s'. split; [rewrite <- app_assoc; assumption|].
  split; [destruct g; [assumption | discriminate]|].
  split.
  - rewrite mem_char_app, (gap_char_not_lt g Hg), (word_not_lt wd Hwd). reflexivity.
  - intros n1 z. apply (K n1 z).
Qed.

Lemma starts_heredoc_intro n0 s s' :
  matches n0 re_heredoc_start s s' -> starts_heredoc s = true.
Proof.
  intros H. destruct (matches_local _ _ _ _ H eq_refl) as (w & Ew & K).
  unfold starts_heredoc. subst s.
  destruct (match_at_complete _ _ _ _ (K (length (w ++ s')) s') eq_refl) as [s'' E].
  rewrite E. reflexivity.
Qed.

(** Both heredoc expressions match at a heredoc start only. *)
Lemma heredoc_match_start n0 s s' :
  match_at n0 re_heredoc s = Some s' -> starts_heredoc s = true.
Proof.
  intros H. apply match_at_sound in H. unfold re_heredoc in H.
  apply matches_heredoc_open_fst in H. destruct H as (s1 & H).
  unfold heredoc_open in H.
  apply inv_seq in H. destruct H as (t1 & H1 & H).
  apply inv_seq in H. destruct H as (t2 & H2 & H).
  apply inv_seq in H. destruct H as (t3 & H3 & H).
  apply inv_seq in H. destruct H as (t4 & H4 & H).
  apply inv_group in H.
  apply (starts_heredoc_intro n0 s s1). unfold re_heredoc_start, heredoc_open.
  repeat (eapply M_Seq; [eassumption|]). assumption.
Qed.

Lemma heredoc_open_ended_match_start n0 s s' :
  match_at n0 re_heredoc_open_ended s = Some s' -> starts_heredoc s = true.
Proof.
  intros H. apply match_at_sound in H. unfold re_heredoc_open_ended in H.
  apply matches_heredoc_open_fst in H. destruct H as (s1 & H).
  apply (starts_heredoc_intro n0 s s1). assumption.
Qed.


Lemma starts_heredoc_ltlt s :
  starts_heredoc s = true ->
  exists x t, s = c_lt :: c_lt :: x :: t /\ N.eqb x c_lt = false.
Proof.
  intros H. destruct (starts_heredoc_shape s H) as (mid & rest & -> & Hne & Hlt & _).
  destruct mid as [|x mid]; [congruence|].
  exists x, (mid ++ rest). split; [reflexivity|].
  simpl in Hlt. destruct (N.eqb x c_lt); [discriminate | reflexivity].
Qed.

Lemma mem_char_head x t : mem_char x (x :: t) = true.
Proof. simpl. rewrite N.eqb_refl. reflexivity. Qed.



Lemma replace_loop_none_all n0 r repl s :
  (forall u v, s = u ++ v -> match_at n0 r v = None) ->
  replace_loop n0 r repl 0 s = s.
Proof.
  intros H. pose proof (replace_loop_keep n0 r repl s []) as K.
  rewrite !app_nil_r in K. rewrite K.
  - rewrite replace_loop_0_none; [apply app_nil_r|].
    apply (H s []). symmetry. apply app_nil_r.
  - intros u v E _. rewrite app_nil_r. apply (H u v E).
Qed.


(** Without a heredoc start the heredoc stripping changes nothing. *)
Lemma strip_heredocs_none s :
  (forall u v, s = u ++ v -> starts_heredoc v = false) ->
  strip_heredocs s = s.
Proof.
  intros H. unfold strip_heredocs, replace_all.
  assert (E : replace_loop (length s) re_heredoc [] 0 s = s).
  { apply replace_loop_none_all. intros u v Euv.
    destruct (match_at (length s) re_heredoc v) as [s'|] eqn:Em; [|reflexivity].
    apply heredoc_match_start in Em. rewrite (H u v Euv) in Em. discriminate. }
  rewrite E. apply replace_loop_none_all. intros u v Euv.
  destruct (match_at (length s) re_heredoc_open_ended v) as [s'|] eqn:Em;
    [|reflexivity].
  apply heredoc_open_ended_match_start in Em. rewrite (H u v Euv) in Em.
  discriminate.
Qed.





(** ** Strings that the removals leave alone *)

Lemma free_of_app l a b :
  free_of l (a ++ b) = (free_of l a && free_of l b)%bool.
Proof.
  unfold free_of. induction l as [|c l IH]; simpl; [reflexivity|].
  rewrite IH, mem_char_app. destruct (mem_char c a), (mem_char c b); simpl;
    try reflexivity; rewrite ?andb_false_r; reflexivity.
Qed.

Lemma free_of_In l s c : free_of l s = true -> In c l -> mem_char c s = false.
Proof.
  unfold free_of. rewrite forallb_forall. intros H Hc.
  apply negb_true_iff. apply H. assumption.
Qed.

Lemma strip_heredocs_no_lt s : mem_char c_lt s = false -> strip_heredocs s = s.
Proof.
  intros H. unfold strip_heredocs.
  rewrite (replace_all_needs c_lt re_heredoc [] s eq_refl H).
  apply (replace_all_needs c_lt re_heredoc_open_ended [] s eq_refl H).
Qed.

Lemma strip_redirections_no_gt s :
  mem_char c_gt s = false -> strip_redirections s = s.
Proof.
  intros H. unfold strip_redirections.
  rewrite (replace_all_needs c_gt re_fd_dup [] s eq_refl H).
  rewrite (replace_all_needs c_gt re_fd_append [] s eq_refl H).
  apply (replace_all_needs c_gt re_fd_write [] s eq_refl H).
Qed.

Lemma strip_literals_unquoted s : free_of quotes s = true -> strip_literals s = s.
Proof.
  intros H. rewrite strip_literals_spec.
  rewrite (neutralized_absent dquote s)
    by (apply (free_of_In quotes); [assumption | simpl; auto]).
  rewrite (neutralized_absent squote s)
    by (apply (free_of_In quotes); [assumption | simpl; auto]).
  apply neutralized_absent.
  apply (free_of_In quotes); [assumption | simpl; auto].
Qed.

Lemma plain_parts s :
  plain s = true ->
  mem_char c_lt s = false /\ mem_char c_gt s = false /\ free_of quotes s = true.
Proof.
  unfold plain. intros H. split; [|split].
  - apply (free_of_In _ _ _ H). simpl; auto.
  - apply (free_of_In _ _ _ H). simpl; auto.
  - unfold free_of in *. simpl in *.
    apply andb_prop in H. destruct H as [_ H].
    apply andb_prop in H. destruct H as [_ H]. assumption.
Qed.

Lemma clean_plain s : plain s = true -> clean s = s.
Proof.
  intros H. destruct (plain_parts s H) as (H1 & H2 & H3). unfold clean.
  rewrite strip_heredocs_no_lt, strip_literals_unquoted, strip_redirections_no_gt;
    auto.
Qed.

Lemma plain_join a b :
  plain a = true -> plain b = true -> plain (a ++ ch ";" :: b) = true.
Proof.
  intros Ha Hb. unfold plain in *.
  change (a ++ ch ";" :: b) with (a ++ [ch ";"] ++ b).
  rewrite !free_of_app, Ha, Hb. reflexivity.
Qed.

(** For plain commands the removals work on the two sides of [;] apart. *)
Lemma clean_join_plain a b :
  plain a = true -> plain b = true ->
  clean (a ++ ch ";" :: b) = clean a ++ ch ";" :: clean b.
Proof.
  intros Ha Hb. rewrite !clean_plain; auto using plain_join.
Qed.

(** ** String literals in the whole removal *)

Lemma neutralized_other_span p q pre body post :
  N.eqb q p = false -> mem_char p pre = false -> mem_char p body = false ->
  neutralized p false (pre ++ q :: body ++ q :: post)
  = pre ++ q :: body ++ q :: neutralized p false post.
Proof.
  intros Hq Hpre Hbody.
  replace (pre ++ q :: body ++ q :: post) with ((pre ++ q :: body ++ [q]) ++ post)
    by (rewrite <- !app_assoc; simpl; rewrite <- app_assoc; reflexivity).
  rewrite neutralized_keep.
  - rewrite <- !app_assoc. simpl. rewrite <- app_assoc. reflexivity.
  - rewrite !mem_char_app. simpl. rewrite mem_char_app. simpl.
    rewrite Hpre, Hbody, Hq. reflexivity.
Qed.

Lemma neutralized_same_span q pre body post :
  mem_char q pre = false -> mem_char q body = false ->
  neutralized q false (pre ++ q :: body ++ q :: post)
  = pre ++ q :: q :: neutralized q false post.
Proof.
  intros Hpre Hbody. rewrite neutralized_keep by assumption.
  rewrite neutralized_span by assumption. reflexivity.
Qed.

Lemma open_after_mem q t : open_after q true t = false -> mem_char q t = true.
Proof.
  induction t as [|x t IH]; simpl; [discriminate|].
  destruct (N.eqb x q); [reflexivity | assumption].
Qed.

(** After a balanced prefix a pass starts afresh. *)
Lemma neutralized_balanced q pre rest : forall b,
  open_after q b pre = false ->
  neutralized q b (pre ++ rest) = neutralized q b pre ++ neutralized q false rest.
Proof.
  induction pre as [|x pre IH]; intros b H.
  - simpl in H. subst b. reflexivity.
  - cbn [open_after] in H. cbn [app neutralized].
    destruct (N.eqb x q) eqn:E.
    + destruct b; cbn [negb] in H.
      * rewrite (IH false H). reflexivity.
      * pose proof (open_after_mem q pre H) as Hm.
        rewrite mem_char_app, Hm. cbn [orb].
        rewrite (IH true H). reflexivity.
    + destruct b.
      * apply IH. assumption.
      * rewrite (IH false H). reflexivity.
Qed.

Lemma neutralized_balanced_same q pre body post :
  balanced q pre = true -> mem_char q body = false ->
  neutralized q false (pre ++ q :: body ++ q :: post)
  = neutralized q false pre ++ q :: q :: neutralized q false post.
Proof.
  unfold balanced. intros Hb Hbody. apply negb_true_iff in Hb.
  rewrite neutralized_balanced by assumption.
  rewrite neutralized_span by assumption. reflexivity.
Qed.

Lemma neutralized_balanced_other p q pre body post :
  balanced p pre = true -> N.eqb q p = false -> mem_char p body = false ->
  neutralized p false (pre ++ q :: body ++ q :: post)
  = neutralized p false pre ++ q :: body ++ q :: neutralized p false post.
Proof.
  unfold balanced. intros Hb Hq Hbody. apply negb_true_iff in Hb.
  rewrite neutralized_balanced by assumption.
  pose proof (neutralized_other_span p q [] body post Hq eq_refl Hbody) as E.
  cbn [app] in E. rewrite E. reflexivity.
Qed.

(** The contents of a quoted span play no part in what the removal of the
    string literals leaves, when the input before the span is balanced for
    the pass of its quote and for the passes before it, and no quote of
    these passes is in the span. *)
Lemma strip_literals_span q pre body post :
  In q quotes ->
  balanced_upto q pre = true -> free_of (quotes_upto q) body = true ->
  strip_literals (pre ++ q :: body ++ q :: post)
  = strip_literals (pre ++ q :: q :: post).
Proof.
  intros Hq Hpre Hbody.
  assert (G : forall b, free_of (quotes_upto q) b = true ->
     strip_literals (pre ++ q :: b ++ q :: post)
     = match quotes_upto q with
       | [_] =>
           neutralized bquote false (neutralized squote false
             (neutralized dquote false pre
                ++ q :: q :: neutralized dquote false post))
       | [_; _] =>
           neutralized bquote false
             (neutralized squote false (neutralized dquote false pre)
                ++ q :: q :: neutralized squote false
                                 (neutralized dquote false post))
       | _ =>
           neutralized bquote false
             (neutralized squote false (neutralized dquote false pre))
           ++ q :: q :: neutralized bquote false
                (neutralized squote false (neutralized dquote false post))
       end).
  { intros b Hb. rewrite strip_literals_spec.
    simpl in Hq. destruct Hq as [<-|[<-|[<-|[]]]];
      [ change (quotes_upto dquote) with [dquote] in *;
        change (balanced_upto dquote pre) with (balanced dquote pre) in *
      | change (quotes_upto squote) with [dquote; squote] in *;
        change (balanced_upto squote pre) with
          (balanced dquote pre
           && balanced squote (neutralized dquote false pre))%bool in *
      | change (quotes_upto bquote) with [dquote; squote; bquote] in *;
        change (balanced_upto bquote pre) with
          (balanced dquote pre
           && balanced squote (neutralized dquote false pre)
           && balanced bquote
                (neutralized squote false (neutralized dquote false pre)))%bool
          in * ];
      unfold free_of in Hb; cbn [forallb] in Hb;
      repeat match goal with
      | H : (_ && _)%bool = true |- _ => apply andb_prop in H; destruct H
      | H : negb (mem_char _ _) = true |- _ => apply negb_true_iff in H
      end.
    - rewrite neutralized_balanced_same by assumption. reflexivity.
    - rewrite (neutralized_balanced_other dquote squote)
        by (assumption || reflexivity).
      rewrite neutralized_balanced_same by assumption. reflexivity.
    - rewrite (neutralized_balanced_other dquote bquote)
        by (assumption || reflexivity).
      rewrite (neutralized_balanced_other squote bquote)
        by (assumption || reflexivity).
      rewrite neutralized_balanced_same by assumption. reflexivity. }
  rewrite (G body Hbody).
  change (pre ++ q :: q :: post) with (pre ++ q :: [] ++ q :: post).
  rewrite (G []); [reflexivity|].
  unfold free_of. clear. induction (quotes_upto q); simpl; auto.
Qed.

(** Without [<<] there is no heredoc. *)
Lemma has_ltlt_cons2 x y t :
  has_ltlt (x :: y :: t) = ((N.eqb x c_lt && N.eqb y c_lt) || has_ltlt (y :: t))%bool.
Proof. reflexivity. Qed.

Lemma has_ltlt_app_ltlt u t : has_ltlt (u ++ c_lt :: c_lt :: t) = true.
Proof.
  induction u as [|x u IH].
  - reflexivity.
  - destruct u as [|y u].
    + cbn [app]. rewrite has_ltlt_cons2. cbn [app] in IH. rewrite IH.
      apply orb_true_r.
    + cbn [app] in *. rewrite has_ltlt_cons2, IH. apply orb_true_r.
Qed.

Lemma strip_heredocs_no_ltlt s : has_ltlt s = false -> strip_heredocs s = s.
Proof.
  intros H. apply strip_heredocs_none. intros u v E.
  destruct (starts_heredoc v) eqn:Hs; [|reflexivity].
  apply starts_heredoc_ltlt in Hs. destruct Hs as (x & t & -> & _).
  subst s. rewrite has_ltlt_app_ltlt in H. discriminate.
Qed.

Lemma has_ltlt_sep q a b :
  N.eqb q c_lt = false ->
  has_ltlt (a ++ q :: b) = (has_ltlt a || has_ltlt b)%bool.
Proof.
  intros Hq.
  assert (Hqb : has_ltlt (q :: b) = has_ltlt b).
  { destruct b as [|y b]; [reflexivity|]. rewrite has_ltlt_cons2, Hq. reflexivity. }
  induction a as [|x a IH]; [exact Hqb|].
  destruct a as [|y a].
  - change ([x] ++ q :: b) with (x :: q :: b).
    rewrite has_ltlt_cons2, Hqb, Hq, andb_false_r. reflexivity.
  - change ((x :: y :: a) ++ q :: b) with (x :: y :: (a ++ q :: b)).
    change ((y :: a) ++ q :: b) with (y :: (a ++ q :: b)) in IH.
    rewrite !has_ltlt_cons2, IH. apply orb_assoc.
Qed.

(** After the last quote [q] of the input, a pass leaves all in place. *)
Lemma neutralized_after_last q pre : forall b,
  exists kept, forall rest, mem_char q rest = false ->
    neutralized q b (pre ++ q :: rest) = kept ++ q :: rest.
Proof.
  induction pre as [|x pre IH]; intros b.
  - exists []. intros rest Hr. cbn [app neutralized]. rewrite N.eqb_refl, Hr.
    destruct b; [|reflexivity]. rewrite neutralized_absent by assumption.
    reflexivity.
  - destruct (N.eqb x q) eqn:E.
    + apply N.eqb_eq in E. subst x. destruct b.
      * destruct (IH false) as [kept K]. exists (q :: kept). intros rest Hr.
        cbn [app neutralized]. rewrite N.eqb_refl. rewrite (K rest Hr). reflexivity.
      * destruct (IH true) as [kept K]. exists (q :: kept). intros rest Hr.
        cbn [app neutralized]. rewrite N.eqb_refl.
        rewrite mem_char_app, mem_char_head, orb_true_r.
        rewrite (K rest Hr). reflexivity.
    + destruct b.
      * destruct (IH true) as [kept K]. exists kept. intros rest Hr.
        cbn [app neutralized]. rewrite E. apply (K rest Hr).
      * destruct (IH false) as [kept K]. exists (x :: kept). intros rest Hr.
        cbn [app neutralized]. rewrite E. rewrite (K rest Hr). reflexivity.
Qed.

Lemma quotes_not_lt_gt q : In q quotes -> N.eqb q c_lt = false /\ N.eqb q c_gt = false.
Proof. simpl. intros [<-|[<-|[<-|[]]]]; split; reflexivity. Qed.

(** One quote without a partner, in an input that is plain otherwise, is
    left in place with all that is around it. *)
Lemma clean_one_quote q pre rest :
  In q quotes -> plain pre = true -> plain rest = true ->
  clean (pre ++ q :: rest) = pre ++ q :: rest.
Proof.
  intros Hq Hpre Hrest.
  destruct (plain_parts pre Hpre) as (P1 & P2 & P3).
  destruct (plain_parts rest Hrest) as (R1 & R2 & R3).
  destruct (quotes_not_lt_gt q Hq) as [Q1 Q2].
  unfold clean.
  rewrite strip_heredocs_no_lt
    by (rewrite mem_char_app; simpl; rewrite P1, R1, Q1; reflexivity).
  assert (L : strip_literals (pre ++ q :: rest) = pre ++ q :: rest).
  { rewrite strip_literals_spec.
    assert (Same : neutralized q false (pre ++ q :: rest) = pre ++ q :: rest).
    { rewrite neutralized_keep, neutralized_unmatched; [reflexivity | |];
        apply (free_of_In quotes); assumption. }
    assert (Other : forall p, In p quotes -> N.eqb q p = false ->
              neutralized p false (pre ++ q :: rest) = pre ++ q :: rest).
    { intros p Hp Hqp. apply neutralized_absent.
      rewrite mem_char_app. simpl. rewrite Hqp.
      rewrite (free_of_In quotes pre p P3 Hp), (free_of_In quotes rest p R3 Hp).
      reflexivity. }
    simpl in Hq. destruct Hq as [<-|[<-|[<-|[]]]].
    - rewrite Same. rewrite (Other squote), (Other bquote);
        (reflexivity || (simpl; auto)).
    - rewrite (Other dquote) by (reflexivity || (simpl; auto)).
      rewrite Same. apply Other; (reflexivity || (simpl; auto)).
    - rewrite (Other dquote) by (reflexivity || (simpl; auto)).
      rewrite (Other squote) by (reflexivity || (simpl; auto)).
      apply Same. }
  rewrite L. apply strip_redirections_no_gt.
  rewrite mem_char_app. simpl. rewrite P2, R2, Q2. reflexivity.
Qed.

Lemma fst_parts_found parts :
  fst (parts_found parts)
  = find name_ok (map basename (filter (fun p => negb (skipped p)) parts)).
Proof.
  induction parts as [|part rest IH]; [reflexivity|].
  rewrite parts_found_cons. cbn [filter].
  destruct (skipped part); cbn [negb]; [assumption|].
  cbn [map find]. destruct (name_ok (basename part)); [reflexivity | assumption].
Qed.

Lemma parts_found_passed pre : forall part post,
  Forall (fun p => skipped p = true \/ name_ok (basename p) = false) pre ->
  parts_found (pre ++ part :: post) = parts_found (part :: post).
Proof.
  induction pre as [|x pre IH]; intros part post H; [reflexivity|].
  inversion H as [|? ? Hx Hrest]; subst.
  rewrite <- app_comm_cons, parts_found_cons.
  destruct (skipped x) eqn:Es; [apply IH; assumption|].
  destruct Hx as [Hx|Hx]; [discriminate|]. rewrite Hx. apply IH. assumption.
Qed.

(** ** Examples

    The string methods on inputs whose results in JavaScript are known, and
    the examples of the specification that no claim takes up. *)

(** ['baaac'.replace(/a*/g, 'x')] is ['xbxxcx']. *)
Example replace_all_empty_matches :
  replace_all (Star true (Lit (ch "a"))) (js "x") (js "baaac") = js "xbxxcx".
Proof. vm_compute. reflexivity. Qed.

(** [';a;'.split(/[;&|\n]+/)] is [['', 'a', '']], and ['a;b;;c'] gives
    [['a', 'b', 'c']]. *)
Example split_separators :
  split re_separators (js ";a;") = [[]; js "a"; []] /\
  split re_separators (js "a;b;;c") = [js "a"; js "b"; js "c"].
Proof. split; vm_compute; reflexivity. Qed.

(** ['abc'.split(/(?:)/)] is [['a', 'b', 'c']]; the empty string splits into
    [[]] by an expression that matches it and into [['']] by one that does
    not. *)
Example split_empty :
  split Empty (js "abc") = [js "a"; js "b"; js "c"] /\
  split Empty [] = [] /\
  split re_separators [] = [[]].
Proof. repeat split; vm_compute; reflexivity. Qed.

(** [/(a+)b\1/] on ['aabaac'] reads ['aabaa'], and [/[\s\S]*?b/] on
    ['aabab'] reads ['aab']. *)
Example match_at_backref_lazy :
  match_at 0 (Seq (Group (Plus (Lit (ch "a")))) (Seq (Lit (ch "b")) Backref))
    (js "aabaac") = Some (js "c") /\
  match_at 0 (Seq (Star false (Cls any_char)) (Lit (ch "b"))) (js "aabab")
    = Some (js "ab").
Proof. split; vm_compute; reflexivity. Qed.

(** The path prefix goes up to the last [/]. *)
Example basename_path : basename (js "/usr/local/bin/node") = js "node".
Proof. vm_compute. reflexivity. Qed.

Example strip_redirections_forms :
  strip_redirections (js "cmd 2>&1 | tee /tmp/out.log 2>/dev/null 3>>x y")
  = js "cmd  | tee /tmp/out.log   y".
Proof. vm_compute. reflexivity. Qed.

Example extract_ls : extractExecutables (js "ls -la /tmp") = Ret [js "ls"].
Proof. vm_compute. reflexivity. Qed.

Example extract_pipe :
  extractExecutables (js "cmd 2>&1 | tee /tmp/out.log") = Ret [js "cmd"; js "tee"].
Proof. vm_compute. reflexivity. Qed.

(** In [git commit -m 'fix: handles <<EOF markers'] the open-ended heredoc
    expression takes the text from [<<EOF] on, closing quote included, and
    the single quote left is not removed. *)
Example clean_commit : clean cmd_commit = js "git commit -m 'fix: handles ".
Proof. vm_compute. reflexivity. Qed.

(** The marker that ends a heredoc may be a proper prefix of the marker
    word, the rest of the word being read as the start of the body: in
    [cat <<EOF\nEO\nrm x] the line [EO] ends the heredoc. *)
Example heredoc_marker_prefix :
  strip_heredocs (js "cat <<EOF" ++ nl :: js "EO" ++ nl :: js "rm x")
  = js "cat " ++ nl :: js "rm x".
Proof. vm_compute. reflexivity. Qed.

(** * Properties of the removals, the segments and the words *)

(** ** Where no removal can start *)

Lemma matches_no_read n0 x r s s' :
  matches n0 r s s' -> forall t, s = x :: t -> no_read x r = true -> s' = s.
Proof.
  induction 1; intros t0 E Hn; simpl in Hn; try reflexivity; try discriminate.
  - inversion E; subst. rewrite N.eqb_refl in Hn. discriminate.
  - inversion E; subst. rewrite H in Hn. discriminate.
  - apply andb_prop in Hn. destruct Hn as [H1 H2].
    pose proof (IHmatches1 t0 E H1) as E1. subst s1.
    apply (IHmatches2 t0 E H2).
  - apply andb_prop in Hn. destruct Hn as [H1 H2]. eauto.
  - apply andb_prop in Hn. destruct Hn as [H1 H2]. eauto.
  - pose proof (IHmatches1 t0 E Hn) as E1. subst s1. lia.
  - eauto.
Qed.

Lemma matches_no_match n0 x r s s' :
  matches n0 r s s' -> forall t, s = x :: t -> no_match x r = true -> False.
Proof.
  induction 1; intros t0 E Hn; simpl in Hn; try discriminate.
  - inversion E; subst. rewrite N.eqb_refl in Hn. discriminate.
  - inversion E; subst. rewrite H in Hn. discriminate.
  - apply orb_prop in Hn. destruct Hn as [H1|H1]; [eauto|].
    apply andb_prop in H1. destruct H1 as [H1 H2].
    pose proof (matches_no_read _ _ _ _ _ H t0 E H1) as E1. subst s1. eauto.
  - apply andb_prop in Hn. destruct Hn as [H1 H2]. eauto.
  - apply andb_prop in Hn. destruct Hn as [H1 H2]. eauto.
  - eauto.
  - eauto.
Qed.

Lemma match_at_no_match n0 x r t :
  no_match x r = true -> match_at n0 r (x :: t) = None.
Proof.
  intros Hn. destruct (match_at n0 r (x :: t)) as [s'|] eqn:E; [|reflexivity].
  apply match_at_sound in E. exfalso.
  apply (matches_no_match _ _ _ _ _ E t eq_refl Hn).
Qed.

(** Where no match can start the global replacement keeps the input and
    goes on as from the start. *)
Lemma replace_all_keep r repl pre b :
  no_bol r = true ->
  (forall u v n0, pre = u ++ v -> v <> [] -> match_at n0 r (v ++ b) = None) ->
  replace_all r repl (pre ++ b) = pre ++ replace_all r repl b.
Proof.
  intros Hb Hpre. unfold replace_all. rewrite replace_loop_keep.
  - f_equal. apply replace_loop_no_bol. assumption.
  - intros u v E Hv. apply (Hpre u); assumption.
Qed.

Lemma plain_cons x t :
  plain (x :: t) = true ->
  mem_char x (c_lt :: c_gt :: quotes) = false /\ plain t = true.
Proof.
  intros H. assert (Ht : plain t = true).
  { unfold plain, free_of in *. rewrite forallb_forall in *.
    intros c Hc. specialize (H c Hc). simpl in H.
    destruct (N.eqb x c); [discriminate | assumption]. }
  split; [|assumption].
  unfold plain, free_of in H. rewrite forallb_forall in H.
  unfold quotes. cbn [mem_char].
  assert (K : forall c, In c (c_lt :: c_gt :: quotes) -> N.eqb c x = false).
  { intros c Hc. specialize (H c Hc). simpl in H. rewrite N.eqb_sym.
    destruct (N.eqb x c); [discriminate | reflexivity]. }
  rewrite !K by (simpl; tauto). reflexivity.
Qed.

Lemma plain_suffix u v : plain (u ++ v) = true -> plain v = true.
Proof.
  induction u as [|x u IH]; [trivial|].
  rewrite <- app_comm_cons. intros H. apply plain_cons in H. tauto.
Qed.

Lemma no_digit_end_suffix u v :
  v <> [] -> no_digit_end (u ++ v) = true -> forallb is_digit v = false.
Proof.
  intros Hv. unfold no_digit_end. rewrite rev_app_distr.
  destruct (rev v) as [|x rv] eqn:E.
  - apply (f_equal (@rev N)) in E. rewrite rev_involutive in E. contradiction.
  - apply (f_equal (@rev N)) in E. rewrite rev_involutive in E. subst v.
    simpl. intros H. rewrite forallb_app. simpl.
    destruct (is_digit x); [discriminate|].
    apply andb_false_r.
Qed.

(** After digits that reach the end of a string with no [>], no [>] comes. *)
Lemma digits_then_gt v : forall w rest s1,
  v ++ rest = w ++ c_gt :: s1 -> forallb is_digit w = true ->
  mem_char c_gt v = false -> forallb is_digit v = false -> False.
Proof.
  induction v as [|x v IH]; intros w rest s1 E Hw Hgt Hd; [discriminate|].
  destruct w as [|y w]; simpl in E.
  - injection E as E1 E2. subst x. rewrite mem_char_head in Hgt. discriminate.
  - injection E as E1 E2. subst y. simpl in Hw, Hd, Hgt.
    apply andb_prop in Hw. destruct Hw as [Hx Hw]. rewrite Hx in Hd.
    destruct (N.eqb x c_gt); [discriminate|].
    apply (IH w rest s1 E2 Hw Hgt Hd).
Qed.

(** A match of a redirection expression reads digits, then [>]. *)
Lemma matches_fd_shape n0 r s s' :
  In r [re_fd_dup; re_fd_append; re_fd_write] ->
  matches n0 r s s' ->
  exists w s1, s = w ++ c_gt :: s1 /\ forallb is_digit w = true.
Proof.
  intros Hin H. simpl in Hin.
  destruct Hin as [<-|[<-|[<-|[]]]]; apply inv_seq in H;
    destruct H as (s1 & H1 & H2); apply inv_seq in H2;
    destruct H2 as (s2 & H2 & _); apply inv_lit in H2; subst s1.
  - apply matches_star_cls in H1. destruct H1 as (w & E & Hw).
    exists w, s2. split; assumption.
  - apply matches_plus_cls in H1. destruct H1 as (w & E & Hw & _).
    exists w, s2. split; assumption.
  - apply matches_plus_cls in H1. destruct H1 as (w & E & Hw & _).
    exists w, s2. split; assumption.
Qed.

(** No removal has a match that starts in a string without [<], [>] and
    quotes that ends in no digit, whatever follows the string. *)
Lemma no_match_in_plain r v rest n0 :
  In r [re_heredoc; re_heredoc_open_ended; re_quoted dquote; re_quoted squote;
        re_quoted bquote; re_fd_dup; re_fd_append; re_fd_write] ->
  v <> [] -> plain v = true -> forallb is_digit v = false ->
  match_at n0 r (v ++ rest) = None.
Proof.
  intros Hin Hv Hp Hd.
  assert (Hfd : In r [re_fd_dup; re_fd_append; re_fd_write] ->
                match_at n0 r (v ++ rest) = None).
  { intros Hr. destruct (match_at n0 r (v ++ rest)) as [s'|] eqn:E; [|reflexivity].
    apply match_at_sound in E.
    destruct (matches_fd_shape _ _ _ _ Hr E) as (w & s1 & Es & Hw).
    exfalso. apply (digits_then_gt v w rest s1 Es Hw); [|assumption].
    apply plain_parts in Hp. tauto. }
  destruct v as [|x v]; [contradiction|].
  apply plain_cons in Hp. destruct Hp as [Hx _].
  unfold quotes in Hx. cbn [mem_char] in Hx.
  destruct (N.eqb c_lt x) eqn:E1; [discriminate|].
  destruct (N.eqb c_gt x) eqn:E2; [discriminate|].
  destruct (N.eqb dquote x) eqn:E3; [discriminate|].
  destruct (N.eqb squote x) eqn:E4; [discriminate|].
  destruct (N.eqb bquote x) eqn:E5; [discriminate|].
  simpl in Hin.
  destruct Hin as [<-|[<-|[<-|[<-|[<-|Hin]]]]];
    [| | | | |apply Hfd; simpl; tauto];
    rewrite <- app_comm_cons; apply match_at_no_match;
    cbn [no_match no_read re_heredoc re_heredoc_open_ended heredoc_open
         re_quoted Plus Opt];
    change (ch "<") with c_lt; rewrite ?E1, ?E3, ?E4, ?E5; reflexivity.
Qed.

(** Such a prefix goes through each removal as it is, and what follows it is
    cleaned as if it stood alone. *)
Lemma removal_keeps_plain_prefix r repl pre s :
  In r [re_heredoc; re_heredoc_open_ended; re_quoted dquote; re_quoted squote;
        re_quoted bquote; re_fd_dup; re_fd_append; re_fd_write] ->
  plain pre = true -> no_digit_end pre = true ->
  replace_all r repl (pre ++ s) = pre ++ replace_all r repl s.
Proof.
  intros Hin Hp Hd. apply replace_all_keep.
  - simpl in Hin.
    repeat (destruct Hin as [<-|Hin]; [reflexivity|]). contradiction.
  - intros u v n0 E Hv. subst pre. apply no_match_in_plain; try assumption.
    + apply (plain_suffix u). assumption.
    + apply (no_digit_end_suffix u); assumption.
Qed.

Lemma clean_plain_prefix pre b :
  plain pre = true -> no_digit_end pre = true ->
  clean (pre ++ b) = pre ++ clean b.
Proof.
  intros Hp Hd.
  unfold clean, strip_redirections, strip_literals, strip_heredocs.
  cbv zeta.
  repeat (rewrite (removal_keeps_plain_prefix _ _ pre) by (simpl; tauto || assumption)).
  reflexivity.
Qed.

(** ** Commands in a sequence *)

Lemma separator_plain sep :
  is_separator sep = true -> plain [sep] = true /\ is_digit sep = false.
Proof.
  unfold is_separator. cbn [mem_char].
  destruct (N.eqb (ch ";") sep) eqn:E1;
    [apply N.eqb_eq in E1; subst; intros _; split; reflexivity|].
  destruct (N.eqb (ch "&") sep) eqn:E2;
    [apply N.eqb_eq in E2; subst; intros _; split; reflexivity|].
  destruct (N.eqb (ch "|") sep) eqn:E3;
    [apply N.eqb_eq in E3; subst; intros _; split; reflexivity|].
  destruct (N.eqb 10 sep) eqn:E4;
    [apply N.eqb_eq in E4; subst; intros _; split; reflexivity|].
  discriminate.
Qed.

Lemma no_digit_end_snoc a x : is_digit x = false -> no_digit_end (a ++ [x]) = true.
Proof.
  intros H. unfold no_digit_end. rewrite rev_unit. rewrite H. reflexivity.
Qed.

(** The identities of [a sep b] for a separator [sep], when [a] has no [<],
    [>] or quote. *)
Lemma segment_ids_sequence a sep b :
  plain a = true -> is_separator sep = true ->
  segment_ids (a ++ sep :: b) = segment_ids a ++ segment_ids b.
Proof.
  intros Ha Hsep. destruct (separator_plain sep Hsep) as [Hp Hd].
  unfold segment_ids, segments_of.
  change (a ++ sep :: b) with (a ++ [sep] ++ b). rewrite app_assoc.
  rewrite clean_plain_prefix.
  - rewrite <- app_assoc. cbn [app]. rewrite (clean_plain a Ha).
    rewrite !split_runs by apply segment_identity_nil.
    rewrite runs_join by assumption. apply filter_map_app.
  - unfold plain. rewrite free_of_app. fold (plain a). fold (plain [sep]).
    rewrite Ha, Hp. reflexivity.
  - apply no_digit_end_snoc. assumption.
Qed.

Lemma trim_space_cons x s : is_space x = true -> trim (x :: s) = trim s.
Proof. intros H. unfold trim. simpl. rewrite H. reflexivity. Qed.

Lemma segment_identity_space_cons x s :
  is_space x = true -> segment_identity (x :: s) = segment_identity s.
Proof. intros H. unfold segment_identity. rewrite trim_space_cons by assumption. reflexivity. Qed.

Lemma segment_identity_space x : is_space x = true -> segment_identity [x] = None.
Proof. intros H. rewrite segment_identity_space_cons by assumption. apply segment_identity_nil. Qed.

(** White space at the start of a segment changes no identity. *)
Lemma runs_space_first x :
  is_space x = true ->
  forall s cur,
    filter_map segment_identity (runs (cur ++ [x]) s)
    = filter_map segment_identity (runs cur s).
Proof.
  intros Hx. induction s as [|y s IH]; intros cur.
  - destruct cur as [|z cur].
    + cbn [app runs rev filter_map].
      rewrite segment_identity_space by assumption. reflexivity.
    + cbn [app runs]. change (z :: cur ++ [x]) with ((z :: cur) ++ [x]).
      rewrite rev_unit. cbn [filter_map].
      rewrite segment_identity_space_cons by assumption. reflexivity.
  - cbn [runs]. destruct (is_separator y).
    + destruct cur as [|z cur].
      * cbn [app rev filter_map]. rewrite segment_identity_space by assumption.
        reflexivity.
      * cbn [app]. change (z :: cur ++ [x]) with ((z :: cur) ++ [x]).
        rewrite rev_unit. cbn [filter_map].
        rewrite segment_identity_space_cons by assumption. reflexivity.
    + rewrite app_comm_cons. apply IH.
Qed.

Lemma runs_blank_first ws s :
  forallb (fun c => (is_space c || is_separator c)%bool) ws = true ->
  filter_map segment_identity (runs [] (ws ++ s))
  = filter_map segment_identity (runs [] s).
Proof.
  induction ws as [|x ws IH]; [reflexivity|].
  cbn [forallb]. intros H. apply andb_prop in H. destruct H as [Hx Hws].
  cbn [app runs]. destruct (is_separator x) eqn:E; [auto|].
  rewrite orb_false_r in Hx.
  change (runs [x] (ws ++ s)) with (runs ([] ++ [x]) (ws ++ s)).
  rewrite (runs_space_first x Hx (ws ++ s) []). auto.
Qed.

Lemma blank_plain ws :
  forallb (fun c => (is_space c || is_separator c)%bool) ws = true ->
  plain ws = true /\ no_digit_end ws = true.
Proof.
  intros H.
  assert (K : forall x, In x ws ->
    mem_char x (c_lt :: c_gt :: quotes) = false /\ is_digit x = false).
  { rewrite forallb_forall in H. intros x Hx. specialize (H x Hx).
    destruct (is_separator x) eqn:E.
    - apply separator_plain in E. destruct E as [E1 E2]. split; [|assumption].
      apply plain_cons in E1. tauto.
    - rewrite orb_false_r in H. clear E. revert H.
      unfold is_space, is_digit, in_range, quotes. cbn [mem_char].
      unfold c_lt, c_gt, dquote, squote, bquote.
      rewrite !orb_true_iff, !andb_true_iff, !N.leb_le, !N.eqb_eq.
      intros H.
      assert (E : forall c, (33 <= c < 128)%N -> N.eqb c x = false).
      { intros c Hc. apply N.eqb_neq. lia. }
      rewrite !E by (vm_compute; split; [discriminate | reflexivity]).
      split; [reflexivity|].
      apply andb_false_iff. rewrite !N.leb_gt. lia. }
  split.
  - unfold plain, free_of. rewrite forallb_forall. intros c Hc.
    destruct (mem_char c ws) eqn:E; [|reflexivity].
    apply mem_char_split in E. destruct E as (u & v & E & _).
    destruct (K c) as [K1 _]; [subst ws; apply in_elt|].
    exfalso. clear - Hc K1. unfold quotes in *. simpl in Hc.
    cbn [mem_char] in K1.
    repeat (destruct Hc as [<-|Hc];
            [rewrite ?N.eqb_refl in K1;
             repeat match type of K1 with
                    | (if ?b then _ else _) = _ => destruct b
                    end; discriminate|]).
    contradiction.
  - unfold no_digit_end. destruct (rev ws) as [|x r] eqn:E; [reflexivity|].
    destruct (K x) as [_ K2]; [|rewrite K2; reflexivity].
    apply in_rev. rewrite E. left. reflexivity.
Qed.

(** A string with none of the separators is one segment. *)
Lemma runs_no_separator s : forall cur,
  forallb (fun c => negb (is_separator c)) s = true ->
  runs cur s = match rev cur ++ s with [] => [] | _ :: _ => [rev cur ++ s] end.
Proof.
  induction s as [|x s IH]; intros cur H.
  - cbn [runs]. rewrite app_nil_r. destruct cur as [|z cur]; [reflexivity|].
    destruct (rev (z :: cur)) eqn:E; [|reflexivity].
    apply (f_equal (@length N)) in E. rewrite length_rev in E. discriminate.
  - cbn [forallb] in H. apply andb_prop in H. destruct H as [Hx Hs].
    cbn [runs]. destruct (is_separator x); [discriminate|].
    rewrite IH by assumption. cbn [rev]. rewrite <- app_assoc. reflexivity.
Qed.

Lemma plain_intro s :
  (forall x, In x s -> mem_char x (c_lt :: c_gt :: quotes) = false) ->
  plain s = true.
Proof.
  induction s as [|x s IH]; intros H; [reflexivity|].
  assert (Hs : plain s = true) by (apply IH; intros; apply H; right; assumption).
  specialize (H x (or_introl eq_refl)).
  unfold plain, free_of in *. rewrite forallb_forall in *.
  intros c Hc. cbn [mem_char].
  destruct (N.eqb x c) eqn:E; [|apply (Hs c Hc)].
  apply N.eqb_eq in E. subst c. exfalso. clear - H Hc.
  unfold quotes in *. cbn [mem_char] in H. simpl in Hc.
  repeat (destruct Hc as [<-|Hc];
          [rewrite ?N.eqb_refl in H;
           repeat match type of H with
                  | (if ?b then _ else _) = _ => destruct b
                  end; discriminate|]).
  contradiction.
Qed.

Lemma upper_char x :
  is_upper x = true ->
  mem_char x (c_lt :: c_gt :: quotes) = false /\ is_separator x = false
  /\ is_space x = false /\ is_digit x = false.
Proof.
  unfold is_upper, in_range. rewrite andb_true_iff, !N.leb_le. intros H.
  assert (E : forall c, (c < 65 \/ 90 < c)%N -> N.eqb c x = false).
  { intros c Hc. apply N.eqb_neq. lia. }
  unfold quotes, is_separator, is_space, is_digit, in_range. cbn [mem_char].
  unfold c_lt, c_gt, dquote, squote, bquote.
  rewrite !E by (vm_compute; first [left; reflexivity | right; reflexivity]).
  repeat split.
  - rewrite !orb_false_iff, !andb_false_iff, !N.leb_gt, !N.eqb_neq. lia.
  - rewrite !andb_false_iff, !N.leb_gt. lia.
Qed.

Lemma forallb_impl_false (p q : char -> bool) s :
  (forall x, p x = true -> q x = false) ->
  forallb p s = true -> forallb (fun c => negb (q c)) s = true.
Proof.
  intros H. rewrite !forallb_forall. intros K x Hx. rewrite (H x); auto.
Qed.

Lemma drop_while_none p s :
  forallb (fun c => negb (p c)) s = true -> drop_while p s = s.
Proof.
  destruct s as [|x s]; [reflexivity|]. simpl.
  destruct (p x); [discriminate | reflexivity].
Qed.

Lemma trim_no_space s :
  forallb (fun c => negb (is_space c)) s = true -> trim s = s.
Proof.
  intros H. unfold trim. rewrite (drop_while_none _ s H).
  rewrite drop_while_none; [apply rev_involutive|].
  rewrite forallb_forall in *. intros x Hx. apply H. apply in_rev. assumption.
Qed.

(** A string of capital letters is taken for the marker of a heredoc: it
    contributes no identity. *)
Lemma segment_ids_upper w : forallb is_upper w = true -> segment_ids w = [].
Proof.
  intros H. destruct w as [|x w]; [reflexivity|].
  assert (Hp : plain (x :: w) = true).
  { apply plain_intro. rewrite forallb_forall in H.
    intros y Hy. apply upper_char. auto. }
  unfold segment_ids, segments_of. rewrite (clean_plain _ Hp).
  rewrite split_runs by apply segment_identity_nil.
  rewrite runs_no_separator
    by (apply (forallb_impl_false is_upper); [intros; apply upper_char|]; assumption).
  cbn [rev app filter_map]. unfold segment_identity.
  rewrite trim_no_space
    by (apply (forallb_impl_false is_upper); [intros; apply upper_char|]; assumption).
  replace (test re_marker_line (x :: w)) with true; [reflexivity|].
  symmetry. unfold re_marker_line. apply test_bol_intro with (s' := []).
  - eapply M_Seq; [|apply M_Eol].
    apply matches_plus_cls_all; [assumption | discriminate].
  - reflexivity.
Qed.

(** A subcommand is found for the six executables only. *)
Lemma parts_found_subcommand parts : forall e t,
  parts_found parts = (Some e, Some t) ->
  arr_includes SUBCOMMAND_EXECUTABLES e = true.
Proof.
  induction parts as [|part rest IH]; intros e t H; [discriminate|].
  rewrite parts_found_cons in H.
  destruct (skipped part); [eauto|].
  destruct (name_ok (basename part)); [|eauto].
  destruct (arr_includes SUBCOMMAND_EXECUTABLES (basename part)) eqn:E;
    [|discriminate].
  injection H as H1 H2. subst e. assumption.
Qed.

Lemma name_no_space e : forallb is_name e = true -> mem_char (ch " ") e = false.
Proof.
  induction e as [|x e IH]; [reflexivity|].
  cbn [forallb mem_char]. intros H. apply andb_prop in H. destruct H as [Hx He].
  destruct (N.eqb x (ch " ")) eqn:E; [|auto].
  apply N.eqb_eq in E. subst x. discriminate.
Qed.

(** ** The parts of a segment *)

Lemma rev_head_suffix (u v : list char) :
  v <> [] -> exists x r r', rev v = x :: r /\ rev (u ++ v) = x :: r'.
Proof.
  intros Hv. destruct (rev v) as [|x r] eqn:E.
  - apply (f_equal (@rev N)) in E. rewrite rev_involutive in E. contradiction.
  - exists x, r, (r ++ rev u). split; [reflexivity|].
    rewrite rev_app_distr, E. reflexivity.
Qed.

Lemma drop_while_head p s x t : drop_while p s = x :: t -> p x = false.
Proof.
  induction s as [|y s IH]; simpl; [discriminate|].
  destruct (p y) eqn:E; [assumption|].
  intros H. injection H as -> _. assumption.
Qed.

Lemma fields_skip l rest :
  forallb is_space l = true -> fields [] (l ++ rest) = fields [] rest.
Proof.
  induction l as [|x l IH]; [reflexivity|].
  cbn [forallb app fields]. intros H. apply andb_prop in H.
  destruct H as [Hx Hl]. rewrite Hx. auto.
Qed.

Lemma fields_blank l cur :
  forallb is_space l = true -> fields cur l = fields cur [].
Proof.
  intros H. destruct l as [|x l]; [reflexivity|].
  cbn [forallb] in H. apply andb_prop in H. destruct H as [Hx Hl].
  cbn [fields]. rewrite Hx.
  rewrite <- (app_nil_r l), (fields_skip l [] Hl).
  destruct cur; reflexivity.
Qed.

Lemma fields_trailing r : forallb is_space r = true ->
  forall s cur, fields cur (s ++ r) = fields cur s.
Proof.
  intros Hr. induction s as [|x s IH]; intros cur.
  - apply fields_blank. assumption.
  - cbn [app fields]. destruct (is_space x); [|apply IH].
    destruct cur; rewrite IH; reflexivity.
Qed.

(** What [trim] takes away: white space on both sides. *)
Lemma trim_split s :
  exists l r, s = l ++ trim s ++ r /\
    forallb is_space l = true /\ forallb is_space r = true.
Proof.
  destruct (drop_while_split is_space s) as (l & El & Hl).
  destruct (drop_while_split is_space (rev (drop_while is_space s)))
    as (l2 & E2 & H2).
  exists l, (rev l2). split; [|split; [assumption|]].
  - unfold trim. rewrite <- rev_app_distr, <- E2, rev_involutive. assumption.
  - rewrite forallb_forall in *. intros x Hx. apply H2. apply in_rev. assumption.
Qed.

Lemma trim_ends s x t :
  trim s = x :: t ->
  is_space x = false /\
  exists y r, rev (x :: t) = y :: r /\ is_space y = false.
Proof.
  intros E. split.
  - destruct (trim_split s) as (l & r & Es & Hl & Hr).
    destruct (drop_while_split is_space s) as (l' & El & Hl').
    unfold trim in E.
    destruct (drop_while_split is_space (rev (drop_while is_space s)))
      as (l2 & E2 & H2).
    apply (f_equal (@rev N)) in E2. rewrite rev_involutive, rev_app_distr in E2.
    rewrite E in E2. destruct (drop_while is_space s) as [|y u] eqn:Ed.
    + discriminate.
    + injection E2 as <- _. apply (drop_while_head _ _ _ _ Ed).
  - unfold trim in E.
    destruct (drop_while is_space (rev (drop_while is_space s))) as [|y r] eqn:Ed.
    + discriminate.
    + exists y, r. split.
      * rewrite <- E, rev_involutive. reflexivity.
      * apply (drop_while_head _ _ _ _ Ed).
Qed.

(** Splitting at white space a string that neither starts nor ends with
    white space gives its words. *)
Lemma split_loop_fields n0 : forall n s cur,
  length s <= n ->
  (s = [] \/ exists y r, rev s = y :: r /\ is_space y = false) ->
  (cur <> [] \/ exists x t, s = x :: t /\ is_space x = false) ->
  split_loop n0 re_spaces cur 0 s = fields cur s.
Proof.
  induction n as [|n IH]; intros s cur Hn Hend Hstart.
  - destruct s; [|simpl in Hn; lia].
    destruct Hstart as [Hc|(x & t & E & _)]; [|discriminate].
    destruct cur; [contradiction | reflexivity].
  - destruct s as [|x t].
    + destruct Hstart as [Hc|(x & t & E & _)]; [|discriminate].
      destruct cur; [contradiction | reflexivity].
    + destruct Hend as [E|(y & r & Er & Hy)]; [discriminate|].
      assert (Hsuf : forall u v, x :: t = u ++ v -> v <> [] ->
                exists y r, rev v = y :: r /\ is_space y = false).
      { intros u v E Hv. destruct (rev_head_suffix u v Hv) as (z & r1 & r2 & E1 & E2).
        rewrite <- E, Er in E2. injection E2 as <- _. eauto. }
      rewrite split_loop_0_cons. unfold re_spaces. rewrite match_at_plus_cls.
      cbn [fields]. destruct (is_space x) eqn:Ex.
      * destruct Hstart as [Hc|(x' & t' & E & Hx')];
          [|injection E as <- _; congruence].
        destruct (drop_while_split is_space t) as (l & El & Hl).
        remember (drop_while is_space t) as rest eqn:Erest.
        assert (Hrest : rest <> []).
        { intros E. rewrite E, app_nil_r in El. subst l.
          destruct (Hsuf [] (x :: t) eq_refl) as (z & r1 & E1 & Hz);
            [discriminate|].
          assert (Hin : In z (x :: t)) by (apply in_rev; rewrite E1; left; reflexivity).
          assert (Hall : forallb is_space (x :: t) = true)
            by (simpl; rewrite Ex; assumption).
          rewrite forallb_forall in Hall. rewrite (Hall z Hin) in Hz.
          discriminate. }
        assert (Hlen : length (x :: t) - length rest = S (length l))
          by (rewrite El; cbn [length]; rewrite length_app; lia).
        rewrite Hlen.
        assert (Hsk : split_loop n0 (Plus (Cls is_space)) [] (length l) t
                      = split_loop n0 (Plus (Cls is_space)) [] 0 rest)
          by (rewrite El; apply split_loop_skip).
        assert (Hfs : fields [] t = fields [] rest)
          by (rewrite El; apply fields_skip; assumption).
        rewrite Hsk, Hfs. fold re_spaces. rewrite IH.
        -- destruct cur; [contradiction | reflexivity].
        -- apply (f_equal (@length N)) in El. rewrite length_app in El.
           simpl in Hn. lia.
        -- right. apply (Hsuf (x :: l)); [simpl; congruence | assumption].
        -- right. destruct rest as [|z rest']; [contradiction|].
           exists z, rest'. split; [reflexivity|].
           apply (drop_while_head is_space t z rest'). symmetry. assumption.
      * fold re_spaces. apply IH.
        -- simpl in Hn. lia.
        -- destruct t as [|z t']; [left; reflexivity|].
           right. apply (Hsuf [x]); [reflexivity | discriminate].
        -- left. discriminate.
Qed.

Lemma split_spaces_fields segment :
  trim segment <> [] ->
  split re_spaces (trim segment) = fields [] segment.
Proof.
  intros H. destruct (trim_split segment) as (l & r & Es & Hl & Hr).
  rewrite Es at 2. rewrite fields_skip, fields_trailing by assumption.
  destruct (trim segment) as [|x t] eqn:E; [contradiction|].
  destruct (trim_ends _ _ _ E) as (Hx & y & r' & Er & Hy).
  unfold split. apply split_loop_fields with (n := length (x :: t)).
  - lia.
  - right. eauto.
  - right. eauto.
Qed.

Lemma fields_words : forall s cur,
  forallb (fun c => negb (is_space c)) cur = true ->
  Forall (fun part => part <> [] /\ forallb (fun c => negb (is_space c)) part = true)
    (fields cur s).
Proof.
  assert (Hcur : forall z cur,
    forallb (fun c => negb (is_space c)) (z :: cur) = true ->
    rev (z :: cur) <> [] /\
    forallb (fun c => negb (is_space c)) (rev (z :: cur)) = true).
  { intros z cur H. split.
    - intros E. apply (f_equal (@length N)) in E. rewrite length_rev in E.
      discriminate.
    - rewrite forallb_forall in *. intros x Hx. apply H. apply in_rev.
      assumption. }
  induction s as [|x s IH]; intros cur H.
  - destruct cur as [|z cur]; constructor; [auto | constructor].
  - cbn [fields]. destruct (is_space x) eqn:Ex.
    + destruct cur as [|z cur]; [apply IH; reflexivity|].
      constructor; [auto | apply IH; reflexivity].
    + apply IH. cbn [forallb]. rewrite Ex. assumption.
Qed.

Lemma fields_cur_nonempty : forall s cur, cur <> [] -> fields cur s <> [].
Proof.
  induction s as [|x s IH]; intros cur H.
  - destruct cur; [contradiction | discriminate].
  - cbn [fields]. destruct (is_space x).
    + destruct cur; [contradiction | discriminate].
    + apply IH. discriminate.
Qed.

Lemma fields_trim segment : fields [] (trim segment) = fields [] segment.
Proof.
  destruct (trim_split segment) as (l & r & Es & Hl & Hr).
  rewrite Es at 2. rewrite fields_skip, fields_trailing by assumption.
  reflexivity.
Qed.

Lemma fields_trim_nil segment : trim segment = [] -> fields [] segment = [].
Proof. intros H. rewrite <- fields_trim, H. reflexivity. Qed.

Lemma fields_trim_nonempty segment : trim segment <> [] -> fields [] segment <> [].
Proof.
  intros H. rewrite <- fields_trim.
  destruct (trim segment) as [|x t] eqn:E; [contradiction|].
  destruct (trim_ends _ _ _ E) as (Hx & _).
  cbn [fields]. rewrite Hx. apply fields_cur_nonempty. discriminate.
Qed.

(** A word and what follows it. *)
Lemma fields_word p : forall cur sp rest,
  forallb (fun c => negb (is_space c)) p = true -> is_space sp = true ->
  rev cur ++ p <> [] ->
  fields cur (p ++ sp :: rest) = (rev cur ++ p) :: fields [] rest.
Proof.
  induction p as [|x p IH]; intros cur sp rest Hp Hsp Hne.
  - cbn [app fields]. rewrite Hsp. rewrite app_nil_r in *.
    destruct cur as [|z cur]; [contradiction | reflexivity].
  - cbn [forallb] in Hp. apply andb_prop in Hp. destruct Hp as [Hx Hp].
    cbn [app fields]. destruct (is_space x); [discriminate|].
    rewrite IH; try assumption.
    + cbn [rev]. rewrite <- app_assoc. reflexivity.
    + cbn [rev]. rewrite <- app_assoc. cbn [app].
      intros E. apply app_eq_nil in E. destruct E as [_ E]. discriminate.
Qed.

Lemma fields_one_word p :
  forallb (fun c => negb (is_space c)) p = true -> p <> [] ->
  fields [] p = [p].
Proof.
  intros Hp Hne. rewrite <- (fields_trailing [ch " "] eq_refl p []).
  rewrite fields_word; [reflexivity | assumption | reflexivity | assumption].
Qed.

Lemma test_marker_line_upper s :
  test re_marker_line s = true -> s <> [] /\ forallb is_upper s = true.
Proof.
  unfold re_marker_line. intros H. apply test_bol in H. destruct H as (s' & H).
  apply inv_seq in H. destruct H as (s1 & H1 & H2).
  apply inv_eol in H2. destruct H2 as [-> _].
  apply matches_plus_cls in H1. destruct H1 as (w & E & Hw & Hne).
  rewrite app_nil_r in E. subst w. split; assumption.
Qed.

(** The identities of a command of one segment that the removals leave as
    it is. *)
Lemma segment_ids_simple s :
  plain s = true -> forallb (fun c => negb (is_separator c)) s = true ->
  segment_ids s
  = if test re_marker_line (trim s) then [] else words_identity (fields [] s).
Proof.
  intros Hp Hs. unfold segment_ids, segments_of. rewrite (clean_plain s Hp).
  rewrite split_runs by apply segment_identity_nil.
  rewrite runs_no_separator by assumption. cbn [rev app].
  destruct s as [|x t]; [reflexivity|].
  cbn [filter_map]. unfold segment_identity, words_identity.
  destruct (trim (x :: t)) as [|y u] eqn:E.
  - rewrite (fields_trim_nil _ E). reflexivity.
  - rewrite <- E. rewrite split_spaces_fields by (rewrite E; discriminate).
    destruct (test re_marker_line (trim (x :: t))); [reflexivity|].
    destruct (parts_found (fields [] (x :: t))) as [[e|] sub]; reflexivity.
Qed.

(** The global replacement adds no code unit that the replacement text does
    not hold. *)
Lemma replace_loop_filter (p : char -> bool) n0 r repl :
  filter p repl = [] ->
  forall s skip,
    length (filter p (replace_loop n0 r repl skip s)) <= length (filter p s).
Proof.
  intros Hrepl.
  assert (Hcons : forall x (a b : list char),
            length (filter p a) <= length (filter p b) ->
            length (filter p (x :: a)) <= length (filter p (x :: b))).
  { intros x a b H. simpl. destruct (p x); simpl; lia. }
  assert (Hdrop : forall x (a b : list char),
            length (filter p a) <= length (filter p b) ->
            length (filter p a) <= length (filter p (x :: b))).
  { intros x a b H. simpl. destruct (p x); simpl; lia. }
  induction s as [|x t IH]; intros skip.
  - destruct skip; simpl; [|lia].
    destruct (match_at n0 r []) as [s'|]; [|simpl; lia].
    rewrite filter_app, Hrepl. simpl. lia.
  - destruct skip as [|skip].
    + rewrite replace_loop_0_cons.
      destruct (match_at n0 r (x :: t)) as [s'|]; [|apply Hcons, IH].
      rewrite filter_app, Hrepl. cbn [app].
      destruct (length (x :: t) - length s'); [apply Hcons, IH | apply Hdrop, IH].
    + cbn [replace_loop]. apply Hdrop, IH.
Qed.

Lemma clean_separators command :
  length (filter is_separator (clean command))
  <= length (filter is_separator command).
Proof.
  unfold clean, strip_redirections, strip_literals, strip_heredocs, replace_all.
  cbv zeta.
  repeat (etransitivity; [apply replace_loop_filter; reflexivity|]).
  apply Nat.le_refl.
Qed.

Lemma runs_length : forall s cur,
  length (runs cur s) <= S (length (filter is_separator s)).
Proof.
  induction s as [|x s IH]; intros cur.
  - destruct cur; simpl; lia.
  - cbn [runs filter]. destruct (is_separator x).
    + specialize (IH []). destruct cur; cbn [length]; lia.
    + apply IH.
Qed.

Lemma filter_map_length {A B} (f : A -> option B) l :
  length (filter_map f l) <= length l.
Proof.
  induction l as [|x l IH]; simpl; [lia|].
  destruct (f x); simpl; lia.
Qed.

Lemma dedup_length l : length (dedup l) <= length l.
Proof.
  induction l as [|x l IH]; simpl; [lia|].
  pose proof (filter_length_le (fun y => negb (str_eqb x y)) (dedup l)). lia.
Qed.

(** ** Redirections *)

Lemma m_lit_cons n0 x y t c k :
  m n0 (Lit x) (y :: t) c k = if N.eqb x y then k t c else None.
Proof. reflexivity. Qed.

Lemma m_alt n0 r1 r2 s c k :
  m n0 (Alt r1 r2) s c k =
  match m n0 r1 s c k with
  | Some res => Some res
  | None => m n0 r2 s c k
  end.
Proof. reflexivity. Qed.

Lemma m_empty n0 s c k : m n0 Empty s c k = k s c.
Proof. reflexivity. Qed.

(** A greedy repetition of a class before a continuation that accepts no
    string that starts in the class: the longest run is the only one tried
    with success. *)
Lemma m_star_cls_commit n0 p k :
  (forall x t c, p x = true -> k (x :: t) c = None) ->
  forall s c, m n0 (Star true (Cls p)) s c k = k (drop_while p s) c.
Proof.
  intros Hk. induction s as [|x t IH]; intros c.
  - reflexivity.
  - rewrite m_star_cls_cons. cbn [drop_while]. destruct (p x) eqn:E; [|reflexivity].
    rewrite IH. destruct (k (drop_while p t) c) eqn:Ek; [reflexivity|].
    apply Hk. assumption.
Qed.

Lemma drop_while_run p w rest :
  forallb p w = true -> drop_while p rest = rest -> drop_while p (w ++ rest) = rest.
Proof. intros Hw Hr. rewrite drop_while_app by assumption. assumption. Qed.

Lemma drop_while_gt rest : drop_while is_digit (c_gt :: rest) = c_gt :: rest.
Proof. reflexivity. Qed.

(** Digits, then [>]: the start of the three redirection expressions. *)
Lemma m_digits_gt n0 d rest k :
  forallb is_digit d = true ->
  m n0 (Seq (Star true (Cls is_digit)) (Seq (Lit (ch ">")) k)) (d ++ c_gt :: rest) None ret
  = m n0 k rest None ret.
Proof.
  intros Hd. rewrite m_seq, m_star_cls_commit.
  - rewrite (drop_while_run _ d _ Hd (drop_while_gt _)).
    rewrite m_seq, m_lit_cons. change (ch ">") with c_gt. rewrite N.eqb_refl.
    reflexivity.
  - intros y t c Hy. rewrite m_seq, m_lit_cons.
    destruct (N.eqb (ch ">") y) eqn:E; [|reflexivity].
    apply N.eqb_eq in E. subst y. discriminate.
Qed.

Lemma m_digits1_gt n0 d rest k :
  d <> [] -> forallb is_digit d = true ->
  m n0 (Seq (Plus (Cls is_digit)) (Seq (Lit (ch ">")) k)) (d ++ c_gt :: rest) None ret
  = m n0 k rest None ret.
Proof.
  intros Hne Hd. destruct d as [|x d]; [contradiction|].
  cbn [forallb] in Hd. apply andb_prop in Hd. destruct Hd as [Hx Hd].
  unfold Plus. rewrite !m_seq. cbn [app]. rewrite m_cls_cons, Hx.
  rewrite <- (m_digits_gt n0 d rest k Hd). rewrite !m_seq. reflexivity.
Qed.

Lemma m_plus_cls_run n0 p w rest :
  w <> [] -> forallb p w = true -> drop_while p rest = rest ->
  m n0 (Plus (Cls p)) (w ++ rest) None ret = Some (rest, None).
Proof.
  intros Hne Hw Hrest. destruct w as [|y t]; [contradiction|].
  cbn [forallb] in Hw. apply andb_prop in Hw. destruct Hw as [Hy Ht].
  unfold Plus. rewrite m_seq. cbn [app]. rewrite m_cls_cons, Hy.
  rewrite m_star_cls_ret, drop_while_run by assumption. reflexivity.
Qed.

(** [N>&M], [>&M], [N>M] and [>M] are read by [/\d*>&?\d+/] in full. *)
Lemma match_at_fd_dup n0 d amp d2 rest :
  forallb is_digit d = true -> amp = [] \/ amp = [ch "&"] ->
  d2 <> [] -> forallb is_digit d2 = true -> drop_while is_digit rest = rest ->
  match_at n0 re_fd_dup (d ++ c_gt :: amp ++ d2 ++ rest) = Some rest.
Proof.
  intros Hd Hamp Hne Hd2 Hrest. unfold match_at, re_fd_dup.
  rewrite m_digits_gt by assumption.
  pose proof (m_plus_cls_run n0 is_digit d2 rest Hne Hd2 Hrest) as Hplus.
  rewrite m_seq. unfold Opt. rewrite m_alt.
  destruct Hamp as [->| ->]; cbn [app].
  - destruct d2 as [|y d2]; [contradiction|]. cbn [app]. rewrite m_lit_cons.
    destruct (N.eqb (ch "&") y) eqn:E.
    + apply N.eqb_eq in E. subst y. discriminate.
    + rewrite m_empty. cbn [app] in Hplus. rewrite Hplus. reflexivity.
  - rewrite m_lit_cons, N.eqb_refl, Hplus. reflexivity.
Qed.

(** After [>], [/\d*>&?\d+/] wants [&] or a digit. *)
Lemma match_at_fd_dup_none n0 v c rest :
  forallb is_digit v = true -> is_digit c = false -> N.eqb (ch "&") c = false ->
  match_at n0 re_fd_dup (v ++ c_gt :: c :: rest) = None.
Proof.
  intros Hv Hc Hamp. unfold match_at, re_fd_dup.
  rewrite m_digits_gt by assumption.
  rewrite m_seq. unfold Opt, Plus. rewrite m_alt, m_lit_cons, Hamp, m_empty.
  rewrite m_seq, m_cls_cons, Hc. reflexivity.
Qed.

(** [N>>target] is read by [/\d+>>\S+/] up to the next white space. *)
Lemma match_at_fd_append n0 d target rest :
  d <> [] -> forallb is_digit d = true ->
  target <> [] -> forallb (fun c => negb (is_space c)) target = true ->
  drop_while (fun c => negb (is_space c)) rest = rest ->
  match_at n0 re_fd_append (d ++ c_gt :: c_gt :: target ++ rest) = Some rest.
Proof.
  intros Hne Hd Hnt Ht Hrest. unfold match_at, re_fd_append.
  rewrite m_digits1_gt by assumption.
  rewrite m_seq, m_lit_cons. change (ch ">") with c_gt. rewrite N.eqb_refl.
  rewrite m_plus_cls_run by assumption. reflexivity.
Qed.

Lemma match_at_fd_append_none n0 v c rest :
  forallb is_digit v = true -> N.eqb c_gt c = false ->
  match_at n0 re_fd_append (v ++ c_gt :: c :: rest) = None.
Proof.
  intros Hv Hc. destruct v as [|x v].
  - reflexivity.
  - unfold match_at, re_fd_append.
    rewrite m_digits1_gt by (assumption || discriminate).
    rewrite m_seq, m_lit_cons. change (ch ">") with c_gt. rewrite Hc. reflexivity.
Qed.

(** [N>target] is read by [/\d+>\S+/] up to the next white space. *)
Lemma match_at_fd_write n0 d target rest :
  d <> [] -> forallb is_digit d = true ->
  target <> [] -> forallb (fun c => negb (is_space c)) target = true ->
  drop_while (fun c => negb (is_space c)) rest = rest ->
  match_at n0 re_fd_write (d ++ c_gt :: target ++ rest) = Some rest.
Proof.
  intros Hne Hd Hnt Ht Hrest. unfold match_at, re_fd_write.
  rewrite m_digits1_gt by assumption.
  rewrite m_plus_cls_run by assumption. reflexivity.
Qed.

(** A redirection that an expression reads in full is removed by its pass. *)
Lemma replace_all_match r w rest :
  no_bol r = true -> w <> [] ->
  (forall n0, match_at n0 r (w ++ rest) = Some rest) ->
  replace_all r [] (w ++ rest) = replace_all r [] rest.
Proof.
  intros Hb Hw Hm. unfold replace_all.
  rewrite replace_loop_0_some by (assumption || apply Hm).
  apply replace_loop_no_bol. assumption.
Qed.

Lemma replace_all_nil r repl :
  In r [re_heredoc; re_heredoc_open_ended; re_quoted dquote; re_quoted squote;
        re_quoted bquote; re_fd_dup; re_fd_append; re_fd_write] ->
  replace_all r repl [] = [].
Proof.
  intros Hin. simpl in Hin.
  repeat (destruct Hin as [<-|Hin]; [reflexivity|]). contradiction.
Qed.

Lemma class_not_char (p : char -> bool) c d :
  p c = false -> forallb p d = true -> mem_char c d = false.
Proof.
  intros Hc. induction d as [|x d IH]; [reflexivity|].
  cbn [forallb mem_char]. intros H. apply andb_prop in H. destruct H as [Hx Hd].
  destruct (N.eqb x c) eqn:E; [|auto].
  apply N.eqb_eq in E. subst x. congruence.
Qed.

Lemma replace_all_heredoc_keep r repl l s :
  In r [re_heredoc; re_heredoc_open_ended] ->
  mem_char c_lt l = false ->
  replace_all r repl (l ++ s) = l ++ replace_all r repl s.
Proof.
  intros Hin Hl. apply replace_all_keep.
  - simpl in Hin. destruct Hin as [<-|[<-|[]]]; reflexivity.
  - intros u v n0 E Hv. destruct v as [|x v]; [contradiction|].
    rewrite <- app_comm_cons. apply match_at_no_match.
    assert (Hx : N.eqb c_lt x = false).
    { subst l. rewrite mem_char_app in Hl. apply orb_false_elim in Hl.
      destruct Hl as [_ Hl]. cbn [mem_char] in Hl. rewrite N.eqb_sym.
      destruct (N.eqb x c_lt); [discriminate | reflexivity]. }
    simpl in Hin. destruct Hin as [<-|[<-|[]]];
      cbn [no_match no_read re_heredoc re_heredoc_open_ended heredoc_open];
      change (ch "<") with c_lt; rewrite Hx; reflexivity.
Qed.

(** The removal of heredocs and the removal of string literals leave a
    prefix without [<], or without quotes, as it is. *)
Lemma strip_heredocs_keep l b :
  mem_char c_lt l = false -> strip_heredocs (l ++ b) = l ++ strip_heredocs b.
Proof.
  intros Hl. unfold strip_heredocs. cbv zeta.
  rewrite !(replace_all_heredoc_keep _ _ l) by (assumption || simpl; tauto).
  reflexivity.
Qed.

Lemma strip_literals_keep l b :
  free_of quotes l = true -> strip_literals (l ++ b) = l ++ strip_literals b.
Proof.
  intros Hl. rewrite !strip_literals_spec.
  rewrite !neutralized_keep; try reflexivity;
    apply (free_of_In quotes); try assumption; simpl; tauto.
Qed.

Lemma free_of_intro l s :
  (forall c, In c l -> mem_char c s = false) -> free_of l s = true.
Proof.
  intros H. unfold free_of. rewrite forallb_forall. intros c Hc.
  rewrite (H c Hc). reflexivity.
Qed.

Lemma pass_stops r repl p tail :
  In r [re_heredoc; re_heredoc_open_ended; re_quoted dquote; re_quoted squote;
        re_quoted bquote; re_fd_dup; re_fd_append; re_fd_write] ->
  (forall x, p x = true -> quiet_char x = true) ->
  stops_at p tail = true -> stops_at p (replace_all r repl tail) = true.
Proof.
  intros Hin Hp Ht. destruct tail as [|x t].
  - rewrite replace_all_nil by assumption. reflexivity.
  - cbn [stops_at] in Ht. pose proof (Hp x Ht) as Hq.
    unfold quiet_char in Hq. apply andb_prop in Hq. destruct Hq as [Hq1 Hq2].
    change (x :: t) with ([x] ++ t).
    rewrite removal_keeps_plain_prefix by assumption. assumption.
Qed.

(** What the removals of heredocs and string literals make of the tail. *)
Lemma literal_passes_stop p tail :
  (forall x, p x = true -> quiet_char x = true) ->
  stops_at p tail = true ->
  stops_at p (strip_literals (strip_heredocs tail)) = true.
Proof.
  intros Hp Ht. unfold strip_literals, strip_heredocs. cbv zeta.
  repeat (apply pass_stops; [simpl; tauto | assumption |]). assumption.
Qed.

Lemma stops_drop_while p q s :
  (forall x, p x = true -> q x = false) ->
  stops_at p s = true -> drop_while q s = s.
Proof.
  intros H Hs. destruct s as [|x t]; [reflexivity|].
  cbn [stops_at] in Hs. cbn [drop_while]. rewrite (H x Hs). reflexivity.
Qed.

Lemma quiet_not_digit x : quiet_char x = true -> is_digit x = false.
Proof.
  unfold quiet_char. intros H. apply andb_prop in H. destruct H as [_ H].
  destruct (is_digit x); [discriminate | reflexivity].
Qed.

Lemma space_quiet x : is_space x = true -> quiet_char x = true.
Proof.
  intros H.
  destruct (blank_plain [x]) as [Hp Hd]; [simpl; rewrite H; reflexivity|].
  unfold quiet_char. rewrite Hp. unfold no_digit_end in Hd. cbn [rev app] in Hd.
  assumption.
Qed.

Lemma extract_clean a b : clean a = clean b -> extractExecutables a = extractExecutables b.
Proof. intros H. unfold extractExecutables, segments_of. rewrite H. reflexivity. Qed.

Lemma digits_plain_parts d :
  forallb is_digit d = true ->
  mem_char c_lt d = false /\ free_of quotes d = true.
Proof.
  intros H. split.
  - apply (class_not_char is_digit); [reflexivity | assumption].
  - apply free_of_intro. intros c Hc. simpl in Hc.
    destruct Hc as [<-|[<-|[<-|[]]]];
      (apply (class_not_char is_digit); [reflexivity | assumption]).
Qed.

Lemma replace_all_loop r repl s n0 :
  no_bol r = true -> replace_all r repl s = replace_loop n0 r repl 0 s.
Proof. intros H. unfold replace_all. apply replace_loop_no_bol. assumption. Qed.

Lemma replace_loop_plain_prefix n0 r repl pre s :
  In r [re_heredoc; re_heredoc_open_ended; re_quoted dquote; re_quoted squote;
        re_quoted bquote; re_fd_dup; re_fd_append; re_fd_write] ->
  plain pre = true -> no_digit_end pre = true ->
  replace_loop n0 r repl 0 (pre ++ s) = pre ++ replace_loop n0 r repl 0 s.
Proof.
  intros Hin Hp Hd. apply replace_loop_keep.
  intros u v E Hv. subst pre. apply no_match_in_plain; try assumption.
  - apply (plain_suffix u). assumption.
  - apply (no_digit_end_suffix u); assumption.
Qed.

(** The target of a redirection, before white space or the end: no
    redirection starts in it. *)
Lemma replace_loop_target n0 r repl target T :
  In r [re_fd_dup; re_fd_append; re_fd_write] ->
  plain target = true -> stops_at is_space T = true ->
  replace_loop n0 r repl 0 (target ++ T)
  = target ++ replace_loop n0 r repl 0 T.
Proof.
  intros Hin Hp HT. apply replace_loop_keep. intros u v E Hv.
  assert (Hpv : plain v = true) by (subst target; apply (plain_suffix u); assumption).
  destruct T as [|sp T'].
  - apply (match_at_needs n0 c_gt).
    + simpl in Hin. destruct Hin as [<-|[<-|[<-|[]]]]; reflexivity.
    + rewrite app_nil_r. apply plain_parts in Hpv. tauto.
  - cbn [stops_at] in HT. change (v ++ sp :: T') with (v ++ [sp] ++ T').
    rewrite app_assoc. apply no_match_in_plain.
    + simpl in Hin. simpl. tauto.
    + intros E'. apply app_eq_nil in E'. destruct E' as [_ E']. discriminate.
    + apply space_quiet in HT. unfold quiet_char in HT. apply andb_prop in HT.
      unfold plain in *. rewrite free_of_app. rewrite Hpv. tauto.
    + rewrite forallb_app. cbn [forallb].
      rewrite (quiet_not_digit sp (space_quiet sp HT)). apply andb_false_r.
Qed.

(** Digits and [>] stay where the expression has no match from a digit or
    from the [>]. *)
Lemma replace_loop_digits_gt n0 r repl d c rest :
  (forall v, forallb is_digit v = true ->
             match_at n0 r (v ++ c_gt :: c :: rest) = None) ->
  forallb is_digit d = true ->
  replace_loop n0 r repl 0 (d ++ c_gt :: c :: rest)
  = d ++ c_gt :: replace_loop n0 r repl 0 (c :: rest).
Proof.
  intros Hm Hd. rewrite replace_loop_keep.
  - rewrite replace_loop_0_none by (apply (Hm []); reflexivity). reflexivity.
  - intros u v E Hv. apply Hm. subst d. rewrite forallb_app in Hd.
    apply andb_prop in Hd. tauto.
Qed.

(** ** Terminated heredocs *)

Lemma m_group n0 r s c k :
  m n0 (Group r) s c k
  = m n0 r s c (fun s' _ => k s' (Some (firstn (length s - length s') s))).
Proof. reflexivity. Qed.

Lemma m_backref n0 w s k :
  m n0 Backref s (Some w) k
  = if is_prefix w s then k (skipn (length w) s) (Some w) else None.
Proof. reflexivity. Qed.

Lemma m_ahead n0 r s c k :
  m n0 (Ahead r) s c k
  = match m n0 r s c ret with
    | Some (_, c') => k s c'
    | None => None
    end.
Proof. reflexivity. Qed.

Lemma m_star_nil n0 g p c k : m n0 (Star g (Cls p)) [] c k = k [] c.
Proof. destruct g; reflexivity. Qed.

(** A greedy repetition of a class reads its longest run first. *)
Lemma m_star_cls_longest n0 p w rest c k res :
  forallb p w = true -> stops_at (fun x => negb (p x)) rest = true ->
  k rest c = Some res ->
  m n0 (Star true (Cls p)) (w ++ rest) c k = Some res.
Proof.
  intros Hw Hrest Hk. induction w as [|y w IH].
  - cbn [app]. destruct rest as [|x t]; [rewrite m_star_nil; assumption|].
    cbn [stops_at] in Hrest. rewrite m_star_cls_cons.
    destruct (p x); [discriminate | assumption].
  - cbn [forallb] in Hw. apply andb_prop in Hw. destruct Hw as [Hy Hw].
    cbn [app]. rewrite m_star_cls_cons, Hy, (IH Hw). reflexivity.
Qed.

Lemma m_plus_cls_longest n0 p w rest c k res :
  w <> [] -> forallb p w = true -> stops_at (fun x => negb (p x)) rest = true ->
  k rest c = Some res ->
  m n0 (Plus (Cls p)) (w ++ rest) c k = Some res.
Proof.
  intros Hne Hw Hrest Hk. destruct w as [|a w]; [contradiction|].
  cbn [forallb] in Hw. apply andb_prop in Hw. destruct Hw as [Ha Hw].
  unfold Plus. rewrite m_seq. cbn [app]. rewrite m_cls_cons, Ha.
  apply m_star_cls_longest; assumption.
Qed.

(** A lazy repetition of any code unit stops at the first place where what
    follows it matches. *)
Lemma m_lazy_any n0 k c rest res : forall u,
  (forall u1 u2, u = u1 ++ u2 -> u2 <> [] -> k (u2 ++ rest) c = None) ->
  k rest c = Some res ->
  m n0 (Star false (Cls any_char)) (u ++ rest) c k = Some res.
Proof.
  induction u as [|x u IH]; intros Hu Hk.
  - cbn [app]. rewrite m_star. cbv zeta. rewrite Hk. reflexivity.
  - rewrite m_star. cbv zeta.
    rewrite (Hu [] (x :: u) eq_refl) by discriminate.
    cbn [app has_group]. rewrite m_cls_cons. cbn [any_char].
    replace (length (u ++ rest) <? length (x :: u ++ rest)) with true
      by (symmetry; apply Nat.ltb_lt; cbn [length]; lia).
    apply IH; [|assumption].
    intros u1 u2 E Hne. apply (Hu (x :: u1)); [rewrite E; reflexivity | assumption].
Qed.

Lemma is_prefix_app w t : is_prefix w (w ++ t) = true.
Proof.
  induction w as [|x w IH]; [reflexivity|].
  cbn [app is_prefix]. rewrite N.eqb_refl. assumption.
Qed.

Lemma skipn_app_exact {A} (w t : list A) : skipn (length w) (w ++ t) = t.
Proof. induction w as [|x w IH]; [reflexivity | assumption]. Qed.

Lemma firstn_app_exact {A} (w t : list A) :
  firstn (length (w ++ t) - length t) (w ++ t) = w.
Proof.
  rewrite length_app. replace (length w + length t - length t) with (length w) by lia.
  induction w as [|x w IH]; [reflexivity|]. cbn [length firstn app]. f_equal. assumption.
Qed.

(** A word is no prefix of a string that has a line feed before the word is
    through. *)
Lemma is_prefix_line w : forallb is_word w = true ->
  forall t z, is_prefix w (t ++ nl :: z) = is_prefix w t.
Proof.
  induction w as [|x w IH]; intros Hw t z; [reflexivity|].
  cbn [forallb] in Hw. apply andb_prop in Hw. destruct Hw as [Hx Hw].
  destruct t as [|y t].
  - cbn [app is_prefix]. destruct (N.eqb x nl) eqn:E; [|reflexivity].
    apply N.eqb_eq in E. subst x. discriminate.
  - cbn [app is_prefix]. destruct (N.eqb x y); [apply IH; assumption | reflexivity].
Qed.

Lemma no_marker_line_at w : forall u u1 x u2,
  no_marker_line w u = true -> u = u1 ++ x :: u2 ->
  (N.eqb x nl && is_prefix w u2)%bool = false.
Proof.
  induction u as [|y u IH]; intros u1 x u2 H E.
  - destruct u1; discriminate.
  - cbn [no_marker_line] in H. apply andb_prop in H. destruct H as [H1 H2].
    destruct u1 as [|y' u1]; cbn [app] in E; injection E as -> ->.
    + apply negb_true_iff in H1. assumption.
    + apply (IH u1 x u2 H2 eq_refl).
Qed.

(** What the heredoc expression wants after the marker of the last line:
    white space up to the end of the input, or up to the last line feed
    before a line that starts with no white space. *)
Lemma m_heredoc_end n0 ws c :
  forallb is_space ws = true ->
  m n0 (Seq (Star true (Cls is_space)) (Ahead (Alt (Lit 10%N) Eol))) ws c ret
  = Some ([], c).
Proof.
  intros Hws. rewrite m_seq. rewrite <- (app_nil_r ws).
  apply m_star_cls_longest; [assumption | reflexivity | reflexivity].
Qed.

Lemma m_heredoc_line n0 ws x post c :
  forallb is_space ws = true -> is_space x = false ->
  m n0 (Seq (Star true (Cls is_space)) (Ahead (Alt (Lit 10%N) Eol)))
    (ws ++ nl :: x :: post) c ret
  = Some (nl :: x :: post, c).
Proof.
  intros Hws Hx. rewrite m_seq. induction ws as [|y ws IH].
  - cbn [app]. rewrite m_star_cls_cons. change (is_space nl) with true. cbv iota.
    rewrite m_star_cls_cons, Hx. cbv beta. rewrite m_ahead, m_alt, m_lit_cons.
    destruct (N.eqb 10 x) eqn:E.
    + apply N.eqb_eq in E. subst x. discriminate.
    + cbn [m]. reflexivity.
  - cbn [forallb] in Hws. apply andb_prop in Hws. destruct Hws as [Hy Hws].
    cbn [app]. rewrite m_star_cls_cons, Hy, (IH Hws). reflexivity.
Qed.

Lemma word_char x :
  is_word x = true ->
  is_space x = false /\ is_quote12 x = false /\ N.eqb x nl = false
  /\ N.eqb c_lt x = false.
Proof.
  unfold is_word, is_lower, is_upper, is_digit, in_range.
  rewrite !orb_true_iff, !andb_true_iff, !N.leb_le, N.eqb_eq. intros H.
  unfold is_space, is_quote12, in_range, squote, dquote, nl, c_lt.
  change (ch "'") with 39%N. change (ch "<") with 60%N.
  repeat split.
  - rewrite !orb_false_iff, !andb_false_iff, !N.leb_gt, !N.eqb_neq. lia.
  - rewrite !orb_false_iff, !N.eqb_neq. lia.
  - rewrite N.eqb_neq. lia.
  - rewrite N.eqb_neq. lia.
Qed.

Lemma quote12_char x :
  is_quote12 x = true -> is_space x = false /\ N.eqb c_lt x = false.
Proof.
  unfold is_quote12. rewrite orb_true_iff, !N.eqb_eq.
  intros [->| ->]; split; reflexivity.
Qed.

(** The heredoc expression on a terminated heredoc: [<<], white space, a
    quote or none, the marker word, the rest of the line and the body, none
    of whose lines starts with the marker, a line feed, the marker, and an
    end [tail] that the end of the expression reads up to [rest]. *)
Lemma match_at_heredoc n0 sp oq w mid tail rest :
  forallb is_space sp = true ->
  forallb is_quote12 oq = true -> length oq <= 1 ->
  w <> [] -> forallb is_word w = true ->
  stops_at (fun x => negb (is_word x)) mid = true ->
  no_marker_line w mid = true ->
  m n0 (Seq (Star true (Cls is_space)) (Ahead (Alt (Lit 10%N) Eol)))
    tail (Some w) ret = Some (rest, Some w) ->
  match_at n0 re_heredoc
    (c_lt :: c_lt :: sp ++ oq ++ w ++ mid ++ nl :: w ++ tail) = Some rest.
Proof.
  intros Hsp Hoq Hlen Hne Hw Hmid Hbody Htail.
  set (k5 := fun (s' : list char) (c' : capture) =>
    m n0 (Seq (Lit 10%N) (Seq Backref (Seq (Star true (Cls is_space))
       (Ahead (Alt (Lit 10%N) Eol))))) s' c' ret).
  (* the lazy repetition, from any place of the body *)
  assert (Hlazy : forall u, no_marker_line w u = true ->
            m n0 (Star false (Cls any_char)) (u ++ nl :: w ++ tail) (Some w) k5
            = Some (rest, Some w)).
  { intros u Hu. apply m_lazy_any.
    - intros u1 u2 E Hne2. destruct u2 as [|x u2]; [contradiction|].
      unfold k5. cbn [app]. rewrite m_seq, m_lit_cons.
      pose proof (no_marker_line_at w u u1 x u2 Hu E) as Hx.
      rewrite (N.eqb_sym 10 x). change 10%N with nl.
      destruct (N.eqb x nl); [|reflexivity]. cbn [andb] in Hx.
      rewrite m_seq, m_backref, is_prefix_line, Hx by assumption. reflexivity.
    - unfold k5. rewrite m_seq, m_lit_cons. change (N.eqb 10 nl) with true. cbv iota.
      rewrite m_seq, m_backref, is_prefix_app, skipn_app_exact. assumption. }
  subst k5.
  (* from the end of the marker word *)
  assert (Hopt2 : m n0 (Seq (Opt (Cls is_quote12))
                     (Seq (Star false (Cls any_char))
                     (Seq (Lit 10%N) (Seq Backref (Seq (Star true (Cls is_space))
                        (Ahead (Alt (Lit 10%N) Eol)))))))
                    (mid ++ nl :: w ++ tail) (Some w) ret
                  = Some (rest, Some w)).
  { rewrite m_seq. unfold Opt. rewrite m_alt.
    destruct mid as [|q mid'].
    - cbn [app]. rewrite m_cls_cons. change (is_quote12 nl) with false. cbv iota.
      rewrite m_empty, m_seq. apply (Hlazy []). reflexivity.
    - cbn [app]. rewrite m_cls_cons. destruct (is_quote12 q).
      + rewrite m_seq. rewrite (Hlazy mid'); [reflexivity|].
        cbn [no_marker_line] in Hbody. apply andb_prop in Hbody. tauto.
      + rewrite m_empty, m_seq. apply (Hlazy (q :: mid')). assumption. }
  (* the marker word *)
  assert (Hword : m n0 (Seq (Group (Plus (Cls is_word)))
                     (Seq (Opt (Cls is_quote12))
                     (Seq (Star false (Cls any_char))
                     (Seq (Lit 10%N) (Seq Backref (Seq (Star true (Cls is_space))
                        (Ahead (Alt (Lit 10%N) Eol))))))))
                    (w ++ mid ++ nl :: w ++ tail) None ret
                  = Some (rest, Some w)).
  { rewrite m_seq, m_group. apply m_plus_cls_longest; try assumption.
    - destruct mid as [|y mid']; [reflexivity | assumption].
    - rewrite firstn_app_exact. assumption. }
  unfold match_at, re_heredoc, heredoc_open.
  rewrite m_seq, m_lit_cons. change (N.eqb (ch "<") c_lt) with true. cbv iota.
  rewrite m_seq, m_lit_cons. change (N.eqb (ch "<") c_lt) with true. cbv iota.
  rewrite m_seq.
  assert (Hall : m n0 (Star true (Cls is_space))
             (sp ++ oq ++ w ++ mid ++ nl :: w ++ tail) None
             (fun s' c' =>
                m n0 (Seq (Opt (Cls is_quote12))
                  (Seq (Group (Plus (Cls is_word)))
                  (Seq (Opt (Cls is_quote12))
                  (Seq (Star false (Cls any_char))
                  (Seq (Lit 10%N) (Seq Backref (Seq (Star true (Cls is_space))
                     (Ahead (Alt (Lit 10%N) Eol)))))))))
                  s' c' ret)
           = Some (rest, Some w)).
  { apply m_star_cls_longest; [assumption | |].
    - destruct oq as [|q oq'].
      + destruct w as [|a w']; [contradiction|].
        cbn [forallb] in Hw. apply andb_prop in Hw. destruct Hw as [Ha _].
        cbn [app stops_at]. destruct (word_char a Ha) as [Ha1 _]. rewrite Ha1.
        reflexivity.
      + cbn [forallb] in Hoq. apply andb_prop in Hoq. destruct Hoq as [Hq _].
        cbn [app stops_at]. destruct (quote12_char q Hq) as [Hq1 _]. rewrite Hq1.
        reflexivity.
    - rewrite m_seq. unfold Opt at 1. rewrite m_alt.
      destruct oq as [|q oq'].
      + destruct w as [|a w'] eqn:Ew; [contradiction|].
        cbn [app]. rewrite m_cls_cons.
        pose proof Hw as Hw0. cbn [forallb] in Hw0. apply andb_prop in Hw0.
        destruct Hw0 as [Ha _]. destruct (word_char a Ha) as (_ & Ha2 & _).
        rewrite Ha2, m_empty. exact Hword.
      + destruct oq' as [|q2 oq'']; [|cbn [length] in Hlen; lia].
        cbn [forallb] in Hoq. apply andb_prop in Hoq. destruct Hoq as [Hq _].
        cbn [app]. rewrite m_cls_cons, Hq, Hword. reflexivity. }
  rewrite Hall. reflexivity.
Qed.

(** ** The basename of a part *)

Lemma m_bol n0 s c k :
  m n0 Bol s c k = if length s =? n0 then k s c else None.
Proof. reflexivity. Qed.

(** [.*\/] finds no [/] where there is none. *)
Lemma m_path_none n0 c : forall name,
  mem_char (ch "/") name = false ->
  m n0 (Star true (Cls is_dot)) name c
    (fun s' c' => m n0 (Lit (ch "/")) s' c' ret) = None.
Proof.
  induction name as [|x t IH]; intros H; [reflexivity|].
  cbn [mem_char] in H. destruct (N.eqb x (ch "/")) eqn:E; [discriminate|].
  rewrite m_star_cls_cons, (IH H), m_lit_cons, (N.eqb_sym (ch "/") x), E.
  destruct (is_dot x); reflexivity.
Qed.

(** [.*\/] reads up to the last [/]. *)
Lemma m_path_last n0 c name : mem_char (ch "/") name = false ->
  forall dir, forallb is_dot dir = true ->
  m n0 (Star true (Cls is_dot)) (dir ++ ch "/" :: name) c
    (fun s' c' => m n0 (Lit (ch "/")) s' c' ret) = Some (name, c).
Proof.
  intros Hname. induction dir as [|y dir IH]; intros Hdir.
  - cbn [app]. rewrite m_star_cls_cons. change (is_dot (ch "/")) with true.
    cbv iota. rewrite (m_path_none n0 c name Hname), m_lit_cons, N.eqb_refl.
    reflexivity.
  - cbn [forallb] in Hdir. apply andb_prop in Hdir. destruct Hdir as [Hy Hdir].
    cbn [app]. rewrite m_star_cls_cons, Hy, (IH Hdir). reflexivity.
Qed.

(** After the start of the string [^] holds nowhere. *)
Lemma replace_from_bol n0 r repl : forall t,
  length t < n0 -> replace_from n0 (Seq Bol r) repl t = t.
Proof.
  induction t as [|x t IH]; intros H.
  - cbn [replace_from]. unfold match_at. rewrite m_seq, m_bol.
    replace (length (@nil N) =? n0) with false
      by (symmetry; apply Nat.eqb_neq; cbn [length] in *; lia).
    reflexivity.
  - cbn [replace_from]. unfold match_at. rewrite m_seq, m_bol.
    replace (length (x :: t) =? n0) with false
      by (symmetry; apply Nat.eqb_neq; lia).
    rewrite IH by (cbn [length] in H; lia). reflexivity.
Qed.

(** ** The first word of a command *)

(** The words of a word and what follows it, at white space or at the end. *)
Lemma fields_first_word p args :
  p <> [] -> forallb (fun c => negb (is_space c)) p = true ->
  stops_at is_space args = true ->
  fields [] (p ++ args) = p :: fields [] args.
Proof.
  intros Hne Hp Hargs. destruct args as [|sp rest].
  - rewrite app_nil_r. apply fields_one_word; assumption.
  - cbn [stops_at] in Hargs. rewrite fields_word by assumption.
    cbn [fields]. rewrite Hargs. reflexivity.
Qed.

(** A command whose first word is not made of capital letters only is no
    marker line. *)
Lemma first_word_not_marker p args :
  p <> [] -> forallb (fun c => negb (is_space c)) p = true ->
  stops_at is_space args = true ->
  forallb is_upper p = false ->
  test re_marker_line (trim (p ++ args)) = false.
Proof.
  intros Hne Hp Hargs Hup.
  destruct (test re_marker_line (trim (p ++ args))) eqn:Em; [|reflexivity].
  apply test_marker_line_upper in Em. destruct Em as [Hne' Hall].
  assert (Hone : fields [] (trim (p ++ args)) = [trim (p ++ args)]).
  { apply fields_one_word; [|assumption].
    apply (forallb_impl_false is_upper); [intros; apply upper_char|]; assumption. }
  rewrite fields_trim, fields_first_word in Hone by assumption.
  injection Hone as E _. rewrite <- E in Hall. congruence.
Qed.

(** ** Heredocs without a terminator *)






(** ** After the last quote *)

(** A pass of the string-literal removal leaves a text without its quote in
    place at the end of its input, whatever stands before. *)
Lemma neutralized_tail q tail : mem_char q tail = false ->
  forall pre b, (b = true -> mem_char q pre = true) ->
    neutralized q b (pre ++ tail) = neutralized q b pre ++ tail.
Proof.
  intros Ht. induction pre as [|x pre IH]; intros b Hb.
  - destruct b; [specialize (Hb eq_refl); discriminate|].
    cbn [app neutralized]. apply neutralized_absent. assumption.
  - cbn [app neutralized mem_char] in *. destruct (N.eqb x q) eqn:E.
    + destruct b.
      * rewrite IH by (intros; discriminate). reflexivity.
      * rewrite mem_char_app, Ht, orb_false_r.
        destruct (mem_char q pre) eqn:Em; [|reflexivity].
        rewrite IH by (intros; assumption). reflexivity.
    + destruct b.
      * apply IH. intros _. apply Hb. reflexivity.
      * rewrite IH by (intros; discriminate). reflexivity.
Qed.

Lemma neutralized_last_quote p q pre rest :
  mem_char p rest = false ->
  exists kept, neutralized p false (pre ++ q :: rest) = kept ++ q :: rest.
Proof.
  intros Hr. destruct (N.eqb q p) eqn:E.
  - apply N.eqb_eq in E. subst p.
    destruct (neutralized_after_last q pre false) as [kept K].
    exists kept. apply K. assumption.
  - exists (neutralized p false pre). apply neutralized_tail.
    + cbn [mem_char]. rewrite E. assumption.
    + intros; discriminate.
Qed.

Lemma strip_literals_last_quote q pre rest :
  free_of quotes rest = true ->
  exists kept, strip_literals (pre ++ q :: rest) = kept ++ q :: rest.
Proof.
  intros Hr. rewrite strip_literals_spec.
  destruct (neutralized_last_quote dquote q pre rest) as [k1 E1];
    [apply (free_of_In quotes); [assumption | simpl; tauto]|].
  destruct (neutralized_last_quote squote q k1 rest) as [k2 E2];
    [apply (free_of_In quotes); [assumption | simpl; tauto]|].
  destruct (neutralized_last_quote bquote q k2 rest) as [k3 E3];
    [apply (free_of_In quotes); [assumption | simpl; tauto]|].
  exists k3. rewrite E1, E2, E3. reflexivity.
Qed.

(** The removals add no code unit. *)
Lemma mem_char_filter q s :
  mem_char q s = false <-> filter (fun c => N.eqb c q) s = [].
Proof.
  induction s as [|x s IH]; cbn [mem_char filter]; [tauto|].
  destruct (N.eqb x q); [split; discriminate | assumption].
Qed.

Lemma replace_all_absent q r s :
  mem_char q s = false -> mem_char q (replace_all r [] s) = false.
Proof.
  rewrite !mem_char_filter. intros H. unfold replace_all.
  pose proof (replace_loop_filter (fun c => N.eqb c q) (length s) r [] eq_refl s 0) as L.
  rewrite H in L. cbn [length] in L.
  destruct (filter _ (replace_loop (length s) r [] 0 s)); [reflexivity|].
  cbn [length] in L. lia.
Qed.

Lemma neutralized_absent_in c q : forall s b,
  mem_char c s = false -> mem_char c (neutralized q b s) = false.
Proof.
  induction s as [|x s IH]; intros b H; [reflexivity|].
  cbn [mem_char] in H. destruct (N.eqb x c) eqn:Exc; [discriminate|].
  cbn [neutralized]. destruct (N.eqb x q) eqn:Exq.
  - apply N.eqb_eq in Exq. subst x. destruct b.
    + cbn [mem_char]. rewrite Exc. auto.
    + destruct (mem_char q s); cbn [mem_char]; rewrite Exc; auto.
  - destruct b; [auto|]. cbn [mem_char]. rewrite Exc. auto.
Qed.

(** The removal of redirections leaves a prefix without [>] that ends in no
    digit as it is. *)
Lemma strip_redirections_keep l s :
  mem_char c_gt l = false -> no_digit_end l = true ->
  strip_redirections (l ++ s) = l ++ strip_redirections s.
Proof.
  intros Hl Hd.
  assert (K : forall r repl z, In r [re_fd_dup; re_fd_append; re_fd_write] ->
            replace_all r repl (l ++ z) = l ++ replace_all r repl z).
  { intros r repl z Hin. apply replace_all_keep.
    - simpl in Hin. destruct Hin as [<-|[<-|[<-|[]]]]; reflexivity.
    - intros u v n0 E Hv.
      destruct (match_at n0 r (v ++ z)) as [s'|] eqn:Em; [|reflexivity].
      apply match_at_sound in Em.
      destruct (matches_fd_shape _ _ _ _ Hin Em) as (w & s1 & Es & Hw).
      exfalso. apply (digits_then_gt v w z s1 Es Hw).
      + subst l. rewrite mem_char_app in Hl. apply orb_false_elim in Hl. tauto.
      + subst l. apply (no_digit_end_suffix u); assumption. }
  unfold strip_redirections. rewrite !K by (simpl; tauto). reflexivity.
Qed.

(** A segment with one quote without a partner, plain otherwise, before a
    separator: what follows the separator is cleaned as if it stood alone,
    when it does not hold the quote. *)
Lemma clean_after_one_quote q pre rest sep b :
  In q quotes -> plain pre = true -> plain rest = true ->
  is_separator sep = true -> mem_char q b = false ->
  clean ((pre ++ q :: rest) ++ sep :: b) = (pre ++ q :: rest) ++ sep :: clean b.
Proof.
  intros Hq Hpre Hrest Hsep Hb.
  destruct (plain_parts pre Hpre) as (P1 & P2 & P3).
  destruct (plain_parts rest Hrest) as (R1 & R2 & R3).
  destruct (quotes_not_lt_gt q Hq) as [Q1 Q2].
  destruct (separator_plain sep Hsep) as [S0 Sd].
  destruct (plain_parts [sep] S0) as (S1 & S2 & S3).
  set (L := (pre ++ q :: rest) ++ [sep]).
  assert (EL : forall z, (pre ++ q :: rest) ++ sep :: z = L ++ z)
    by (intros z; unfold L;
        rewrite <- (app_assoc (pre ++ q :: rest) [sep] z); reflexivity).
  assert (L1 : mem_char c_lt L = false).
  { unfold L. rewrite !mem_char_app. cbn [mem_char] in *.
    rewrite P1, Q1, R1. destruct (N.eqb sep c_lt); [discriminate | reflexivity]. }
  assert (L2 : mem_char c_gt L = false).
  { unfold L. rewrite !mem_char_app. cbn [mem_char] in *.
    rewrite P2, Q2, R2. destruct (N.eqb sep c_gt); [discriminate | reflexivity]. }
  assert (Ld : no_digit_end L = true) by (apply no_digit_end_snoc; assumption).
  assert (Lp : forall p, In p quotes -> N.eqb q p = false -> mem_char p L = false).
  { intros p Hp Hqp. unfold L. rewrite !mem_char_app. cbn [mem_char].
    rewrite (free_of_In quotes pre p P3 Hp), (free_of_In quotes rest p R3 Hp), Hqp.
    pose proof (free_of_In quotes [sep] p S3 Hp) as Hs. cbn [mem_char] in Hs.
    destruct (N.eqb sep p); [discriminate | reflexivity]. }
  (* a pass of another quote, and the pass of the quote *)
  assert (Other : forall p z, In p quotes -> N.eqb q p = false ->
            neutralized p false (L ++ z) = L ++ neutralized p false z).
  { intros p z Hp Hqp. apply neutralized_keep. apply Lp; assumption. }
  assert (Same : forall z, mem_char q z = false ->
            neutralized q false (L ++ z) = L ++ neutralized q false z).
  { intros z Hz. rewrite (neutralized_absent q z Hz).
    unfold L. rewrite <- !app_assoc. cbn [app].
    rewrite neutralized_keep by (apply (free_of_In quotes); assumption).
    rewrite neutralized_unmatched; [reflexivity|].
    rewrite mem_char_app. cbn [mem_char].
    rewrite (free_of_In quotes rest q R3 Hq), Hz.
    pose proof (free_of_In quotes [sep] q S3 Hq) as Hs. cbn [mem_char] in Hs.
    destruct (N.eqb sep q); [discriminate | reflexivity]. }
  rewrite !EL. unfold clean.
  rewrite strip_heredocs_keep by assumption.
  assert (HB : mem_char q (strip_heredocs b) = false).
  { unfold strip_heredocs. cbv zeta. do 2 apply replace_all_absent. assumption. }
  set (B := strip_heredocs b) in *.
  assert (Lit : strip_literals (L ++ B) = L ++ strip_literals B).
  { rewrite !strip_literals_spec.
    simpl in Hq. destruct Hq as [<-|[<-|[<-|[]]]].
    - rewrite Same by assumption.
      rewrite (Other squote), (Other bquote) by (reflexivity || (simpl; tauto)).
      reflexivity.
    - rewrite (Other dquote) by (reflexivity || (simpl; tauto)).
      rewrite Same by (apply neutralized_absent_in; assumption).
      rewrite (Other bquote) by (reflexivity || (simpl; tauto)).
      reflexivity.
    - rewrite (Other dquote), (Other squote) by (reflexivity || (simpl; tauto)).
      rewrite Same by (do 2 apply neutralized_absent_in; assumption).
      reflexivity. }
  rewrite Lit. apply strip_redirections_keep; assumption.
Qed.

(** * The claims *)

(** C1. For every input the function returns a list whose elements are
    non-empty and of the form [/^[A-Za-z0-9_-]+( [A-Za-z0-9_-]+)?$/], that
    has no duplicates, and that lists the identities of the scanned segments
    in the order of their first appearance: it is the list of the segments'
    identities without the later occurrences. *)
Theorem extractExecutables_invariant :
  forall command, exists ids,
    extractExecutables command = Ret ids /\
    Forall (fun id => id <> [] /\ test re_identity id = true) ids /\
    NoDup ids /\
    ids = dedup (segment_ids command).
Proof.
  intros command. exists (dedup (segment_ids command)).
  split; [apply extractExecutables_spec|].
  split; [|split; [apply dedup_NoDup | reflexivity]].
  apply Forall_forall. intros id Hid. apply (proj1 (dedup_In _ _)) in Hid.
  unfold segment_ids in Hid. apply (proj1 (filter_map_In _ _ _)) in Hid.
  destruct Hid as (segment & _ & Hseg).
  apply segment_identity_form in Hseg. split; [|assumption].
  apply test_re_identity_elim in Hseg.
  destruct Hseg as (a & Ha & _ & [->|(b & _ & _ & ->)]).
  - assumption.
  - destruct a; [congruence | discriminate].
Qed.

(** C2. The function is total: for every input it returns a list, without
    a TypeError and within the bounds of its loops, as do the two loops over
    the parts of a segment for every list of parts; on the empty string it
    returns the empty list. *)
Theorem extractExecutables_total :
  (forall command, exists ids, extractExecutables command = Ret ids) /\
  (forall parts, exists found,
     parts_loop parts 0 None None (S (length parts)) = Ret found) /\
  (forall parts j, exists sub,
     subcommand_loop parts j (S (length parts)) = Ret sub) /\
  extractExecutables [] = Ret [].
Proof.
  split; [|split; [|split; [|reflexivity]]].
  - intros command. exists (dedup (segment_ids command)).
    apply extractExecutables_spec.
  - intros parts. exists (parts_found (skipn 0 parts)).
    apply parts_loop_spec. lia.
  - intros parts j. exists (subcommand_of (skipn j parts)).
    apply subcommand_loop_spec. lia.
Qed.




(** C4, the claim as stated fails: for [a = cat <<EOF] and [b = ls] the
    output for [a;b] is [cat] alone, the unterminated heredoc of [a] taking
    [;ls] with it, while the outputs for [a] and [b] are [cat] and [ls]. *)
Lemma join_after_unterminated_heredoc :
  let a := js "cat <<EOF" in
  let b := js "ls" in
  extractExecutables a = Ret [js "cat"] /\
  extractExecutables b = Ret [js "ls"] /\
  extractExecutables (a ++ ch ";" :: b) = Ret [js "cat"] /\
  dedup ([js "cat"] ++ [js "ls"]) <> [js "cat"].
Proof.
  repeat split; try (vm_compute; reflexivity).
  vm_compute. discriminate.
Qed.

(** C4, amended. When the removal of heredocs, string literals and
    redirections works on the two sides of the [;] apart, as it does when
    neither side has a [<], a [>] or a quote, the output for [a;b] is the
    outputs for [a] and for [b], one after the other, without the later
    occurrences. *)
Theorem extract_join_clean :
  (forall a b,
     clean (a ++ ch ";" :: b) = clean a ++ ch ";" :: clean b ->
     exists la lb,
       extractExecutables a = Ret la /\
       extractExecutables b = Ret lb /\
       extractExecutables (a ++ ch ";" :: b) = Ret (dedup (la ++ lb))) /\
  (forall a b,
     plain a = true -> plain b = true ->
     exists la lb,
       extractExecutables a = Ret la /\
       extractExecutables b = Ret lb /\
       extractExecutables (a ++ ch ";" :: b) = Ret (dedup (la ++ lb))).
Proof.
  assert (Join : forall a b,
     clean (a ++ ch ";" :: b) = clean a ++ ch ";" :: clean b ->
     exists la lb,
       extractExecutables a = Ret la /\
       extractExecutables b = Ret lb /\
       extractExecutables (a ++ ch ";" :: b) = Ret (dedup (la ++ lb))).
  { intros a b H. exists (dedup (segment_ids a)), (dedup (segment_ids b)).
    split; [apply extractExecutables_spec|].
    split; [apply extractExecutables_spec|].
    apply extract_join. assumption. }
  split; [exact Join|].
  intros a b Ha Hb. apply Join. apply clean_join_plain; assumption.
Qed.

Lemma extract_join_clean_witness :
  let a := js "echo hello 2>&1" in
  let b := js "npm run build" in
  (exists la lb,
     extractExecutables a = Ret la /\
     extractExecutables b = Ret lb /\
     extractExecutables (a ++ ch ";" :: b) = Ret (dedup (la ++ lb))) /\
  (exists la lb,
     extractExecutables b = Ret la /\
     extractExecutables b = Ret lb /\
     extractExecutables (b ++ ch ";" :: b) = Ret (dedup (la ++ lb))).
Proof.
  intros a b. split.
  - apply (proj1 extract_join_clean a b). vm_compute. reflexivity.
  - apply (proj2 extract_join_clean b b); vm_compute; reflexivity.
Defined.

(** C5, the claim as stated fails: in [./foo.sh bar] the first part that is
    not passed over is [./foo.sh], whose basename [foo.sh] is no name; the
    segment still contributes [bar]. *)
Lemma invalid_candidate_is_passed_over :
  skipped (js "./foo.sh") = false /\
  basename (js "./foo.sh") = js "foo.sh" /\
  test re_name (js "foo.sh") = false /\
  parts_loop [js "./foo.sh"; js "bar"] 0 None None 3 = Ret (Some (js "bar"), None) /\
  extractExecutables (js "./foo.sh bar") = Ret [js "bar"].
Proof. repeat split; vm_compute; reflexivity. Qed.

(** C5, amended. Among the parts of a segment that are not passed over as
    assignments, flags, prefixes, builtins, keywords, punctuation or
    redirection remnants, the executable is the basename of the first part
    whose basename is a name: parts whose basename is no name are passed
    over and the scan goes on with the later parts.  A segment that is not
    blank and not made of capital letters only (the marker test of line 45)
    contributes the identity of that executable, the executable alone or
    with a subcommand, and contributes nothing only when no such part has a
    name for basename. *)
Theorem segment_first_valid_executable :
  (forall parts, exists subcommand,
     parts_loop parts 0 None None (S (length parts))
     = Ret (find name_ok
              (map basename (filter (fun part => negb (skipped part)) parts)),
            subcommand)) /\
  (forall executables segment,
     trim segment <> [] ->
     test re_marker_line (trim segment) = false ->
     match find name_ok
             (map basename
                (filter (fun part => negb (skipped part))
                   (split re_spaces (trim segment)))) with
     | Some exec =>
         exists subcommand,
           scan_segment executables segment
           = Ret (if arr_includes executables (exec_id exec subcommand)
                  then executables
                  else executables ++ [exec_id exec subcommand])
     | None => scan_segment executables segment = Ret executables
     end) /\
  (forall segment,
     trim segment <> [] ->
     test re_marker_line (trim segment) = false ->
     (scan_segment [] segment = Ret []
      <-> find name_ok
            (map basename
               (filter (fun part => negb (skipped part))
                  (split re_spaces (trim segment)))) = None)).
Proof.
  assert (Seg : forall executables segment,
     trim segment <> [] ->
     test re_marker_line (trim segment) = false ->
     scan_segment executables segment
     = Ret (match parts_found (split re_spaces (trim segment)) with
            | (Some e, sub) =>
                if arr_includes executables (exec_id e sub)
                then executables else executables ++ [exec_id e sub]
            | (None, _) => executables
            end)).
  { intros executables segment Hne Hm. rewrite scan_segment_spec.
    unfold segment_identity. rewrite Hm.
    destruct (trim segment) as [|x t]; [contradiction|].
    destruct (parts_found (split re_spaces (x :: t))) as [[e|] sub];
      [|reflexivity].
    unfold push. destruct (arr_includes executables (exec_id e sub)); reflexivity. }
  split; [|split].
  - intros parts. exists (snd (parts_found parts)).
    rewrite parts_loop_spec by lia. cbn [skipn].
    rewrite <- fst_parts_found. destruct (parts_found parts); reflexivity.
  - intros executables segment Hne Hm.
    rewrite <- fst_parts_found, (Seg executables segment Hne Hm).
    destruct (parts_found (split re_spaces (trim segment))) as [[e|] sub];
      cbn [fst]; [exists sub|]; reflexivity.
  - intros segment Hne Hm.
    rewrite <- fst_parts_found, (Seg [] segment Hne Hm).
    destruct (parts_found (split re_spaces (trim segment))) as [[e|] sub];
      cbn [fst arr_includes app]; split; intros H;
      try reflexivity; discriminate.
Qed.

Lemma segment_first_valid_executable_witness :
  (exists subcommand,
     scan_segment [js "ls"] (js " ./foo.sh bar ")
     = Ret (if arr_includes [js "ls"] (exec_id (js "bar") subcommand)
            then [js "ls"]
            else [js "ls"] ++ [exec_id (js "bar") subcommand])) /\
  (scan_segment [] (js " ./foo.sh -x ") = Ret []
   <-> find name_ok
         (map basename
            (filter (fun part => negb (skipped part))
               (split re_spaces (trim (js " ./foo.sh -x "))))) = None).
Proof.
  split.
  - apply (proj1 (proj2 segment_first_valid_executable)
             [js "ls"] (js " ./foo.sh bar ")).
    + vm_compute. discriminate.
    + vm_compute. reflexivity.
  - apply (proj2 (proj2 segment_first_valid_executable) (js " ./foo.sh -x ")).
    + vm_compute. discriminate.
    + vm_compute. reflexivity.
Defined.

(** C6, the claim as stated fails: the output for
    [for f in *.txt; do cat \x22$f\x22; done] is not [cat] alone. *)
Lemma for_loop_not_cat_alone :
  extractExecutables cmd_for_loop <> Ret [js "cat"].
Proof. vm_compute. discriminate. Qed.

(** C6, amended. The output is [f] and [cat]: the keywords [for], [in],
    [do] and [done] are passed over, and the loop variable [f], the first
    part of its segment that is not, is reported before [cat]. *)
Theorem for_loop_identities :
  extractExecutables cmd_for_loop = Ret [js "f"; js "cat"] /\
  Forall (fun keyword => skipped keyword = true)
    [js "for"; js "in"; js "do"; js "done"].
Proof.
  split; [vm_compute; reflexivity|].
  repeat constructor.
Qed.

(** C7, the claim as stated fails: the output for
    [cat <<'EOF'\nsome text with rm -rf /\nEOF\necho done] is not [echo]
    alone. *)
Lemma heredoc_not_echo_alone :
  extractExecutables cmd_heredoc <> Ret [js "echo"].
Proof. vm_compute. discriminate. Qed.

(** C7, amended. The output is [cat] and [echo]: the heredoc, body and
    terminator, is removed, so that [rm] is not reported, and both the
    command before it and the command after it are. *)
Theorem heredoc_identities :
  strip_heredocs cmd_heredoc = js "cat " ++ nl :: js "echo done" /\
  extractExecutables cmd_heredoc = Ret [js "cat"; js "echo"].
Proof. split; vm_compute; reflexivity. Qed.

(** C8. When the executable found in the parts of a segment is one of
    [git], [npm], [yarn], [pnpm], [docker], [kubectl], the parts after it
    are searched for the subcommand: parts that start with [-] or hold [=]
    are passed over, and the first other part is the subcommand if it is a
    name and ends the search without one if it is not; the identity the
    segment contributes is then the executable, a space and the subcommand.
    So [sudo docker ps -a] gives [docker ps] and
    [echo hello && npm run build] gives [echo] and [npm run]. *)
Theorem subcommand_identity :
  (forall pre part post,
     Forall (fun p => skipped p = true \/ name_ok (basename p) = false) pre ->
     skipped part = false ->
     name_ok (basename part) = true ->
     In (basename part) SUBCOMMAND_EXECUTABLES ->
     parts_loop (pre ++ part :: post) 0 None None (S (length (pre ++ part :: post)))
     = Ret (Some (basename part),
            match find (fun t => negb (startsWith (ch "-") t || includes (ch "=") t))
                       post with
            | Some t => if test re_name t then Some t else None
            | None => None
            end)) /\
  (forall executables segment pre part post sub,
     trim segment <> [] ->
     test re_marker_line (trim segment) = false ->
     split re_spaces (trim segment) = pre ++ part :: post ->
     Forall (fun p => skipped p = true \/ name_ok (basename p) = false) pre ->
     skipped part = false ->
     name_ok (basename part) = true ->
     In (basename part) SUBCOMMAND_EXECUTABLES ->
     find (fun t => negb (startsWith (ch "-") t || includes (ch "=") t)) post
       = Some sub ->
     test re_name sub = true ->
     scan_segment executables segment
     = Ret (if arr_includes executables (basename part ++ ch " " :: sub)
            then executables
            else executables ++ [basename part ++ ch " " :: sub])) /\
  extractExecutables (js "sudo docker ps -a") = Ret [js "docker ps"] /\
  extractExecutables (js "echo hello && npm run build")
    = Ret [js "echo"; js "npm run"].
Proof.
  assert (Found : forall pre part post,
     Forall (fun p => skipped p = true \/ name_ok (basename p) = false) pre ->
     skipped part = false ->
     name_ok (basename part) = true ->
     In (basename part) SUBCOMMAND_EXECUTABLES ->
     parts_found (pre ++ part :: post)
     = (Some (basename part), subcommand_of post)).
  { intros pre part post Hpre Hs Hn Hin.
    rewrite parts_found_passed by assumption.
    rewrite parts_found_cons, Hs, Hn.
    apply arr_includes_In in Hin. rewrite Hin. reflexivity. }
  split; [|split; [|split; vm_compute; reflexivity]].
  - intros pre part post Hpre Hs Hn Hin.
    rewrite parts_loop_spec by lia. cbn [skipn].
    apply f_equal. apply Found; assumption.
  - intros executables segment pre part post sub Ht Hm Hsplit Hpre Hs Hn Hin
      Hfind Hsub.
    rewrite scan_segment_spec. unfold segment_identity.
    destruct (trim segment) as [|x t] eqn:Et; [congruence|].
    rewrite Hm, Hsplit, (Found pre part post Hpre Hs Hn Hin).
    unfold subcommand_of. rewrite Hfind, Hsub.
    apply test_re_name in Hsub. destruct Hsub as [Hne _].
    destruct sub as [|y sub]; [congruence|].
    unfold push, exec_id. cbn [truthy].
    destruct (arr_includes executables (basename part ++ ch " " :: y :: sub));
      reflexivity.
Qed.

Lemma subcommand_identity_witness :
  parts_loop [js "sudo"; js "/usr/bin/git"; js "-C"; js "x=y"; js "push"; js "origin"]
    0 None None 7
  = Ret (Some (js "git"), Some (js "push")) /\
  scan_segment [js "ls"] (js "  sudo /usr/bin/git -C x=y push origin ")
  = Ret [js "ls"; js "git push"].
Proof.
  split.
  - apply (proj1 subcommand_identity [js "sudo"] (js "/usr/bin/git")
             [js "-C"; js "x=y"; js "push"; js "origin"]).
    + repeat constructor.
    + vm_compute; reflexivity.
    + vm_compute; reflexivity.
    + vm_compute; auto.
  - apply (proj1 (proj2 subcommand_identity) [js "ls"]
             (js "  sudo /usr/bin/git -C x=y push origin ")
             [js "sudo"] (js "/usr/bin/git")
             [js "-C"; js "x=y"; js "push"; js "origin"] (js "push")).
    + vm_compute; discriminate.
    + vm_compute; reflexivity.
    + vm_compute; reflexivity.
    + repeat constructor.
    + vm_compute; reflexivity.
    + vm_compute; reflexivity.
    + vm_compute; auto.
    + vm_compute; reflexivity.
    + vm_compute; reflexivity.
Defined.

(** C9, the claim as stated fails: in [echo ';rm <<X'] the single-quoted
    span is balanced and [rm] is named inside it only, yet [rm] is reported:
    the removal of heredocs runs before the removal of the literals and
    cuts the command at [<<X], the opening quote is left without a partner
    and the span is not emptied.  So it is in the example of the claim,
    where the literal is cut at [<<EOF]. *)
Lemma quoted_span_cut_by_heredoc_removal :
  extractExecutables (js "echo " ++ squote :: js ";rm <<X" ++ [squote])
  = Ret [js "echo"; js "rm"] /\
  clean (js "echo " ++ squote :: js ";rm <<X" ++ [squote])
  = js "echo " ++ squote :: js ";rm " /\
  extractExecutables (js "echo " ++ squote :: [] ++ [squote]) = Ret [js "echo"] /\
  balanced_upto squote (js "echo ") = true /\
  free_of (quotes_upto squote) (js ";rm <<X") = true /\
  clean cmd_commit = js "git commit -m 'fix: handles ".
Proof. repeat split; vm_compute; reflexivity. Qed.

(** C9, amended. The string-literal removal is three passes, for the
    double quote, the single quote and the back-tick in turn, each of which
    pairs each quote with the next one of its type and keeps the two quotes
    of a pair without what is between them.  It works on what the removal
    of heredocs, which runs first, leaves of the command: a balanced span
    of that text (the text before it is balanced for the pass of its quote
    and for the passes before it, and no quote of these passes is in the
    span) has its contents replaced by the empty span before the scan, so
    that the cleaned command and the output do not depend on the contents
    and a command named in the span only is not reported.  So it is for
    every balanced span of an input without [<<].  And
    [git commit -m 'fix: handles <<EOF markers'] gives [git commit]. *)
Theorem quoted_span_neutralized :
  (forall s,
     strip_literals s
     = neutralized bquote false
         (neutralized squote false (neutralized dquote false s))) /\
  (forall q pre body post,
     In q quotes -> mem_char q pre = false -> mem_char q body = false ->
     replace_all (re_quoted q) [q; q] (pre ++ q :: body ++ q :: post)
     = pre ++ q :: q :: replace_all (re_quoted q) [q; q] post) /\
  (forall command q pre body post,
     In q quotes ->
     strip_heredocs command = pre ++ q :: body ++ q :: post ->
     balanced_upto q pre = true ->
     free_of (quotes_upto q) body = true ->
     clean command = strip_redirections (strip_literals (pre ++ q :: q :: post))) /\
  (forall command1 command2 q pre body1 body2 post,
     In q quotes ->
     strip_heredocs command1 = pre ++ q :: body1 ++ q :: post ->
     strip_heredocs command2 = pre ++ q :: body2 ++ q :: post ->
     balanced_upto q pre = true ->
     free_of (quotes_upto q) body1 = true ->
     free_of (quotes_upto q) body2 = true ->
     clean command1 = clean command2 /\
     extractExecutables command1 = extractExecutables command2) /\
  (forall q pre body post,
     In q quotes ->
     balanced_upto q pre = true ->
     free_of (quotes_upto q) body = true ->
     has_ltlt pre = false -> has_ltlt body = false -> has_ltlt post = false ->
     extractExecutables (pre ++ q :: body ++ q :: post)
     = extractExecutables (pre ++ q :: q :: post)) /\
  extractExecutables cmd_commit = Ret [js "git commit"].
Proof.
  assert (Span : forall command q pre body post,
     In q quotes ->
     strip_heredocs command = pre ++ q :: body ++ q :: post ->
     balanced_upto q pre = true ->
     free_of (quotes_upto q) body = true ->
     clean command = strip_redirections (strip_literals (pre ++ q :: q :: post))).
  { intros command q pre body post Hq E Hpre Hbody. unfold clean.
    rewrite E, strip_literals_span by assumption. reflexivity. }
  split; [exact strip_literals_spec|].
  split; [|split; [exact Span|split; [|split; [|vm_compute; reflexivity]]]].
  - intros q pre body post _ Hpre Hbody.
    rewrite !replace_all_quoted. apply neutralized_same_span; assumption.
  - intros command1 command2 q pre body1 body2 post Hq E1 E2 Hpre Hb1 Hb2.
    assert (E : clean command1 = clean command2).
    { rewrite (Span command1 q pre body1 post), (Span command2 q pre body2 post)
        by assumption. reflexivity. }
    split; [assumption|].
    unfold extractExecutables, segments_of. rewrite E. reflexivity.
  - intros q pre body post Hq Hpre Hbody L1 L2 L3.
    destruct (quotes_not_lt_gt q Hq) as [Q1 _].
    unfold extractExecutables, segments_of, clean.
    rewrite !strip_heredocs_no_ltlt.
    + rewrite strip_literals_span by assumption. reflexivity.
    + rewrite has_ltlt_sep by assumption.
      change (q :: post) with ([] ++ q :: post).
      rewrite has_ltlt_sep by assumption. rewrite L1, L3. reflexivity.
    + rewrite !has_ltlt_sep by assumption. rewrite L1, L2, L3. reflexivity.
Qed.

Lemma quoted_span_neutralized_witness :
  let pre := js "echo " ++ dquote :: js "it's" ++ dquote :: js " > out; echo " in
  let body := js "rm -rf x; curl `y`" in
  let post := js " && ls" in
  replace_all (re_quoted squote) [squote; squote]
    (js "echo " ++ squote :: body ++ squote :: post)
  = js "echo " ++ squote :: squote
      :: replace_all (re_quoted squote) [squote; squote] post /\
  clean (js "cat <<A" ++ nl :: js "x" ++ nl :: js "A" ++ nl :: js "echo "
         ++ squote :: js "rm y" ++ squote :: js "; ls")
  = strip_redirections
      (strip_literals
         ((js "cat " ++ nl :: js "echo ") ++ squote :: squote :: js "; ls")) /\
  extractExecutables
    (js "cat <<A" ++ nl :: js "x" ++ nl :: js "A" ++ nl :: js "echo "
     ++ squote :: js "rm y" ++ squote :: js "; ls")
  = extractExecutables (js "cat " ++ nl :: js "echo " ++ squote :: js "id"
                        ++ squote :: js "; ls") /\
  extractExecutables (pre ++ squote :: body ++ squote :: post)
  = extractExecutables (pre ++ squote :: squote :: post).
Proof.
  intros pre body post. split; [|split; [|split]].
  - apply (proj1 (proj2 quoted_span_neutralized) squote (js "echo ") body post);
      vm_compute; auto.
  - apply (proj1 (proj2 (proj2 quoted_span_neutralized)) _ squote _ (js "rm y"));
      vm_compute; auto.
  - apply (proj1 (proj2 (proj2 (proj2 quoted_span_neutralized)))
             _ _ squote (js "cat " ++ nl :: js "echo ") (js "rm y") (js "id")
             (js "; ls")); vm_compute; auto.
  - apply (proj1 (proj2 (proj2 (proj2 (proj2 quoted_span_neutralized))))
             squote pre body post); vm_compute; auto.
Defined.

(** C10, the claim as stated fails: in [echo \x22unclosed 'a; rm x; b'] the
    double quote has no later double quote, yet the text after it is not
    left in place (the pass of the single quote empties the span after it)
    and [rm], named after it, is not extracted; and in [\x22rm x] the
    executable [rm], named after the quote, is not extracted: the part that
    holds the quote, [\x22rm], has no name for basename, and [x] is
    reported. *)
Lemma unmatched_quote_text_not_kept :
  mem_char dquote (js "unclosed 'a; rm x; b'") = false /\
  strip_literals (js "echo " ++ dquote :: js "unclosed 'a; rm x; b'")
  = js "echo " ++ dquote :: js "unclosed ''" /\
  extractExecutables (js "echo " ++ dquote :: js "unclosed 'a; rm x; b'")
  = Ret [js "echo"] /\
  extractExecutables (dquote :: js "rm x") = Ret [js "x"].
Proof. repeat split; vm_compute; reflexivity. Qed.

(** C10, amended. The string-literal removal takes pairs of quotes only:
    after a quote with no later quote of its type, the pass of that type
    leaves all in place, and a quote that is alone of its type is left in
    place too; when the text after the quote holds no quote at all, the
    three passes leave the quote and the text after it in place.  The
    commands after such a quote are scanned: when the text around the quote
    has no other quote, no [<] and no [>], the identities of what follows
    the next separator, if it does not hold the quote, are reported as they
    are for it alone.  (The word that holds the quote is no name and is not
    reported.)  And [echo \x22unclosed; rm x] gives [echo] and [rm]. *)
Theorem unmatched_quote_text_kept :
  (forall q pre, exists kept, forall rest,
     mem_char q rest = false ->
     replace_all (re_quoted q) [q; q] (pre ++ q :: rest) = kept ++ q :: rest) /\
  (forall q pre rest,
     mem_char q pre = false -> mem_char q rest = false ->
     replace_all (re_quoted q) [q; q] (pre ++ q :: rest) = pre ++ q :: rest) /\
  (forall q pre rest,
     free_of quotes rest = true ->
     exists kept, strip_literals (pre ++ q :: rest) = kept ++ q :: rest) /\
  (forall q pre rest sep b,
     In q quotes -> plain pre = true -> plain rest = true ->
     is_separator sep = true -> mem_char q b = false ->
     exists la lb,
       extractExecutables (pre ++ q :: rest) = Ret la /\
       extractExecutables b = Ret lb /\
       extractExecutables ((pre ++ q :: rest) ++ sep :: b)
       = Ret (dedup (la ++ lb))) /\
  extractExecutables cmd_unclosed = Ret [js "echo"; js "rm"].
Proof.
  split; [|split; [|split; [|split; [|vm_compute; reflexivity]]]].
  - intros q pre. destruct (neutralized_after_last q pre false) as [kept K].
    exists kept. intros rest Hr. rewrite replace_all_quoted. apply K. assumption.
  - intros q pre rest Hpre Hrest. rewrite replace_all_quoted.
    rewrite neutralized_keep, neutralized_unmatched by assumption. reflexivity.
  - intros q pre rest Hrest. apply strip_literals_last_quote. assumption.
  - intros q pre rest sep b Hq Hpre Hrest Hsep Hb.
    exists (dedup (segment_ids (pre ++ q :: rest))), (dedup (segment_ids b)).
    split; [apply extractExecutables_spec|].
    split; [apply extractExecutables_spec|].
    rewrite extractExecutables_spec, dedup_app_dedup. f_equal. f_equal.
    unfold segment_ids, segments_of.
    rewrite clean_after_one_quote, (clean_one_quote q pre rest) by assumption.
    rewrite !split_runs by apply segment_identity_nil.
    rewrite runs_join by assumption. apply filter_map_app.
Qed.

Lemma unmatched_quote_text_kept_witness :
  let pre := js "echo " in
  let rest := js "unclosed" in
  let b := js " rm 'x' 2>/dev/null" in
  replace_all (re_quoted dquote) [dquote; dquote] (pre ++ dquote :: rest)
  = pre ++ dquote :: rest /\
  (exists kept,
     strip_literals ((js "echo 'a' " ++ pre) ++ dquote :: rest)
     = kept ++ dquote :: rest) /\
  exists la lb,
    extractExecutables (pre ++ dquote :: rest) = Ret la /\
    extractExecutables b = Ret lb /\
    extractExecutables ((pre ++ dquote :: rest) ++ ch "|" :: b)
    = Ret (dedup (la ++ lb)).
Proof.
  intros pre rest b. split; [|split].
  - apply (proj1 (proj2 unmatched_quote_text_kept) dquote pre rest);
      vm_compute; reflexivity.
  - apply (proj1 (proj2 (proj2 unmatched_quote_text_kept))
             dquote (js "echo 'a' " ++ pre) rest).
    vm_compute. reflexivity.
  - apply (proj1 (proj2 (proj2 (proj2 unmatched_quote_text_kept)))
             dquote pre rest (ch "|") b); vm_compute; auto.
Defined.

(** * Further properties

    Properties of the stages of the function: the removal of heredocs and
    of redirections, the segmentation, the words of a segment and the scan
    of the words, and how they compose. *)

(** X1. Commands in a sequence or a pipeline are scanned one by one: when
    [a] has no [<], no [>] and no quote, the output for [a], one of the
    separators [;], [&], [|] or a line feed, and then any [b], is the output
    for [a] followed by the output for [b], without the later occurrences.
    What [b] holds (heredocs, string literals, redirections, further
    separators) has no effect on what is found in [a]. *)
Theorem extract_sequence a sep b la lb :
  plain a = true -> is_separator sep = true ->
  extractExecutables a = Ret la -> extractExecutables b = Ret lb ->
  extractExecutables (a ++ sep :: b) = Ret (dedup (la ++ lb)).
Proof.
  intros Ha Hsep. rewrite !extractExecutables_spec. intros Ea Eb.
  injection Ea as <-. injection Eb as <-.
  rewrite segment_ids_sequence by assumption.
  rewrite dedup_app_dedup. reflexivity.
Qed.

Lemma extract_sequence_witness :
  extractExecutables
    (js "ls -l1" ++ ch "|" :: js "| grep 'a;b' 2>/dev/null")
  = Ret (dedup ([js "ls"] ++ [js "grep"])).
Proof.
  apply (extract_sequence (js "ls -l1") (ch "|") (js "| grep 'a;b' 2>/dev/null"));
    vm_compute; reflexivity.
Defined.

(** X2. White space and separators before a command are ignored: the
    output for [ws] followed by [b], where [ws] is made of white space, [;],
    [&], [|] and line feeds, is the output for [b]. *)
Theorem extract_leading_blank ws b :
  forallb (fun c => (is_space c || is_separator c)%bool) ws = true ->
  extractExecutables (ws ++ b) = extractExecutables b.
Proof.
  intros H. rewrite !extractExecutables_spec. f_equal. f_equal.
  unfold segment_ids, segments_of.
  destruct (blank_plain ws H) as [Hp Hd].
  rewrite clean_plain_prefix by assumption.
  rewrite !split_runs by apply segment_identity_nil.
  apply runs_blank_first. assumption.
Qed.

Lemma extract_leading_blank_witness :
  extractExecutables (js " ;; " ++ js "git status")
  = extractExecutables (js "git status").
Proof.
  apply (extract_leading_blank (js " ;; ") (js "git status")).
  vm_compute. reflexivity.
Defined.

(** X3. A segment of capital letters only is taken for the marker of a
    heredoc and skipped (line 45): a command of capital letters gives the
    empty list, and such a segment between two separators can be left out of
    a command without a change of the output. *)
Theorem uppercase_segment_skipped :
  (forall w, forallb is_upper w = true -> extractExecutables w = Ret []) /\
  (forall a sep1 w sep2 b,
     plain a = true -> is_separator sep1 = true -> is_separator sep2 = true ->
     forallb is_upper w = true ->
     extractExecutables (a ++ sep1 :: w ++ sep2 :: b)
     = extractExecutables (a ++ sep1 :: b)).
Proof.
  split.
  - intros w H. rewrite extractExecutables_spec, segment_ids_upper by assumption.
    reflexivity.
  - intros a sep1 w sep2 b Ha H1 H2 Hw. rewrite !extractExecutables_spec.
    rewrite !(segment_ids_sequence a sep1) by assumption.
    rewrite (segment_ids_sequence w sep2).
    + rewrite (segment_ids_upper w) by assumption. reflexivity.
    + apply plain_intro. rewrite forallb_forall in Hw.
      intros y Hy. apply upper_char. auto.
    + assumption.
Qed.

Lemma uppercase_segment_skipped_witness :
  extractExecutables (js "MAKE") = Ret [] /\
  extractExecutables (js "ls" ++ nl :: js "EOF" ++ nl :: js "cat x")
  = extractExecutables (js "ls" ++ nl :: js "cat x").
Proof.
  split.
  - apply (proj1 uppercase_segment_skipped). reflexivity.
  - apply (proj2 uppercase_segment_skipped); reflexivity.
Defined.

(** X4. Only the six executables of SUBCOMMAND_EXECUTABLES are reported
    with a subcommand: an identity of the output with a space in it is one
    of [git], [npm], [yarn], [pnpm], [docker], [kubectl], a space and a
    name. *)
Theorem compound_identity_executable command ids id :
  extractExecutables command = Ret ids -> In id ids ->
  mem_char (ch " ") id = true ->
  exists e sub,
    id = e ++ ch " " :: sub /\ In e SUBCOMMAND_EXECUTABLES /\
    sub <> [] /\ forallb is_name sub = true.
Proof.
  rewrite extractExecutables_spec. intros E Hin Hsp. injection E as <-.
  apply (proj1 (dedup_In _ _)) in Hin. unfold segment_ids in Hin.
  apply (proj1 (filter_map_In _ _ _)) in Hin. destruct Hin as (segment & _ & Hid).
  unfold segment_identity in Hid.
  destruct (trim segment) as [|x t]; [discriminate|].
  destruct (test re_marker_line (x :: t)); [discriminate|].
  destruct (parts_found (split re_spaces (x :: t))) as [[e|] sub] eqn:Ep;
    [|discriminate].
  injection Hid as <-.
  pose proof (parts_found_name _ _ _ Ep) as He.
  apply name_ok_iff in He. destruct He as [_ He].
  destruct sub as [[|y u]|].
  - cbn in Hsp. rewrite name_no_space in Hsp by assumption. discriminate.
  - exists e, (y :: u). split; [reflexivity|].
    split; [apply arr_includes_In; eapply parts_found_subcommand; eassumption|].
    pose proof (parts_found_sub _ _ _ _ Ep eq_refl) as Hu.
    apply test_re_name in Hu. assumption.
  - cbn in Hsp. rewrite name_no_space in Hsp by assumption. discriminate.
Qed.

Lemma compound_identity_executable_witness :
  exists e sub,
    js "npm run" = e ++ ch " " :: sub /\ In e SUBCOMMAND_EXECUTABLES /\
    sub <> [] /\ forallb is_name sub = true.
Proof.
  apply (compound_identity_executable (js "echo hello && npm run build")
           [js "echo"; js "npm run"] (js "npm run")).
  - vm_compute. reflexivity.
  - simpl. tauto.
  - vm_compute. reflexivity.
Defined.

(** X5. The parts of a segment are its words, the maximal runs of code
    units that are no white space: after [trim], [split(/\s+/)] gives at
    least one part, no part is empty and no part holds white space (so the
    test for an empty part, line 67, never applies to a part of a segment). *)
Theorem parts_are_words segment :
  trim segment <> [] ->
  split re_spaces (trim segment) = fields [] segment /\
  split re_spaces (trim segment) <> [] /\
  Forall (fun part => part <> [] /\
                      forallb (fun c => negb (is_space c)) part = true)
    (split re_spaces (trim segment)).
Proof.
  intros H. rewrite split_spaces_fields by assumption.
  split; [reflexivity|]. split.
  - apply fields_trim_nonempty. assumption.
  - apply fields_words. reflexivity.
Qed.

Lemma parts_are_words_witness :
  split re_spaces (trim (js "  sudo   docker ps  "))
  = fields [] (js "  sudo   docker ps  ") /\
  split re_spaces (trim (js "  sudo   docker ps  ")) <> [] /\
  Forall (fun part => part <> [] /\
                      forallb (fun c => negb (is_space c)) part = true)
    (split re_spaces (trim (js "  sudo   docker ps  "))).
Proof.
  apply (parts_are_words (js "  sudo   docker ps  ")).
  vm_compute. discriminate.
Defined.

(** X6. A command of one segment that the removals leave as it is (no
    separator, no [<], no [>], no quote) and that is not made of capital
    letters only has the identity that the scan of lines 54-94 finds in its
    words, or none: removal, segmentation, trimming and splitting compose to
    the scan of the words of the command. *)
Theorem extract_simple_command command :
  plain command = true ->
  forallb (fun c => negb (is_separator c)) command = true ->
  test re_marker_line (trim command) = false ->
  extractExecutables command = Ret (words_identity (fields [] command)).
Proof.
  intros Hp Hs Hm. rewrite extractExecutables_spec.
  rewrite segment_ids_simple, Hm by assumption.
  unfold words_identity.
  destruct (parts_found (fields [] command)) as [[e|] sub]; reflexivity.
Qed.

Lemma extract_simple_command_witness :
  extractExecutables (js "env FOO=1 /usr/bin/git -C . log --oneline")
  = Ret (words_identity (fields [] (js "env FOO=1 /usr/bin/git -C . log --oneline"))).
Proof.
  apply (extract_simple_command (js "env FOO=1 /usr/bin/git -C . log --oneline"));
    vm_compute; reflexivity.
Defined.

(** X7. A word that the scan passes over (an assignment, a flag, one of
    [sudo], [env], [nohup], [nice], [time], [command], [true], [false], a
    shell keyword, parentheses) in front of a command changes nothing, when
    the whole has no separator, no [<], no [>] and no quote: the output for
    the word, white space and [rest] is the output for [rest], unless
    [rest] is made of capital letters only (then [rest] alone gives nothing,
    line 45, and may be reported after the word). *)
Theorem skipped_word_transparent p sp rest :
  forallb (fun c => negb (is_space c)) p = true ->
  is_space sp = true ->
  plain (p ++ sp :: rest) = true ->
  forallb (fun c => negb (is_separator c)) (p ++ sp :: rest) = true ->
  skipped p = true ->
  test re_marker_line (trim rest) = false ->
  extractExecutables (p ++ sp :: rest) = extractExecutables rest.
Proof.
  intros Hp Hsp Hpl Hsep Hsk Hm. rewrite !extractExecutables_spec.
  f_equal. f_equal.
  assert (Hpl' : plain rest = true)
    by (apply (plain_suffix (p ++ [sp])); rewrite <- app_assoc; assumption).
  assert (Hsep' : forallb (fun c => negb (is_separator c)) rest = true).
  { rewrite forallb_app in Hsep. apply andb_prop in Hsep.
    destruct Hsep as [_ Hsep]. cbn [forallb] in Hsep.
    apply andb_prop in Hsep. tauto. }
  rewrite !segment_ids_simple by assumption. rewrite Hm.
  assert (Hf : words_identity (fields [] (p ++ sp :: rest))
               = words_identity (fields [] rest)).
  { destruct p as [|x p].
    - cbn [app fields]. rewrite Hsp. reflexivity.
    - rewrite fields_word by (assumption || discriminate).
      unfold words_identity. cbn [rev app]. rewrite parts_found_cons, Hsk.
      reflexivity. }
  destruct (test re_marker_line (trim (p ++ sp :: rest))) eqn:Em;
    [|assumption].
  destruct (trim rest) as [|y u] eqn:Er.
  - rewrite <- Hf. destruct p as [|x p].
    + cbn [app fields]. rewrite Hsp, (fields_trim_nil rest Er). reflexivity.
    + rewrite fields_word by (assumption || discriminate).
      rewrite (fields_trim_nil rest Er). unfold words_identity.
      cbn [rev app]. rewrite parts_found_cons, Hsk. reflexivity.
  - exfalso. destruct p as [|x p].
    + cbn [app] in Em. rewrite trim_space_cons in Em by assumption. congruence.
    + apply test_marker_line_upper in Em. destruct Em as [Hne Hup].
      assert (Hone : fields [] (trim ((x :: p) ++ sp :: rest))
                     = [trim ((x :: p) ++ sp :: rest)]).
      { apply fields_one_word; [|assumption].
        apply (forallb_impl_false is_upper); [intros; apply upper_char|];
          assumption. }
      rewrite fields_trim, fields_word in Hone by (assumption || discriminate).
      injection Hone as _ Hrest.
      apply (fields_trim_nonempty rest); [rewrite Er; discriminate | assumption].
Qed.

Lemma skipped_word_transparent_witness :
  extractExecutables (js "NODE_ENV=production" ++ ch " " :: js "npm run build")
  = extractExecutables (js "npm run build").
Proof.
  apply (skipped_word_transparent (js "NODE_ENV=production") (ch " ")
           (js "npm run build")); vm_compute; reflexivity.
Defined.

(** X8. Each segment gives one identity at most, and the removals add no
    separator: the output has no more elements than the command has
    separators [;], [&], [|] and line feeds, plus one.  A command without a
    separator has one identity or none. *)
Theorem identities_bound command ids :
  extractExecutables command = Ret ids ->
  length ids <= S (length (filter is_separator command)).
Proof.
  rewrite extractExecutables_spec. intros E. injection E as <-.
  etransitivity; [apply dedup_length|].
  unfold segment_ids, segments_of.
  rewrite split_runs by apply segment_identity_nil.
  etransitivity; [apply filter_map_length|].
  etransitivity; [apply runs_length|].
  apply le_n_S, clean_separators.
Qed.

Lemma identities_bound_witness :
  length [js "echo"; js "npm run"]
  <= S (length (filter is_separator (js "echo hello && npm run build"))).
Proof.
  apply (identities_bound (js "echo hello && npm run build")).
  vm_compute. reflexivity.
Defined.

(** X9. File-descriptor duplications are removed (line 33): [N>&M], [>&M],
    [N>M] and [>M], after a text without [<], [>] and quotes that ends in no
    digit and before the end of the command or a code unit that is no
    digit, [<], [>] or quote, leave the cleaned command and the output as
    they are without them. *)
Theorem fd_duplication_removed pre d amp d2 tail :
  plain pre = true -> no_digit_end pre = true ->
  forallb is_digit d = true -> amp = [] \/ amp = [ch "&"] ->
  d2 <> [] -> forallb is_digit d2 = true ->
  stops_at quiet_char tail = true ->
  clean (pre ++ d ++ c_gt :: amp ++ d2 ++ tail) = clean (pre ++ tail) /\
  extractExecutables (pre ++ d ++ c_gt :: amp ++ d2 ++ tail)
  = extractExecutables (pre ++ tail).
Proof.
  intros Hp Hde Hd Hamp Hne Hd2 Ht.
  assert (Hclean : clean (pre ++ d ++ c_gt :: amp ++ d2 ++ tail) = clean (pre ++ tail)).
  { destruct (plain_parts pre Hp) as (Hp1 & _ & Hp3).
    destruct (digits_plain_parts d Hd) as [Hd1 Hd3].
    destruct (digits_plain_parts d2 Hd2) as [Hd21 Hd23].
    assert (Ha1 : mem_char c_lt amp = false) by (destruct Hamp as [->| ->]; reflexivity).
    assert (Ha3 : free_of quotes amp = true) by (destruct Hamp as [->| ->]; reflexivity).
    set (R := d ++ c_gt :: amp ++ d2).
    assert (HR1 : mem_char c_lt (pre ++ R) = false).
    { unfold R. rewrite !mem_char_app. cbn [mem_char]. rewrite mem_char_app.
      rewrite Hp1, Hd1, Ha1, Hd21. reflexivity. }
    assert (HR3 : free_of quotes (pre ++ R) = true).
    { unfold R. rewrite !free_of_app.
      change (c_gt :: amp ++ d2) with ([c_gt] ++ amp ++ d2).
      rewrite !free_of_app. rewrite Hp3, Hd3, Ha3, Hd23. reflexivity. }
    replace (pre ++ d ++ c_gt :: amp ++ d2 ++ tail) with ((pre ++ R) ++ tail)
      by (unfold R; rewrite <- !app_assoc; cbn [app]; rewrite <- app_assoc; reflexivity).
    unfold clean.
    rewrite !strip_heredocs_keep, !strip_literals_keep by assumption.
    pose proof (literal_passes_stop quiet_char tail (fun x H => H) Ht) as HT.
    set (T := strip_literals (strip_heredocs tail)) in *.
    unfold strip_redirections. do 2 f_equal.
    rewrite <- app_assoc.
    rewrite (removal_keeps_plain_prefix re_fd_dup [] pre (R ++ T)),
      (removal_keeps_plain_prefix re_fd_dup [] pre T)
      by (simpl; tauto || assumption).
    f_equal. apply (replace_all_match re_fd_dup R T).
    - reflexivity.
    - unfold R. intros E. apply app_eq_nil in E. destruct E as [_ E].
      discriminate.
    - intros n0. unfold R. rewrite <- app_assoc. cbn [app]. rewrite <- app_assoc.
      apply match_at_fd_dup; try assumption.
      apply (stops_drop_while quiet_char); [apply quiet_not_digit | assumption]. }
  split; [assumption | apply extract_clean; assumption].
Qed.

Lemma fd_duplication_removed_witness :
  clean (js "make " ++ js "2" ++ c_gt :: js "&" ++ js "1" ++ js " | tee log")
  = clean (js "make " ++ js " | tee log") /\
  extractExecutables
    (js "make " ++ js "2" ++ c_gt :: js "&" ++ js "1" ++ js " | tee log")
  = extractExecutables (js "make " ++ js " | tee log").
Proof.
  apply (fd_duplication_removed (js "make ") (js "2") (js "&") (js "1")
           (js " | tee log")); try reflexivity.
  - right. reflexivity.
  - discriminate.
Defined.

(** X10. Redirections of a numbered file descriptor are removed with their
    target (lines 34-35): [N>>target] and [N>target], where the target is
    the run of code units up to the next white space or the end of the
    command, separators included.  Here the target has no [<], no [>] and no
    quote and starts with no digit and no [&], and the text before the
    redirection has no [<], [>] or quote and ends in no digit. *)
Theorem numbered_redirection_removed pre d gt2 target tail :
  plain pre = true -> no_digit_end pre = true ->
  d <> [] -> forallb is_digit d = true ->
  gt2 = [] \/ gt2 = [c_gt] ->
  target <> [] -> plain target = true ->
  forallb (fun c => negb (is_space c)) target = true ->
  stops_at (fun y => negb (is_digit y || N.eqb (ch "&") y)) target = true ->
  stops_at is_space tail = true ->
  clean (pre ++ d ++ c_gt :: gt2 ++ target ++ tail) = clean (pre ++ tail) /\
  extractExecutables (pre ++ d ++ c_gt :: gt2 ++ target ++ tail)
  = extractExecutables (pre ++ tail).
Proof.
  intros Hp Hde Hne Hd Hgt Hnt Hpt Hst Hy Htail.
  assert (Hclean : clean (pre ++ d ++ c_gt :: gt2 ++ target ++ tail)
                   = clean (pre ++ tail)).
  { destruct (plain_parts pre Hp) as (Hp1 & _ & Hp3).
    destruct (plain_parts target Hpt) as (Ht1 & Ht2 & Ht3).
    destruct (digits_plain_parts d Hd) as [Hd1 Hd3].
    assert (Hg1 : mem_char c_lt gt2 = false) by (destruct Hgt as [->| ->]; reflexivity).
    assert (Hg3 : free_of quotes gt2 = true) by (destruct Hgt as [->| ->]; reflexivity).
    set (R := d ++ c_gt :: gt2 ++ target).
    assert (HR1 : mem_char c_lt (pre ++ R) = false).
    { unfold R. rewrite !mem_char_app. cbn [mem_char]. rewrite mem_char_app.
      rewrite Hp1, Hd1, Hg1, Ht1. reflexivity. }
    assert (HR3 : free_of quotes (pre ++ R) = true).
    { unfold R. rewrite !free_of_app.
      change (c_gt :: gt2 ++ target) with ([c_gt] ++ gt2 ++ target).
      rewrite !free_of_app. rewrite Hp3, Hd3, Hg3, Ht3. reflexivity. }
    replace (pre ++ d ++ c_gt :: gt2 ++ target ++ tail) with ((pre ++ R) ++ tail)
      by (unfold R; rewrite <- !app_assoc; cbn [app]; rewrite <- app_assoc; reflexivity).
    unfold clean.
    rewrite !strip_heredocs_keep, !strip_literals_keep by assumption.
    pose proof (literal_passes_stop is_space tail space_quiet Htail) as HT.
    set (T := strip_literals (strip_heredocs tail)) in *.
    clearbody T. clear tail Htail.
    unfold strip_redirections.
    rewrite !(replace_all_loop _ _ _ 0) by reflexivity.
    pose proof (pass_stops re_fd_dup [] is_space T
                  ltac:(simpl; tauto) space_quiet HT) as HT1.
    rewrite (replace_all_loop _ _ _ 0) in HT1 by reflexivity.
    set (T1 := replace_loop 0 re_fd_dup [] 0 T) in *.
    pose proof (pass_stops re_fd_append [] is_space T1
                  ltac:(simpl; tauto) space_quiet HT1) as HT2.
    rewrite (replace_all_loop _ _ _ 0) in HT2 by reflexivity.
    set (T2 := replace_loop 0 re_fd_append [] 0 T1) in *.
    rewrite (replace_loop_plain_prefix 0 re_fd_dup [] pre T)
      by (first [assumption | simpl; tauto]).
    fold T1.
    rewrite (replace_loop_plain_prefix 0 re_fd_append [] pre T1)
      by (first [assumption | simpl; tauto]).
    fold T2.
    rewrite (replace_loop_plain_prefix 0 re_fd_write [] pre T2)
      by (first [assumption | simpl; tauto]).
    rewrite <- app_assoc.
    rewrite (replace_loop_plain_prefix 0 re_fd_dup [] pre (R ++ T))
      by (first [assumption | simpl; tauto]).
    destruct target as [|y t]; [contradiction|].
    cbn [stops_at] in Hy. apply negb_true_iff in Hy.
    apply orb_false_elim in Hy. destruct Hy as [Hy1 Hy2].
    assert (Hy3 : N.eqb c_gt y = false).
    { cbn [mem_char] in Ht2. rewrite N.eqb_sym.
      destruct (N.eqb y c_gt); [discriminate | reflexivity]. }
    assert (Hsp : forall T0, stops_at is_space T0 = true ->
              drop_while (fun c => negb (is_space c)) T0 = T0).
    { intros T0 H0. apply (stops_drop_while is_space); [|assumption].
      intros x Hx. rewrite Hx. reflexivity. }
    destruct Hgt as [->| ->]; unfold R; cbn [app]; rewrite <- ?app_assoc; cbn [app].
    - (* N>target *)
      rewrite (replace_loop_digits_gt 0 re_fd_dup)
        by (assumption || intros; apply match_at_fd_dup_none; assumption).
      change (y :: t ++ T) with ((y :: t) ++ T).
      rewrite (replace_loop_target 0 re_fd_dup [] (y :: t) T) by (first [assumption | simpl; tauto]).
      fold T1.
      rewrite (replace_loop_plain_prefix 0 re_fd_append [] pre)
        by (first [assumption | simpl; tauto]).
      cbn [app].
      rewrite (replace_loop_digits_gt 0 re_fd_append)
        by (assumption || intros; apply match_at_fd_append_none; assumption).
      change (y :: t ++ T1) with ((y :: t) ++ T1).
      rewrite (replace_loop_target 0 re_fd_append [] (y :: t) T1) by (first [assumption | simpl; tauto]).
      fold T2.
      rewrite (replace_loop_plain_prefix 0 re_fd_write [] pre)
        by (first [assumption | simpl; tauto]).
      f_equal.
      change (d ++ c_gt :: (y :: t) ++ T2) with (d ++ [c_gt] ++ (y :: t) ++ T2).
      rewrite !app_assoc. rewrite replace_loop_0_some; [reflexivity| |].
      + intros E. apply app_eq_nil in E. destruct E as [_ E]. discriminate.
      + rewrite <- !app_assoc. cbn [app].
        change (y :: t ++ T2) with ((y :: t) ++ T2).
        apply match_at_fd_write; auto; try discriminate.
    - (* N>>target *)
      rewrite (replace_loop_digits_gt 0 re_fd_dup)
        by (assumption || intros; apply match_at_fd_dup_none; reflexivity || assumption).
      assert (E1 : replace_loop 0 re_fd_dup [] 0 (c_gt :: y :: t ++ T)
                   = c_gt :: replace_loop 0 re_fd_dup [] 0 (y :: t ++ T)).
      { apply (replace_loop_digits_gt 0 re_fd_dup [] [] y (t ++ T)); [|reflexivity].
        intros. apply match_at_fd_dup_none; assumption. }
      rewrite E1.
      change (y :: t ++ T) with ((y :: t) ++ T).
      rewrite (replace_loop_target 0 re_fd_dup [] (y :: t) T) by (first [assumption | simpl; tauto]).
      fold T1. cbn [app].
      rewrite (replace_loop_plain_prefix 0 re_fd_append [] pre)
        by (first [assumption | simpl; tauto]).
      assert (E2 : replace_loop 0 re_fd_append [] 0
                     (d ++ c_gt :: c_gt :: y :: t ++ T1) = T2).
      { change (d ++ c_gt :: c_gt :: y :: t ++ T1)
          with (d ++ [c_gt; c_gt] ++ (y :: t) ++ T1).
        rewrite !app_assoc. rewrite replace_loop_0_some; [reflexivity| |].
        + intros E. apply app_eq_nil in E. destruct E as [_ E]. discriminate.
        + rewrite <- !app_assoc. cbn [app].
          change (y :: t ++ T1) with ((y :: t) ++ T1).
          apply match_at_fd_append; auto; try discriminate. }
      rewrite E2.
      rewrite (replace_loop_plain_prefix 0 re_fd_write [] pre)
        by (first [assumption | simpl; tauto]).
      reflexivity. }
  split; [assumption | apply extract_clean; assumption].
Qed.

Lemma numbered_redirection_removed_witness :
  clean (js "ls " ++ js "2" ++ c_gt :: [] ++ js "/dev/null;rm" ++ js " x")
  = clean (js "ls " ++ js " x") /\
  extractExecutables
    (js "ls " ++ js "2" ++ c_gt :: [] ++ js "/dev/null;rm" ++ js " x")
  = extractExecutables (js "ls " ++ js " x").
Proof.
  apply (numbered_redirection_removed (js "ls ") (js "2") [] (js "/dev/null;rm")
           (js " x")); try reflexivity.
  - discriminate.
  - left. reflexivity.
  - discriminate.
Defined.

(** X11. A terminated heredoc is removed with its body (line 21): after a
    text without [<], the heredoc from [<<] (white space, an optional quote,
    the marker word, the rest of the line and a body none of whose lines
    starts with the marker) to the line that holds the marker, white space
    after it included, leaves the cleaned command and the output as they
    are without it, when the command ends there or goes on with a line feed
    and a line that starts with no white space. *)
Theorem terminated_heredoc_removed pre sp oq w mid ws rest :
  mem_char c_lt pre = false ->
  forallb is_space sp = true ->
  forallb is_quote12 oq = true -> length oq <= 1 ->
  w <> [] -> forallb is_word w = true ->
  stops_at (fun x => negb (is_word x)) mid = true ->
  no_marker_line w mid = true ->
  forallb is_space ws = true ->
  next_line rest = true ->
  clean (pre ++ c_lt :: c_lt :: sp ++ oq ++ w ++ mid ++ nl :: w ++ ws ++ rest)
  = clean (pre ++ rest) /\
  extractExecutables
    (pre ++ c_lt :: c_lt :: sp ++ oq ++ w ++ mid ++ nl :: w ++ ws ++ rest)
  = extractExecutables (pre ++ rest).
Proof.
  intros Hpre Hsp Hoq Hlen Hne Hw Hmid Hbody Hws Hrest.
  set (Hb := c_lt :: c_lt :: sp ++ oq ++ w ++ mid ++ nl :: w ++ ws).
  assert (Eq : pre ++ c_lt :: c_lt :: sp ++ oq ++ w ++ mid ++ nl :: w ++ ws ++ rest
               = pre ++ Hb ++ rest).
  { unfold Hb. cbn [app]. rewrite <- !app_assoc. cbn [app].
    rewrite <- !app_assoc. reflexivity. }
  assert (Hm : forall n0, match_at n0 re_heredoc (Hb ++ rest) = Some rest).
  { intros n0. unfold Hb. cbn [app]. rewrite <- !app_assoc. cbn [app].
    rewrite <- !app_assoc. apply match_at_heredoc; try assumption.
    destruct rest as [|a [|x post]]; [| discriminate |].
    - rewrite app_nil_r. apply m_heredoc_end. assumption.
    - cbn [next_line] in Hrest. apply andb_prop in Hrest.
      destruct Hrest as [Ha Hx]. apply N.eqb_eq in Ha. subst a.
      apply negb_true_iff in Hx. apply m_heredoc_line; assumption. }
  assert (Hpass : replace_all re_heredoc [] (pre ++ Hb ++ rest)
                  = replace_all re_heredoc [] (pre ++ rest)).
  { rewrite !(replace_all_heredoc_keep re_heredoc [] pre)
      by (assumption || simpl; tauto).
    f_equal. apply replace_all_match; [reflexivity | discriminate | assumption]. }
  assert (Hclean : clean (pre ++ Hb ++ rest) = clean (pre ++ rest)).
  { unfold clean, strip_heredocs. cbv zeta. rewrite Hpass. reflexivity. }
  rewrite Eq. split; [assumption | apply extract_clean; assumption].
Qed.

Lemma terminated_heredoc_removed_witness :
  clean (js "cat " ++ c_lt :: c_lt :: [] ++ [squote] ++ js "EOF"
         ++ (squote :: nl :: js "some text with rm -rf /") ++ nl :: js "EOF"
         ++ [] ++ nl :: js "echo done")
  = clean (js "cat " ++ nl :: js "echo done") /\
  extractExecutables
    (js "cat " ++ c_lt :: c_lt :: [] ++ [squote] ++ js "EOF"
     ++ (squote :: nl :: js "some text with rm -rf /") ++ nl :: js "EOF"
     ++ [] ++ nl :: js "echo done")
  = extractExecutables (js "cat " ++ nl :: js "echo done").
Proof.
  apply (terminated_heredoc_removed (js "cat ") [] [squote] (js "EOF")
           (squote :: nl :: js "some text with rm -rf /") []
           (nl :: js "echo done")); try reflexivity.
  discriminate.
Defined.

(** X12. The path of a part is stripped (line 72): the basename of a part
    is what follows its last [/], and the part itself when it has no [/].
    The directory may hold any code unit but a line terminator (line feed,
    carriage return, U+2028, U+2029), which the parts of a segment never
    hold, for they hold no white space. *)
Theorem basename_after_last_slash :
  (forall dir name,
     forallb is_dot dir = true -> mem_char (ch "/") name = false ->
     basename (dir ++ ch "/" :: name) = name) /\
  (forall part, mem_char (ch "/") part = false -> basename part = part) /\
  (forall part,
     forallb (fun c => negb (is_space c)) part = true ->
     forallb is_dot part = true).
Proof.
  split; [|split].
  - intros dir name Hdir Hname. unfold basename, replace.
    destruct (dir ++ ch "/" :: name) as [|x s] eqn:E.
    + destruct dir; discriminate.
    + rewrite <- E. clear E.
      assert (Hm : match_at (length (dir ++ ch "/" :: name)) re_path
                     (dir ++ ch "/" :: name) = Some name).
      { unfold match_at, re_path. rewrite m_seq, m_bol, Nat.eqb_refl, m_seq.
        rewrite m_path_last by assumption. reflexivity. }
      destruct (dir ++ ch "/" :: name) as [|y u]; cbn [replace_from];
        rewrite Hm; reflexivity.
  - intros part Hpart. unfold basename, replace.
    assert (Hm : match_at (length part) re_path part = None).
    { unfold match_at, re_path. rewrite m_seq, m_bol, Nat.eqb_refl, m_seq.
      rewrite m_path_none by assumption. reflexivity. }
    destruct part as [|x t].
    + cbn [replace_from]. rewrite Hm. reflexivity.
    + cbn [replace_from]. rewrite Hm. f_equal.
      apply replace_from_bol. cbn [length]. lia.
  - intros part H. rewrite forallb_forall in *. intros x Hx.
    specialize (H x Hx). apply negb_true_iff in H. unfold is_dot.
    apply negb_true_iff. revert H. unfold is_space, in_range.
    rewrite !orb_false_iff, !andb_false_iff, !N.leb_gt, !N.eqb_neq. lia.
Qed.

Lemma basename_after_last_slash_witness :
  basename (js "/usr/local/bin" ++ ch "/" :: js "node") = js "node" /\
  basename (js "node") = js "node" /\
  forallb is_dot (js "/usr/local/bin/node") = true.
Proof.
  split; [|split].
  - apply (proj1 basename_after_last_slash); reflexivity.
  - apply (proj1 (proj2 basename_after_last_slash)). reflexivity.
  - apply (proj2 (proj2 basename_after_last_slash)). reflexivity.
Defined.

(** X13. The executable of a simple command is its first word: when the
    command is one segment that the removals leave as it is, and its first
    word is not passed over, has a name for basename and is not made of
    capital letters only, the output is that basename alone -- followed,
    for the six executables of SUBCOMMAND_EXECUTABLES, by the subcommand
    found in the words after it, if there is one. *)
Theorem simple_command_first_word p args :
  p <> [] -> forallb (fun c => negb (is_space c)) p = true ->
  stops_at is_space args = true ->
  plain (p ++ args) = true ->
  forallb (fun c => negb (is_separator c)) (p ++ args) = true ->
  skipped p = false -> name_ok (basename p) = true ->
  forallb is_upper p = false ->
  extractExecutables (p ++ args)
  = Ret [if arr_includes SUBCOMMAND_EXECUTABLES (basename p)
         then exec_id (basename p) (subcommand_of (fields [] args))
         else basename p].
Proof.
  intros Hne Hp Hargs Hpl Hsep Hsk Hname Hup.
  rewrite extractExecutables_spec, segment_ids_simple by assumption.
  rewrite first_word_not_marker by assumption.
  rewrite fields_first_word by assumption.
  unfold words_identity. rewrite parts_found_cons, Hsk, Hname.
  destruct (arr_includes SUBCOMMAND_EXECUTABLES (basename p)); reflexivity.
Qed.

Lemma simple_command_first_word_witness :
  extractExecutables (js "/usr/bin/python3" ++ js " -m http.server 8000")
  = Ret [if arr_includes SUBCOMMAND_EXECUTABLES (basename (js "/usr/bin/python3"))
         then exec_id (basename (js "/usr/bin/python3"))
                (subcommand_of (fields [] (js " -m http.server 8000")))
         else basename (js "/usr/bin/python3")].
Proof.
  apply (simple_command_first_word (js "/usr/bin/python3")
           (js " -m http.server 8000")); try reflexivity.
  discriminate.
Defined.
